(** * papercoder: a shallow embedding of [papercoder.py]

    The development models the token encoder and decoder of
    [src/papercoder.py] and proves the properties of its specification.

    Conventions of the embedding.
    - A Python [str] is a list of characters ([str := list ascii]); a grid
      slot is [option str] ([None] is Python's [None]).
    - A Python exception is a value of [exn]; code that may raise returns a
      [result]; code that also draws random numbers runs in the monad [M],
      which threads the state of the random source.
    - The process-wide random source is a stream of naturals read through a
      cursor ([rng]).  Every theorem quantifies over the stream, so it holds
      for every outcome of the random draws.
    - [while True] in [generate_noise_token] is the only unbounded loop; it
      is given a fuel and reports [Spin] when the fuel runs out. *)

From Stdlib Require Import Ascii String.
From Stdlib Require Import List Arith Lia ZArith Bool.
Import ListNotations.

Set Implicit Arguments.

(* ------------------------------------------------------------------ *)
(** ** Strings *)

Definition str := list ascii.

(** Literal tokens are written [tk "he"]. *)
Definition tk (s : string) : str := list_ascii_of_string s.

Definition str_eq_dec : forall a b : str, {a = b} + {a <> b} :=
  list_eq_dec ascii_dec.

(** Python [a == b] on strings. *)
Definition str_eqb (a b : str) : bool :=
  if str_eq_dec a b then true else false.

(** Python [x in l] for a list (or set) of strings. *)
Definition mem (x : str) (l : list str) : bool := existsb (str_eqb x) l.

(** Python [s[i:j]] for [0 <= i <= j]. *)
Definition slice (A : Type) (s : list A) (i j : nat) : list A :=
  firstn (j - i) (skipn i s).

(** Python [range(a, b)]; empty when [b <= a]. *)
Definition range (a b : nat) : list nat := seq a (b - a).

(** Python [range(0, n, 2)]. *)
Definition range_step2 (n : nat) : list nat :=
  map (fun k => 2 * k) (seq 0 ((n + 1) / 2)).

(** Python [''.join(l)]. *)
Definition join (l : list str) : str := concat l.

(** Python [s[:-1]]. *)
Definition drop_last (s : str) : str := removelast s.

(** Python [l.index(x)]: position of the first occurrence. *)
Fixpoint index_of (x : str) (l : list str) : option nat :=
  match l with
  | [] => None
  | y :: l' => if str_eqb y x then Some 0
               else match index_of x l' with
                    | Some i => Some (S i)
                    | None => None
                    end
  end.

(** [string.ascii_letters + string.digits] *)
Definition charset : str :=
  tk "abcdefghijklmnopqrstuvwxyzABCDEFGHIJKLMNOPQRSTUVWXYZ0123456789".

(* ------------------------------------------------------------------ *)
(** ** Exceptions and the two monads *)

Inductive exn : Type :=
| ValueError_no_chunks   (* raise ValueError in get_random_chunk_for_direction *)
| ValueError_not_in_list (* list.index of an absent element *)
| ValueError_empty_range (* random.randint over an empty range *)
| IndexError_empty_choice (* random.choice of an empty sequence *)
| IndexError_list        (* list index out of range *)
| ZeroDivisionError
| RuntimeError_no_slot.  (* raise RuntimeError in tightly_fit_chunks *)

Inductive result (A : Type) : Type :=
| Ok (a : A)
| Raise (e : exn).
Arguments Raise {A} e.

Definition rbind (A B : Type) (r : result A) (f : A -> result B) : result B :=
  match r with
  | Ok a => f a
  | Raise e => Raise e
  end.

Notation "x <- e ;; k" := (rbind e (fun x => k))
  (at level 61, e at next level, right associativity).

(** The random source: a stream of draws and the position of the next one. *)
Record rng : Type := mkRng { source : nat -> nat; cursor : nat }.

Inductive run (A : Type) : Type :=
| Ret (a : A) (g : rng)
| Exc (e : exn)
| Spin.
Arguments Exc {A} e.
Arguments Spin {A}.

Definition M (A : Type) : Type := rng -> run A.

Definition ret (A : Type) (a : A) : M A := fun g => Ret a g.

Definition raise (A : Type) (e : exn) : M A := fun _ => Exc e.
Arguments raise {A} e.

Definition bind (A B : Type) (m : M A) (f : A -> M B) : M B :=
  fun g => match m g with
           | Ret a g' => f a g'
           | Exc e => Exc e
           | Spin => Spin
           end.

Notation "x <~ e ;; k" := (bind e (fun x => k))
  (at level 61, e at next level, right associativity).

Definition lift (A : Type) (r : result A) : M A :=
  fun g => match r with
           | Ok a => Ret a g
           | Raise e => Exc e
           end.

(** One draw from the random source. *)
Definition draw : M nat :=
  fun g => Ret (source g (cursor g)) (mkRng (source g) (S (cursor g))).

(** Python [l[i]] for [0 <= i]. *)
Definition list_get (A : Type) (l : list A) (i : nat) : result A :=
  match nth_error l i with
  | Some a => Ok a
  | None => Raise IndexError_list
  end.

(** Python [l[i] = v] for [0 <= i]. *)
Fixpoint list_set (A : Type) (l : list A) (i : nat) (v : A) : result (list A) :=
  match l, i with
  | [], _ => Raise IndexError_list
  | _ :: l', 0 => Ok (v :: l')
  | a :: l', S i' => r <- list_set l' i' v ;; Ok (a :: r)
  end.

(** [random.choice(l)] *)
Definition choice (A : Type) (l : list A) : M A :=
  match l with
  | [] => raise IndexError_empty_choice
  | _ => d <~ draw ;; lift (list_get l (d mod length l))
  end.

(** [random.randint(0, n - 1)] *)
Definition randint0 (n : nat) : M nat :=
  match n with
  | 0 => raise ValueError_empty_range
  | _ => d <~ draw ;; ret (d mod n)
  end.

(** [x[i], x[j] = x[j], x[i]] *)
Definition swap (A : Type) (x : list A) (i j : nat) : result (list A) :=
  a <- list_get x i ;;
  b <- list_get x j ;;
  x1 <- list_set x i b ;;
  list_set x1 j a.

(** [random.shuffle(x)]:
    [for i in reversed(range(1, len(x))): j = randbelow(i + 1); swap i j]. *)
Fixpoint shuffle_loop (A : Type) (i : nat) (x : list A) : M (list A) :=
  match i with
  | 0 => ret x
  | S i' => d <~ draw ;;
            x' <~ lift (swap x i (d mod (S i))) ;;
            shuffle_loop i' x'
  end.

Definition shuffle (A : Type) (x : list A) : M (list A) :=
  shuffle_loop (length x - 1) x.

(* ------------------------------------------------------------------ *)
(** ** Utility functions *)

(** The rejection test of [generate_noise_token]. *)
Definition noise_ok (exclude_set text_tokens : list str) (token : str) : bool :=
  negb (mem token exclude_set) &&
  negb (mem (rev token) exclude_set) &&
  negb (mem token text_tokens).

(** [''.join(random.choices(charset, k=2))] *)
Definition random_pair : M str :=
  a <~ choice charset ;;
  b <~ choice charset ;;
  ret [a; b].

Fixpoint generate_noise_token (fuel : nat) (exclude_set text_tokens : list str)
  : M str :=
  match fuel with
  | 0 => fun _ => Spin
  | S fuel' =>
      token <~ random_pair ;;
      if noise_ok exclude_set text_tokens token then ret token
      else generate_noise_token fuel' exclude_set text_tokens
  end.

Definition get_text_tokens (text : str) : list str :=
  map (fun i => slice text i (i + 2)) (range_step2 (length text)).

(** [raw_chunks] of [get_password_tokens]. *)
Definition raw_chunks (password : str) : list str :=
  map (fun i => slice password i (i + 2)) (range 0 (length password - 1)).

(** [Counter(raw)[c]] *)
Definition counts (raw : list str) (c : str) : nat := count_occ str_eq_dec raw c.

(** [c[0] == c[1]]; every window has two characters ([raw_chunks_two]). *)
Definition same_chars (c : str) : bool :=
  match c with
  | a :: b :: _ => Ascii.eqb a b
  | _ => false
  end.

(** The [for c in raw_chunks] loop of [get_password_tokens]; [valid] is the
    list built so far. *)
Fixpoint valid_loop (raw cs valid : list str) : list str :=
  match cs with
  | [] => valid
  | c :: cs' =>
      if 1 <? counts raw c then valid_loop raw cs' valid
      else if same_chars c then valid_loop raw cs' valid
      else if mem (rev c) raw then valid_loop raw cs' valid
      else valid_loop raw cs' (valid ++ [c])
  end.

Definition get_password_tokens (password : str) : list str :=
  let raw := raw_chunks password in
  valid_loop raw raw [].

Inductive direction : Type := before | after.

Definition direction_eqb (a b : direction) : bool :=
  match a, b with
  | before, before | after, after => true
  | _, _ => false
  end.

Definition direction_of_index (idx : nat) : direction :=
  if idx mod 2 =? 0 then before else after.

Definition get_direction (password token : str) : result direction :=
  let chunks := get_password_tokens password in
  match index_of token chunks with
  | Some idx => Ok (direction_of_index idx)
  | None => Raise ValueError_not_in_list
  end.

(** [[chunks[i] for i in range(len(chunks)) if i % 2 == r]], from index [i]. *)
Fixpoint at_parity (i : nat) (even : bool) (chunks : list str) : list str :=
  match chunks with
  | [] => []
  | c :: chunks' =>
      if Bool.eqb (i mod 2 =? 0) even then c :: at_parity (S i) even chunks'
      else at_parity (S i) even chunks'
  end.

Definition candidates_for (chunks : list str) (d : direction) : list str :=
  match d with
  | before => at_parity 0 true chunks
  | after => at_parity 0 false chunks
  end.

Definition get_random_chunk_for_direction (password : str) (d : direction)
  : M str :=
  let chunks := get_password_tokens password in
  match candidates_for chunks d with
  | [] => raise ValueError_no_chunks
  | candidates => choice candidates
  end.

(* ------------------------------------------------------------------ *)
(** ** Chunk placement *)

Definition slot := option str.

(** [all(flat[pos + k] is None for k in range(n))]: the generator stops at
    the first slot that is not [None]. *)
Fixpoint all_none (flat : list slot) (pos n : nat) : result bool :=
  match n with
  | 0 => Ok true
  | S n' =>
      v <- list_get flat pos ;;
      match v with
      | None => all_none flat (S pos) n'
      | Some _ => Ok false
      end
  end.

(** [col_idx = pos % line_len] followed by
    [col_idx + length <= line_len and all(...)]. *)
Definition fits (line_len : nat) (flat : list slot) (pos len : nat)
  : result bool :=
  if line_len =? 0 then Raise ZeroDivisionError
  else if pos mod line_len + len <=? line_len then all_none flat pos len
       else Ok false.

(** [for k, tok in enumerate(chunk): flat[pos + k] = tok] *)
Fixpoint write_chunk (flat : list slot) (pos : nat) (chunk : list str)
  : result (list slot) :=
  match chunk with
  | [] => Ok flat
  | tok :: rest =>
      flat' <- list_set flat pos (Some tok) ;;
      write_chunk flat' (S pos) rest
  end.

(** [for pos in positions: if fits: candidates.append(pos)] *)
Fixpoint collect_candidates (line_len : nat) (flat : list slot) (len : nat)
  (positions : list nat) : result (list nat) :=
  match positions with
  | [] => Ok []
  | pos :: rest =>
      b <- fits line_len flat pos len ;;
      cands <- collect_candidates line_len flat len rest ;;
      Ok (if b then pos :: cands else cands)
  end.

(** The copy of [flat] back into [lines]:
    [for j in range(line_len): line[j] = flat[idx]; idx += 1]. *)
Fixpoint write_line (line flat : list slot) (j n idx : nat)
  : result (list slot * nat) :=
  match n with
  | 0 => Ok (line, idx)
  | S n' =>
      v <- list_get flat idx ;;
      line' <- list_set line j v ;;
      write_line line' flat (S j) n' (S idx)
  end.

Fixpoint write_back (lines : list (list slot)) (flat : list slot)
  (line_len idx : nat) : result (list (list slot)) :=
  match lines with
  | [] => Ok []
  | line :: rest =>
      p <- write_line line flat 0 line_len idx ;;
      rest' <- write_back rest flat line_len (snd p) ;;
      Ok (fst p :: rest')
  end.

(** The [while pos <= total_slots - chunk_len] loop of [tightly_fit_chunks];
    [n] counts the positions for which the loop condition still holds.
    [None] is the loop's [else] branch. *)
Fixpoint scan_slot (n line_len : nat) (flat : list slot) (pos chunk_len : nat)
  : result (option nat) :=
  match n with
  | 0 => Ok None
  | S n' =>
      b <- fits line_len flat pos chunk_len ;;
      if b then Ok (Some pos)
      else scan_slot n' line_len flat (S pos) chunk_len
  end.

Fixpoint tight_loop (line_len total_slots : nat) (chunks : list (list str))
  (flat : list slot) (pos : nat) : result (list slot) :=
  match chunks with
  | [] => Ok flat
  | chunk :: rest =>
      let chunk_len := length chunk in
      r <- scan_slot (total_slots + 1 - chunk_len - pos) line_len flat pos
             chunk_len ;;
      match r with
      | None => Raise RuntimeError_no_slot
      | Some p =>
          flat' <- write_chunk flat p chunk ;;
          tight_loop line_len total_slots rest flat' (p + chunk_len)
      end
  end.

Definition tightly_fit_chunks (lines : list (list slot))
  (encoded_chunks : list (list str)) : result (list (list slot)) :=
  first <- list_get lines 0 ;;
  let n_lines := length lines in
  let line_len := length first in
  let total_slots := n_lines * line_len in
  flat <- tight_loop line_len total_slots encoded_chunks (concat lines) 0 ;;
  write_back lines flat line_len 0.

(** The body of [try_spread].  [i] is the index of the current chunk and
    [next] is [prev_end + 1] ([prev_end] starts at -1).  [None] is the
    [return False] of the source. *)
Fixpoint try_spread_loop (line_len total_slots n_chunks i : nat)
  (chunks : list (list str)) (flat : list slot) (next : nat)
  : M (option (list slot)) :=
  match chunks with
  | [] => ret (Some flat)
  | chunk :: rest =>
      let len := length chunk in
      let start_bin := (i * total_slots) / n_chunks in
      let end_bin := ((i + 1) * total_slots) / n_chunks in
      positions <~ shuffle (range (max next start_bin) (end_bin + 1 - len)) ;;
      candidates <~ lift (collect_candidates line_len flat len positions) ;;
      candidates <~
        match candidates with
        | [] =>
            positions <~ shuffle (range next (total_slots + 1 - len)) ;;
            lift (collect_candidates line_len flat len positions)
        | _ => ret candidates
        end ;;
      match candidates with
      | [] => ret None
      | chosen :: _ =>
          flat' <~ lift (write_chunk flat chosen chunk) ;;
          try_spread_loop line_len total_slots n_chunks (S i) rest flat'
            (chosen + len)
      end
  end.

Definition try_spread (line_len total_slots : nat) (flat : list slot)
  (encoded_chunks : list (list str)) : M (option (list slot)) :=
  try_spread_loop line_len total_slots (length encoded_chunks) 0
    encoded_chunks flat 0.

(** [for _ in range(max_attempts)], then the tight-fit fallback. *)
Fixpoint spread_attempts (attempts line_len total_slots : nat)
  (lines : list (list slot)) (encoded_chunks : list (list str))
  : M (list (list slot)) :=
  match attempts with
  | 0 => lift (tightly_fit_chunks lines encoded_chunks)
  | S attempts' =>
      r <~ try_spread line_len total_slots (concat lines) encoded_chunks ;;
      match r with
      | Some flat => lift (write_back lines flat line_len 0)
      | None =>
          spread_attempts attempts' line_len total_slots lines encoded_chunks
      end
  end.

Definition max_attempts : nat := 100.

Definition spread_chunks_with_fallback (lines : list (list slot))
  (encoded_chunks : list (list str)) : M (list (list slot)) :=
  first <~ lift (list_get lines 0) ;;
  let n_lines := length lines in
  let line_len := length first in
  let total_slots := n_lines * line_len in
  spread_attempts max_attempts line_len total_slots lines encoded_chunks.

(* ------------------------------------------------------------------ *)
(** ** Encoder *)

(** The body of the [for msg_token in message_tokens] loop. *)
Definition encode_chunk (password : str) (password_tokens : list str)
  (msg_token : str) : M (list str) :=
  if mem msg_token password_tokens then
    d <~ lift (get_direction password msg_token) ;;
    match d with
    | before =>
        a <~ get_random_chunk_for_direction password before ;;
        ret [rev msg_token; msg_token; a]
    | after =>
        a <~ get_random_chunk_for_direction password after ;;
        ret [a; msg_token; rev msg_token]
    end
  else if mem (rev msg_token) password_tokens then
    p_token <~ get_random_chunk_for_direction password after ;;
    if negb (str_eqb p_token (rev msg_token)) then ret [p_token; msg_token]
    else
      a <~ get_random_chunk_for_direction password before ;;
      ret [msg_token; a]
  else
    p_chunk <~ choice password_tokens ;;
    d <~ lift (get_direction password p_chunk) ;;
    match d with
    | before => ret [msg_token; p_chunk]
    | after => ret [p_chunk; msg_token]
    end.

Fixpoint encode_chunks (password : str) (password_tokens message_tokens : list str)
  : M (list (list str)) :=
  match message_tokens with
  | [] => ret []
  | msg_token :: rest =>
      chunk <~ encode_chunk password password_tokens msg_token ;;
      chunks <~ encode_chunks password password_tokens rest ;;
      ret (chunk :: chunks)
  end.

(** The [for _ in range(max_lines)] loop that builds the lines buffer. *)
Fixpoint lines_loop (n : nat) (line_max_tokens tmax_toks : Z)
  : list (list slot) :=
  match n with
  | 0 => []
  | S n' =>
      (if (tmax_toks >? line_max_tokens)%Z
       then repeat None (Z.to_nat line_max_tokens)
       else repeat None (Z.to_nat tmax_toks))
      :: lines_loop n' line_max_tokens (tmax_toks - line_max_tokens)%Z
  end.

(** Step 4 of [encode].  [int(total / line)] truncates the quotient; the
    float division of the source is exact for the capacities a grid can
    have (below 2^53). *)
Definition setup_lines (line_max_tokens total_max_tokens : Z)
  : result (list (list slot)) :=
  if (line_max_tokens =? 0)%Z then Raise ZeroDivisionError
  else
    let max_lines := Z.quot total_max_tokens line_max_tokens in
    let max_lines :=
      if negb (total_max_tokens mod line_max_tokens =? 0)%Z
      then (max_lines + 1)%Z else max_lines in
    Ok (lines_loop (Z.to_nat max_lines) line_max_tokens total_max_tokens).

(** [row[-1] = v] *)
Definition set_last (A : Type) (row : list A) (v : A) : result (list A) :=
  list_set row (length row - 1) v.

(** Step 5 of [encode]: the padding anchor. *)
Definition place_padding (password : str) (password_tokens : list str)
  (lines : list (list slot)) : M (list (list slot)) :=
  p_chunk <~ choice password_tokens ;;
  line_idx <~ randint0 (length lines) ;;
  d <~ lift (get_direction password p_chunk) ;;
  lift (row <- list_get lines line_idx ;;
        row' <- match d with
                | before => list_set row 0 (Some p_chunk)
                | after => set_last row (Some p_chunk)
                end ;;
        list_set lines line_idx row').

(** Step 7 of [encode]: every [None] becomes a noise token. *)
Fixpoint fill_line (fuel : nat) (password_tokens message_tokens : list str)
  (l : list slot) : M (list str) :=
  match l with
  | [] => ret []
  | k :: l' =>
      t <~ match k with
           | None => generate_noise_token fuel password_tokens message_tokens
           | Some t => ret t
           end ;;
      r <~ fill_line fuel password_tokens message_tokens l' ;;
      ret (t :: r)
  end.

Fixpoint fill_noise (fuel : nat) (password_tokens message_tokens : list str)
  (lines : list (list slot)) : M (list (list str)) :=
  match lines with
  | [] => ret []
  | l :: rest =>
      l' <~ fill_line fuel password_tokens message_tokens l ;;
      rest' <~ fill_noise fuel password_tokens message_tokens rest ;;
      ret (l' :: rest')
  end.

Definition needs_padding (text : str) : bool :=
  negb (length text mod 2 =? 0).

(** Step 1 of [encode]. *)
Definition pad_text (text : str) : M str :=
  if needs_padding text then ch <~ choice charset ;; ret (text ++ [ch])
  else ret text.

(** Steps 1 to 6 of [encode]: the message tokens and the grid after
    placement, before the noise is drawn. *)
Definition encode_placed (text password : str)
  (line_max_tokens total_max_tokens : Z)
  : M (list str * list (list slot)) :=
  text_padded <~ pad_text text ;;
  let message_tokens := get_text_tokens text_padded in
  let password_tokens := get_password_tokens password in
  encoded_chunks <~ encode_chunks password password_tokens message_tokens ;;
  lines <~ lift (setup_lines line_max_tokens total_max_tokens) ;;
  lines <~ (if needs_padding text
            then place_padding password password_tokens lines
            else ret lines) ;;
  lines <~ spread_chunks_with_fallback lines encoded_chunks ;;
  ret (message_tokens, lines).

Definition encode (fuel : nat) (text password : str)
  (line_max_tokens total_max_tokens : Z) : M (list (list str)) :=
  p <~ encode_placed text password line_max_tokens total_max_tokens ;;
  fill_noise fuel (get_password_tokens password) (fst p) (snd p).

(* ------------------------------------------------------------------ *)
(** ** Decoder *)

(** The body of [for i, token in enumerate(line)]; the state is
    [(result, delete_last)]. *)
Definition decode_token (valid_chunks line : list str) (i : nat) (token : str)
  (st : list str * bool) : result (list str * bool) :=
  if mem token valid_chunks then
    chunk_idx <- match index_of token valid_chunks with
                 | Some k => Ok k
                 | None => Raise ValueError_not_in_list
                 end ;;
    prev_chunk <- (if 0 <? i then list_get line (i - 1) else Ok []) ;;
    next_chunk <- (if i + 1 <? length line then list_get line (i + 1)
                   else Ok []) ;;
    match direction_of_index chunk_idx with
    | before =>
        if str_eqb prev_chunk [] then Ok (fst st, true)
        else if negb (str_eqb (rev prev_chunk) token)
             then Ok (fst st ++ [prev_chunk], snd st)
             else Ok st
    | after =>
        if str_eqb next_chunk [] then Ok (fst st, true)
        else if negb (str_eqb (rev next_chunk) token)
             then Ok (fst st ++ [next_chunk], snd st)
             else Ok st
    end
  else Ok st.

Fixpoint decode_line (valid_chunks line : list str) (i : nat) (rest : list str)
  (st : list str * bool) : result (list str * bool) :=
  match rest with
  | [] => Ok st
  | token :: rest' =>
      st' <- decode_token valid_chunks line i token st ;;
      decode_line valid_chunks line (S i) rest' st'
  end.

Fixpoint decode_lines (valid_chunks : list str) (lines : list (list str))
  (st : list str * bool) : result (list str * bool) :=
  match lines with
  | [] => Ok st
  | line :: rest =>
      st' <- decode_line valid_chunks line 0 line st ;;
      decode_lines valid_chunks rest st'
  end.

Definition decode (lines : list (list str)) (password : str) : result str :=
  let valid_chunks := get_password_tokens password in
  st <- decode_lines valid_chunks lines ([], false) ;;
  let res := join (fst st) in
  Ok (if snd st then drop_last res else res).



(* ------------------------------------------------------------------ *)
(** ** Specification-side definitions

    These follow the words of the specification; the theorems compare them
    with the functions above. *)

(** The 2-character sliding windows of a string, left to right. *)
Fixpoint windows (p : str) : list str :=
  match p with
  | a :: ((b :: _) as t) => [a; b] :: windows t
  | _ => []
  end.

(** A window has two distinct characters. *)
Definition two_distinct (c : str) : bool :=
  match c with
  | [a; b] => negb (Ascii.eqb a b)
  | _ => false
  end.

(** The three conditions of a valid anchor among the windows [raw]. *)
Definition valid_window (raw : list str) (c : str) : bool :=
  (count_occ str_eq_dec raw c =? 1) &&
  two_distinct c &&
  negb (mem (rev c) raw).

(** The anchors of a password, as the specification words them. *)
Definition anchors_spec (p : str) : list str :=
  filter (valid_window (windows p)) (windows p).

(** The direction of an anchor of the list [anchors], if it is one. *)
Definition dir_in (anchors : list str) (a : str) : option direction :=
  option_map direction_of_index (index_of a anchors).

(** The outcome of [encode_chunk] on the message token [m], started in the
    random state [g], follows the three-case protocol of the chunk
    encoder: [r] is the outcome, [anchors] the valid anchors. *)
Definition follows_protocol (password m : str) (g : rng) (r : run (list str))
  : Prop :=
  let anchors := get_password_tokens password in
  match r with
  | Ret chunk g' =>
      (length chunk = 2 \/ length chunk = 3) /\
      match dir_in anchors m, dir_in anchors (rev m) with
      | Some before, _ =>
          exists a,
            get_random_chunk_for_direction password before g = Ret a g' /\
            dir_in anchors a = Some before /\
            chunk = [rev m; m; a]
      | Some after, _ =>
          exists a,
            get_random_chunk_for_direction password after g = Ret a g' /\
            dir_in anchors a = Some after /\
            chunk = [a; m; rev m]
      | None, Some _ =>
          exists a g1,
            get_random_chunk_for_direction password after g = Ret a g1 /\
            dir_in anchors a = Some after /\
            ((a <> rev m /\ g' = g1 /\ chunk = [a; m]) \/
             (a = rev m /\
              exists b,
                get_random_chunk_for_direction password before g1 = Ret b g' /\
                dir_in anchors b = Some before /\
                chunk = [m; b]))
      | None, None =>
          exists a,
            choice anchors g = Ret a g' /\
            ((dir_in anchors a = Some before /\ chunk = [m; a]) \/
             (dir_in anchors a = Some after /\ chunk = [a; m]))
      end
  | Exc e =>
      (* the only failure: case 2 without any anchor of direction after *)
      e = ValueError_no_chunks /\
      dir_in anchors m = None /\
      dir_in anchors (rev m) <> None /\
      candidates_for anchors after = []
  | Spin => False
  end.

(** Random sources used in examples. *)
Definition rng_const (k : nat) : rng := mkRng (fun _ => k) 0.

Definition rng_of_list (l : list nat) : rng := mkRng (fun i => nth i l 0) 0.

(** The grid of the specification's allocator for a row width [w >= 1] and
    a capacity [c >= 1]: [c / w] full rows, then a row with the remainder
    when there is one; every slot empty. *)
Definition grid_spec (w c : Z) : list (list slot) :=
  repeat (repeat None (Z.to_nat w)) (Z.to_nat (c / w)) ++
  (if (c mod w =? 0)%Z then [] else [repeat None (Z.to_nat (c mod w))]).

(** What the decoder does at one slot: append a neighbour to the output,
    set the trim flag, or nothing. *)
Inductive event : Type :=
| Emit (t : str)
| Trim
| Skip.

(** The event of the slot holding [token] whose neighbours in its row are
    [prev] and [next] (the empty string when the neighbour is missing). *)
Definition token_event (valid : list str) (prev token next : str) : event :=
  match dir_in valid token with
  | None => Skip
  | Some before =>
      if str_eqb prev [] then Trim
      else if negb (str_eqb (rev prev) token) then Emit prev else Skip
  | Some after =>
      if str_eqb next [] then Trim
      else if negb (str_eqb (rev next) token) then Emit next else Skip
  end.

(** The events of the run of slots [rest] that follows the slot [prev] and
    precedes the slot [next]. *)
Fixpoint scan (valid : list str) (prev : str) (rest : list str) (next : str)
  : list event :=
  match rest with
  | [] => []
  | token :: rest' =>
      token_event valid prev token (hd next rest')
      :: scan valid token rest' next
  end.

Definition apply_event (st : list str * bool) (ev : event) : list str * bool :=
  match ev with
  | Emit t => (fst st ++ [t], snd st)
  | Trim => (fst st, true)
  | Skip => st
  end.

Fixpoint emitted (evs : list event) : list str :=
  match evs with
  | [] => []
  | Emit t :: evs' => t :: emitted evs'
  | _ :: evs' => emitted evs'
  end.

Fixpoint has_trim (evs : list event) : bool :=
  match evs with
  | [] => false
  | Trim :: _ => true
  | _ :: evs' => has_trim evs'
  end.

(** The events of a whole grid, row by row. *)
Definition grid_events (valid : list str) (lines : list (list str))
  : list event :=
  flat_map (fun line => scan valid [] line []) lines.

(** The specification's error kinds.  [NoAnchorAvailable] is raised where
    an anchor is drawn from an empty list: the [ValueError] of
    [get_random_chunk_for_direction] and the [IndexError] of
    [random.choice].  [PlacementCapacityExceeded] is the [RuntimeError] of
    the tight-fit fallback. *)
Definition NoAnchorAvailable (e : exn) : Prop :=
  e = ValueError_no_chunks \/ e = IndexError_empty_choice.

Definition PlacementCapacityExceeded (e : exn) : Prop :=
  e = RuntimeError_no_slot.

(** The text after step 1 of [encode], for the random state [g]. *)
Definition padded_text (text : str) (g : rng) : str :=
  match pad_text text g with
  | Ret t _ => t
  | _ => text
  end.

(* ------------------------------------------------------------------ *)
(** ** Placements *)

(** [flat] with the tokens of [chunk] written from position [pos] on. *)
Definition paste (flat : list slot) (pos : nat) (chunk : list str) : list slot :=
  firstn pos flat ++ map Some chunk ++ skipn (pos + length chunk) flat.

Fixpoint paste_all (flat : list slot) (ps : list nat) (chunks : list (list str))
  : list slot :=
  match ps, chunks with
  | p :: ps', chunk :: chunks' => paste_all (paste flat p chunk) ps' chunks'
  | _, _ => flat
  end.

(** The [n] slots from [pos] on exist and are empty. *)
Definition free_run (flat : list slot) (pos n : nat) : Prop :=
  forall k, k < n -> nth_error flat (pos + k) = Some None.

(** [placed w flat lo chunks ps]: the chunks can be written in this order
    at the positions [ps] of the flattened grid [flat] of row width [w],
    from position [lo] on: each chunk lies within one row, on slots that
    are empty in [flat], and starts after the end of the chunk before. *)
Inductive placed (w : nat) (flat : list slot)
  : nat -> list (list str) -> list nat -> Prop :=
| placed_nil (lo : nat) : placed w flat lo [] []
| placed_cons (lo : nat) (chunk : list str) (chunks : list (list str))
    (p : nat) (ps : list nat) :
    lo <= p ->
    p mod w + length chunk <= w ->
    free_run flat p (length chunk) ->
    placed w flat (p + length chunk) chunks ps ->
    placed w flat lo (chunk :: chunks) (p :: ps).

(** The shape of the grids of the specification: every row has the width
    of the first one, except the last, which may be shorter. *)
Definition grid_shaped (lines : list (list slot)) : Prop :=
  forall i row, nth_error lines i = Some row ->
    if S i <? length lines then length row = length (hd [] lines)
    else length row <= length (hd [] lines).

(** The slot in row [r] and column [k]. *)
Definition slot_at (lines : list (list slot)) (r k : nat) : option slot :=
  match nth_error lines r with
  | Some row => nth_error row k
  | None => None
  end.

(** Placement legality: [lines'] is [lines] after the chunks were placed.
    [ps] gives the row-major index of the first slot of each chunk. *)
Definition legal_placement (lines lines' : list (list slot))
  (chunks : list (list str)) : Prop :=
  let w := length (hd [] lines) in
  map (@length slot) lines' = map (@length slot) lines /\
  exists ps : list nat,
    length ps = length chunks /\
    (* each chunk is a contiguous run of one row, on slots that were empty *)
    (forall i p chunk,
        nth_error ps i = Some p -> nth_error chunks i = Some chunk ->
        p mod w + length chunk <= w /\
        forall k tok, nth_error chunk k = Some tok ->
          slot_at lines' (p / w) (p mod w + k) = Some (Some tok) /\
          slot_at lines (p / w) (p mod w + k) = Some None) /\
    (* the chunks follow each other in row-major order without overlap *)
    (forall i p chunk q,
        nth_error ps i = Some p -> nth_error chunks i = Some chunk ->
        nth_error ps (S i) = Some q -> p + length chunk <= q) /\
    (* a slot that held a token still holds it *)
    (forall r k t, slot_at lines r k = Some (Some t) ->
                   slot_at lines' r k = Some (Some t)).

(** A grid all of whose rows have the width [w]. *)
Definition rectangular (w : nat) (lines : list (list slot)) : Prop :=
  forall row, In row lines -> length row = w.

(** [lines'] is the rectangular grid [lines] with the chunks pasted at the
    row-major positions [ps]. *)
Definition placement_of (lines lines' : list (list slot))
  (chunks : list (list str)) (ps : list nat) : Prop :=
  let w := length (hd [] lines) in
  rectangular w lines /\
  placed w (concat lines) 0 chunks ps /\
  concat lines' = paste_all (concat lines) ps chunks /\
  map (@length slot) lines' = map (@length slot) lines /\
  length ps = length chunks.

(* ------------------------------------------------------------------ *)
(** ** Noise *)

(** A noise token for the anchors and message tokens of an encoding. *)
Definition noise_token (anchors message_tokens : list str) (n : str) : Prop :=
  (exists a b, In a charset /\ In b charset /\ n = [a; b]) /\
  ~ In n anchors /\ ~ In (rev n) anchors /\ ~ In n message_tokens.

(** The slot [s] of the grid after placement and the token [t] of the
    grid returned: a placed token stays, an empty slot holds noise. *)
Definition filled (anchors message_tokens : list str) (s : slot) (t : str)
  : Prop :=
  match s with
  | Some x => t = x
  | None => noise_token anchors message_tokens t
  end.

(** From every position of the random stream [src] the rejection loop of
    [generate_noise_token] accepts a pair within [fuel] tries. *)
Definition noise_terminates (fuel : nat) (anchors message_tokens : list str)
  (src : nat -> nat) : Prop :=
  forall n, exists t g',
    generate_noise_token fuel anchors message_tokens (mkRng src n) = Ret t g'.

(** A computation that leaves the stream of the random source as it is:
    it only moves the cursor. *)
Definition keeps_source (A : Type) (m : M A) : Prop :=
  forall g a g', m g = Ret a g' -> source g' = source g.

(** The flattened grid of [total] slots and row width [w] after step 5
    of [encode]: empty, except for one anchor at the start of a row when
    its direction is before, at the end of a row when it is after. *)
Definition padded_flat (anchors : list str) (w total : nat) (pad : bool)
  (flat : list slot) : Prop :=
  if pad then
    exists a d q,
      dir_in anchors a = Some d /\ q < total /\
      flat = repeat None q ++ Some a :: repeat None (total - S q) /\
      match d with
      | before => q mod w = 0
      | after => q mod w = w - 1
      end
  else flat = repeat None total.

Definition is_none (s : slot) : bool :=
  match s with
  | None => true
  | Some _ => false
  end.

(** The number of empty slots. *)
Definition free_slots (flat : list slot) : nat := length (filter is_none flat).

(* ------------------------------------------------------------------ *)
(** ** Round trip *)

(** The message tokens as the specification words them: slices of two
    characters, left to right, without overlap; a last single character
    when the length is odd. *)
Fixpoint pairs (t : str) : list str :=
  match t with
  | a :: b :: r => [a; b] :: pairs r
  | [a] => [[a]]
  | [] => []
  end.

(** The shapes a chunk for the message token [m] can have. *)
Definition chunk_ok (anchors : list str) (m : str) (c : list str) : Prop :=
  m <> [] /\
  match dir_in anchors m, dir_in anchors (rev m) with
  | Some before, _ =>
      exists a, dir_in anchors a = Some before /\ c = [rev m; m; a]
  | Some after, _ =>
      exists a, dir_in anchors a = Some after /\ c = [a; m; rev m]
  | None, Some d =>
      (exists a, dir_in anchors a = Some after /\ a <> rev m /\ c = [a; m]) \/
      (d = after /\ exists b, dir_in anchors b = Some before /\ c = [m; b])
  | None, None =>
      exists a, (dir_in anchors a = Some before /\ c = [m; a]) \/
                (dir_in anchors a = Some after /\ c = [a; m])
  end.

(** The event of the decoder at position [q] of the flattened grid [G] of
    row width [w]. *)
Definition ev_at (valid : list str) (w : nat) (G : list str) (q : nat) : event :=
  token_event valid
    (if q mod w =? 0 then [] else nth (q - 1) G [])
    (nth q G [])
    (if S (q mod w) =? w then [] else nth (S q) G []).

(** A token that stands alone in the grid before the placement is an
    anchor at the row boundary its direction looks across. *)
Definition pad_like (valid : list str) (w : nat) (a : str) (q : nat) : Prop :=
  match dir_in valid a with
  | Some before => q mod w = 0
  | Some after => S (q mod w) = w
  | None => False
  end.


(** Some slot of the list holds a token. *)
Definition has_token (l : list slot) : bool :=
  existsb (fun s => negb (is_none s)) l.

(* ------------------------------------------------------------------ *)
(** ** Decoys and conflicting tokens *)

(** [get_random_decoy(password, exclude=None)]; the source does not read
    [exclude]. *)
Definition get_random_decoy (password : str) (exclude : option (list str))
  : M str :=
  chunk <~ choice (get_password_tokens password) ;;
  ret (rev chunk).

(** The [for tok in message_tokens] loop of
    [split_conflicting_message_tokens]; [result] is the list built so far.
    A token of length 2 is [[a; b]], and [tok[0]], [tok[1]] are the
    one-character strings [[a]] and [[b]]. *)
Fixpoint split_loop (password_set password_rev_set message_tokens
  result : list str) : list str :=
  match message_tokens with
  | [] => result
  | tok :: rest =>
      if mem tok password_set || mem tok password_rev_set then
        match tok with
        | [a; b] =>
            split_loop password_set password_rev_set rest
              (result ++ [[a]; [b]])
        | _ =>
            split_loop password_set password_rev_set rest (result ++ [tok])
        end
      else split_loop password_set password_rev_set rest (result ++ [tok])
  end.

Definition split_conflicting_message_tokens
  (message_tokens password_tokens : list str) : list str :=
  let password_set := password_tokens in
  let password_rev_set := map (@rev ascii) password_tokens in
  split_loop password_set password_rev_set message_tokens [].

(* ------------------------------------------------------------------ *)
(** ** Print and format helpers *)

(** [''.join('(spc)' if ch == ' ' else ch for ch in c)], and [''] for
    [None]. *)
Definition show_token (c : slot) : str :=
  match c with
  | None => []
  | Some c =>
      concat (map (fun ch => if Ascii.eqb ch " " then tk "(spc)" else [ch]) c)
  end.

(** [max(len(row[i]) for row in processed)] over the rows [rows]; [m] is
    the maximum so far.  The sequence is never empty where the source
    takes its maximum, since [processed[0]] was read before. *)
Fixpoint col_width (rows : list (list str)) (i m : nat) : result nat :=
  match rows with
  | [] => Ok m
  | row :: rows' =>
      s <- list_get row i ;;
      col_width rows' i (Nat.max m (length s))
  end.

(** [[max(...) for i in cols]] *)
Fixpoint col_widths (processed : list (list str)) (cols : list nat)
  : result (list nat) :=
  match cols with
  | [] => Ok []
  | i :: cols' =>
      w <- col_width processed i 0 ;;
      ws <- col_widths processed cols' ;;
      Ok (w :: ws)
  end.

(** [s.ljust(w)] *)
Definition ljust (s : str) (w : nat) : str := s ++ repeat " "%char (w - length s).

(** [sep.join(l)] *)
Fixpoint join_sep (sep : str) (l : list str) : str :=
  match l with
  | [] => []
  | s :: l' =>
      match l' with
      | [] => s
      | _ => s ++ sep ++ join_sep sep l'
      end
  end.

(** [' | '.join(s.ljust(w) for s, w in zip(row, col_widths))] *)
Definition format_row (col_widths : list nat) (row : list str) : str :=
  join_sep (tk " | ")
    (map (fun p => ljust (fst p) (snd p)) (combine row col_widths)).

(** [print_lines]: the lines printed, one for each call of [print].  The
    source raises only before the first of them. *)
Definition print_lines (lines : list (list slot)) : result (list str) :=
  let processed := map (map show_token) lines in
  first <- list_get processed 0 ;;
  col_widths <- col_widths processed (range 0 (length first)) ;;
  Ok (map (format_row col_widths) processed).

Definition parse_lines_arg (lines_args : list str) : list (list str) :=
  map (fun line =>
         map (fun i => slice line i (i + 2)) (range_step2 (length line)))
      lines_args.

Definition lines_to_strings (lines : list (list str)) : list str :=
  map join lines.

(* ------------------------------------------------------------------ *)
(** ** Command line entry *)

(** The namespace that [parser.parse_args()] returns. *)
Record args : Type := mkArgs {
  args_encode : option str;          (* --encode TEXT; None when absent *)
  args_decode : bool;                (* --decode *)
  args_password : str;               (* --password *)
  args_line_max : Z;                 (* --line-max *)
  args_total_max : Z;                (* --total-max *)
  args_lines : option (list str);    (* --lines; None when absent *)
  args_print : bool                  (* --print *)
}.

(** What a run of [main] writes: the arguments of the calls of [print] to
    the standard output and to the standard error, and the status of
    [sys.exit] if it was called. *)
Record output : Type := mkOutput {
  stdout : list str;
  stderr : list str;
  exit_status : option Z
}.

Definition newline : str := ["010"%char].

(** [main] from [args = parser.parse_args()] on.  [if args.encode:] holds
    for a text that is not empty; [if not args.lines:] holds for [None]
    and for the empty list. *)
Definition main (fuel : nat) (a : args) : M output :=
  match args_encode a with
  | Some ((_ :: _) as text) =>
      lines <~ encode fuel text (args_password a) (args_line_max a)
                 (args_total_max a) ;;
      table <~ (if args_print a
                then lift (print_lines (map (map (@Some str)) lines))
                else ret []) ;;
      ret (mkOutput (table ++ [join_sep newline (lines_to_strings lines)])
             [] None)
  | _ =>
      if args_decode a then
        match args_lines a with
        | Some ((_ :: _) as lines_args) =>
            decoded <~ lift (decode (parse_lines_arg lines_args)
                               (args_password a)) ;;
            ret (mkOutput [decoded] [] None)
        | _ =>
            ret (mkOutput []
                   [tk "Error: --lines must be provided for decode"]
                   (Some 1%Z))
        end
      else ret (mkOutput [] [] None)
  end.

(* ------------------------------------------------------------------ *)
(** ** Further properties of placements and runs *)

(** [earliest w flat lo chunks ps]: every position of [ps] is the first
    one, from the end of the chunk before it on, at which its chunk lies
    within one row on empty slots of [flat]. *)
Inductive earliest (w : nat) (flat : list slot)
  : nat -> list (list str) -> list nat -> Prop :=
| earliest_nil (lo : nat) : earliest w flat lo [] []
| earliest_cons (lo : nat) (chunk : list str) (chunks : list (list str))
    (p : nat) (ps : list nat) :
    lo <= p ->
    (forall q, lo <= q < p ->
       ~ (q mod w + length chunk <= w /\ free_run flat q (length chunk))) ->
    earliest w flat (p + length chunk) chunks ps ->
    earliest w flat lo (chunk :: chunks) (p :: ps).

(** A computation that raises or returns whatever the random draws are:
    it never runs out of fuel. *)
Definition no_spin (A : Type) (m : M A) : Prop := forall g, m g <> Spin.

(** The row width and the number of rows of the grid for the row width
    [w] and the capacity [c], when all rows have the same width. *)
Definition grid_width (w c : Z) : nat :=
  if (c <? w)%Z then Z.to_nat c else Z.to_nat w.

Definition grid_rows (w c : Z) : nat :=
  if (c <? w)%Z then 1 else Z.to_nat (c / w).

(* ------------------------------------------------------------------ *)
(** * Theorems

    Every argument of a lemma is explicit. *)

Unset Implicit Arguments.

(** ** Strings and lists *)

Lemma str_eqb_eq (a b : str) : str_eqb a b = true <-> a = b.
Proof.
  unfold str_eqb. destruct (str_eq_dec a b); split; congruence.
Qed.

Lemma str_eqb_neq (a b : str) : str_eqb a b = false <-> a <> b.
Proof.
  unfold str_eqb. destruct (str_eq_dec a b); split; congruence.
Qed.

Lemma str_eqb_refl (a : str) : str_eqb a a = true.
Proof. now apply str_eqb_eq. Qed.

Lemma mem_In (x : str) (l : list str) : mem x l = true <-> In x l.
Proof.
  unfold mem. rewrite existsb_exists. split.
  - intros [y [Hy He]]. apply str_eqb_eq in He. now subst.
  - intros H. exists x. split; [assumption | apply str_eqb_refl].
Qed.

Lemma mem_not_In (x : str) (l : list str) : mem x l = false <-> ~ In x l.
Proof.
  rewrite <- mem_In. destruct (mem x l); split; congruence.
Qed.

Lemma raw_chunks_shift (a : ascii) (t : str) (k n : nat) :
  map (fun i => slice (a :: t) i (i + 2)) (seq (S k) n) =
  map (fun i => slice t i (i + 2)) (seq k n).
Proof.
  rewrite <- seq_shift, map_map. apply map_ext. intros i.
  unfold slice. now replace (S i + 2 - S i) with (i + 2 - i) by lia.
Qed.

Lemma raw_chunks_windows (p : str) : raw_chunks p = windows p.
Proof.
  unfold raw_chunks, range. induction p as [|a t IH]; [reflexivity|].
  destruct t as [|b t'].
  - reflexivity.
  - replace (length (a :: b :: t') - 1 - 0) with (S (length (b :: t') - 1 - 0))
      by (simpl; lia).
    rewrite <- cons_seq. rewrite map_cons, raw_chunks_shift, IH.
    reflexivity.
Qed.

Lemma windows_two (p c : str) : In c (windows p) -> exists a b, c = [a; b].
Proof.
  induction p as [|a t IH]; [intros []|].
  destruct t as [|b t']; [intros []|].
  intros [H|H]; [now exists a, b | now apply IH].
Qed.

Lemma same_chars_two (c : str) :
  (exists a b, c = [a; b]) -> same_chars c = negb (two_distinct c).
Proof.
  intros [a [b ->]]. simpl. now rewrite negb_involutive.
Qed.

Lemma valid_loop_filter (raw cs valid : list str) :
  (forall c, In c cs -> In c raw /\ exists a b, c = [a; b]) ->
  valid_loop raw cs valid = valid ++ filter (valid_window raw) cs.
Proof.
  revert valid. induction cs as [|c cs IH]; intros valid Hcs.
  - simpl. now rewrite app_nil_r.
  - assert (Hc : In c raw /\ exists a b, c = [a; b]) by (apply Hcs; now left).
    destruct Hc as [Hin Htwo].
    assert (IH' : forall v, valid_loop raw cs v = v ++ filter (valid_window raw) cs)
      by (intros v; apply IH; intros c' Hc'; apply Hcs; now right).
    simpl. unfold valid_window, counts.
    rewrite (same_chars_two c Htwo).
    assert (Hpos : count_occ str_eq_dec raw c > 0) by now apply count_occ_In.
    destruct (1 <? count_occ str_eq_dec raw c) eqn:Hc1.
    + apply Nat.ltb_lt in Hc1.
      replace (count_occ str_eq_dec raw c =? 1) with false
        by (symmetry; apply Nat.eqb_neq; lia).
      simpl. apply IH'.
    + apply Nat.ltb_ge in Hc1.
      replace (count_occ str_eq_dec raw c =? 1) with true
        by (symmetry; apply Nat.eqb_eq; lia).
      simpl. destruct (two_distinct c); simpl; [|apply IH'].
      destruct (mem (rev c) raw); simpl; [apply IH'|].
      rewrite IH', <- app_assoc. reflexivity.
Qed.

Lemma get_password_tokens_anchors_spec (p : str) :
  get_password_tokens p = anchors_spec p.
Proof.
  unfold get_password_tokens, anchors_spec. rewrite raw_chunks_windows.
  rewrite valid_loop_filter; [reflexivity|].
  intros c Hc. split; [assumption | now apply windows_two with p].
Qed.

(** C2. Anchor extraction is a function of the password alone: the result
    is the list of 2-character sliding windows of the password, kept in
    their order, that occur once among the windows, have two distinct
    characters and whose reversal is not a window.  A password of fewer
    than two characters has no anchor.  For "hello" the anchors are
    he, el, lo with directions before, after, before. *)
Theorem get_password_tokens_spec :
  (forall p, get_password_tokens p =
             filter (valid_window (windows p)) (windows p)) /\
  get_password_tokens [] = [] /\
  (forall a, get_password_tokens [a] = []) /\
  get_password_tokens (tk "hello") = [tk "he"; tk "el"; tk "lo"] /\
  map (get_direction (tk "hello")) (get_password_tokens (tk "hello")) =
    [Ok before; Ok after; Ok before].
Proof.
  split; [exact get_password_tokens_anchors_spec|].
  repeat split; reflexivity.
Qed.

(** ** The monads *)

Lemma rbind_ok (A B : Type) (r : result A) (f : A -> result B) (b : B) :
  rbind r f = Ok b -> exists a, r = Ok a /\ f a = Ok b.
Proof.
  destruct r as [a|e]; simpl; [|discriminate]. intros H. now exists a.
Qed.

Lemma bind_ret (A B : Type) (m : M A) (f : A -> M B) (g g' : rng) (b : B) :
  bind m f g = Ret b g' -> exists a g1, m g = Ret a g1 /\ f a g1 = Ret b g'.
Proof.
  unfold bind. destruct (m g) as [a g1| |]; try discriminate.
  intros H. now exists a, g1.
Qed.

Lemma bind_ret_eq (A B : Type) (m : M A) (f : A -> M B) (g g1 : rng) (a : A) :
  m g = Ret a g1 -> bind m f g = f a g1.
Proof. unfold bind. now intros ->. Qed.

Lemma bind_exc_eq (A B : Type) (m : M A) (f : A -> M B) (g : rng) (e : exn) :
  m g = Exc e -> bind m f g = Exc e.
Proof. unfold bind. now intros ->. Qed.

Lemma lift_ret (A : Type) (r : result A) (g g' : rng) (a : A) :
  lift r g = Ret a g' -> r = Ok a /\ g' = g.
Proof.
  unfold lift. destruct r; [|discriminate]. intros H. now inversion H.
Qed.

Lemma list_get_ok (A : Type) (l : list A) (i : nat) (a : A) :
  list_get l i = Ok a <-> nth_error l i = Some a.
Proof.
  unfold list_get. destruct (nth_error l i); split; congruence.
Qed.

Lemma list_get_lt (A : Type) (l : list A) (i : nat) :
  i < length l -> exists a, list_get l i = Ok a /\ nth_error l i = Some a.
Proof.
  intros H. unfold list_get. destruct (nth_error l i) as [a|] eqn:E.
  - now exists a.
  - apply nth_error_None in E. lia.
Qed.

(** [random.choice] of a non-empty list returns one of its elements and
    advances the random source by one draw. *)
Lemma choice_nonempty (A : Type) (l : list A) (g : rng) :
  l <> [] ->
  exists a, choice l g = Ret a (mkRng (source g) (S (cursor g))) /\ In a l.
Proof.
  intros Hl. destruct l as [|x l']; [congruence|].
  unfold choice, bind, draw, lift.
  destruct (list_get_lt A (x :: l')
              (source g (cursor g) mod length (x :: l'))) as [a [Ha Hn]].
  - apply Nat.mod_upper_bound. simpl. lia.
  - exists a. rewrite Ha. split; [reflexivity|]. eapply nth_error_In; eauto.
Qed.

Lemma choice_ret (A : Type) (l : list A) (g g' : rng) (a : A) :
  choice l g = Ret a g' -> In a l /\ g' = mkRng (source g) (S (cursor g)).
Proof.
  intros H. destruct l as [|x l'].
  - discriminate.
  - destruct (choice_nonempty A (x :: l') g) as [b [Hb Hin]]; [discriminate|].
    rewrite Hb in H. inversion H. subst. now split.
Qed.

(** ** Anchors and directions *)

Lemma index_of_nth (x : str) (l : list str) (i : nat) :
  index_of x l = Some i -> nth_error l i = Some x.
Proof.
  revert i. induction l as [|y l IH]; intros i; simpl; [discriminate|].
  destruct (str_eqb y x) eqn:E.
  - intros H. inversion H. apply str_eqb_eq in E. now subst.
  - destruct (index_of x l) as [k|]; [|discriminate].
    intros H. inversion H. simpl. now apply IH.
Qed.

Lemma index_of_In (x : str) (l : list str) :
  In x l <-> exists i, index_of x l = Some i.
Proof.
  split.
  - induction l as [|y l IH]; simpl; [intros []|].
    intros H. destruct (str_eqb y x) eqn:E; [now exists 0|].
    apply str_eqb_neq in E. destruct H as [H|H]; [congruence|].
    destruct (IH H) as [i Hi]. rewrite Hi. now exists (S i).
  - intros [i Hi]. apply index_of_nth in Hi. eapply nth_error_In; eauto.
Qed.

Lemma index_of_None (x : str) (l : list str) :
  index_of x l = None <-> ~ In x l.
Proof.
  rewrite index_of_In. destruct (index_of x l) as [i|].
  - split; [discriminate|]. intros H. exfalso. apply H. now exists i.
  - split; [|reflexivity]. intros _ [i Hi]. discriminate.
Qed.

Lemma index_of_NoDup (x : str) (l : list str) (i : nat) :
  NoDup l -> nth_error l i = Some x -> index_of x l = Some i.
Proof.
  intros Hnd. revert i. induction Hnd as [|y l Hy Hnd IH]; intros i.
  - destruct i; discriminate.
  - destruct i as [|i]; simpl.
    + intros H. inversion H. now rewrite str_eqb_refl.
    + intros H. destruct (str_eqb y x) eqn:E.
      * apply str_eqb_eq in E. subst. exfalso. apply Hy.
        eapply nth_error_In; eauto.
      * now rewrite (IH i H).
Qed.

Lemma dir_in_Some (anchors : list str) (a : str) (d : direction) :
  dir_in anchors a = Some d -> In a anchors.
Proof.
  unfold dir_in. destruct (index_of a anchors) as [i|] eqn:E; [|discriminate].
  intros _. apply index_of_In. now exists i.
Qed.

Lemma dir_in_None (anchors : list str) (a : str) :
  dir_in anchors a = None <-> ~ In a anchors.
Proof.
  unfold dir_in. rewrite <- index_of_None.
  destruct (index_of a anchors); simpl; split; congruence.
Qed.

Lemma dir_in_mem (anchors : list str) (a : str) :
  mem a anchors = match dir_in anchors a with Some _ => true | None => false end.
Proof.
  destruct (dir_in anchors a) as [d|] eqn:E.
  - apply mem_In. now apply dir_in_Some with d.
  - apply mem_not_In. now apply dir_in_None.
Qed.

Lemma get_direction_dir_in (password a : str) :
  get_direction password a =
  match dir_in (get_password_tokens password) a with
  | Some d => Ok d
  | None => Raise ValueError_not_in_list
  end.
Proof.
  unfold get_direction, dir_in.
  now destruct (index_of a (get_password_tokens password)).
Qed.

Lemma at_parity_nth (even : bool) (l : list str) (i : nat) (a : str) :
  In a (at_parity i even l) <->
  exists k, nth_error l k = Some a /\ Bool.eqb ((i + k) mod 2 =? 0) even = true.
Proof.
  revert i. induction l as [|c l IH]; intros i; cbn [at_parity].
  - split; [intros [] | intros [k [H _]]; destruct k; discriminate].
  - destruct (Bool.eqb (i mod 2 =? 0) even) eqn:E; cbn [In]; rewrite IH; split.
    + intros [H|[k [Hk Hp]]].
      * subst. exists 0. now rewrite Nat.add_0_r.
      * exists (S k). rewrite Nat.add_succ_r. now split.
    + intros [[|k] [Hk Hp]].
      * left. simpl in Hk. congruence.
      * right. exists k. rewrite Nat.add_succ_r in Hp. now split.
    + intros [k [Hk Hp]]. exists (S k). rewrite Nat.add_succ_r. now split.
    + intros [[|k] [Hk Hp]].
      * rewrite Nat.add_0_r in Hp. congruence.
      * exists k. rewrite Nat.add_succ_r in Hp. now split.
Qed.

Lemma anchors_NoDup (password : str) : NoDup (get_password_tokens password).
Proof.
  rewrite get_password_tokens_anchors_spec. unfold anchors_spec.
  apply (NoDup_count_occ str_eq_dec). intros x.
  set (raw := windows password).
  destruct (in_dec str_eq_dec x (filter (valid_window raw) raw)) as [Hin|Hout].
  - apply filter_In in Hin. destruct Hin as [_ Hv].
    unfold valid_window in Hv.
    apply andb_prop in Hv. destruct Hv as [Hv _].
    apply andb_prop in Hv. destruct Hv as [Hv _].
    apply Nat.eqb_eq in Hv. rewrite <- Hv.
    clear. induction raw as [|y raw IH]; simpl; [lia|].
    destruct (valid_window (y :: raw) y); simpl;
      destruct (str_eq_dec y x); simpl.
    all: try
      (assert (Hle : forall f, count_occ str_eq_dec (filter f raw) x
                               <= count_occ str_eq_dec raw x)
         by (intros f; clear; induction raw as [|z raw IH]; simpl; [lia|];
             destruct (f z); simpl; destruct (str_eq_dec z x); lia);
       specialize (Hle (valid_window (y :: raw))); lia).
  - apply (count_occ_not_In str_eq_dec) in Hout. lia.
Qed.

(** The candidates of a direction are the anchors of that direction. *)
Lemma candidates_for_dir (password a : str) (d : direction) :
  In a (candidates_for (get_password_tokens password) d) <->
  dir_in (get_password_tokens password) a = Some d.
Proof.
  set (anchors := get_password_tokens password).
  assert (Hnd : NoDup anchors) by apply anchors_NoDup.
  assert (Hpar : forall even,
    In a (at_parity 0 even anchors) <->
    exists k, index_of a anchors = Some k /\ Bool.eqb (k mod 2 =? 0) even = true).
  { intros even. rewrite at_parity_nth. split; intros [k [Hk Hp]]; exists k.
    - split; [now apply index_of_NoDup | exact Hp].
    - split; [now apply index_of_nth | exact Hp]. }
  unfold dir_in, direction_of_index.
  destruct d; cbn [candidates_for]; rewrite Hpar; split.
  - intros [k [-> Hp]]. cbn [option_map].
    destruct (k mod 2 =? 0); [reflexivity | discriminate].
  - destruct (index_of a anchors) as [k|]; [|discriminate]. cbn [option_map].
    intros H. exists k. split; [reflexivity|].
    destruct (k mod 2 =? 0); [reflexivity | discriminate].
  - intros [k [-> Hp]]. cbn [option_map].
    destruct (k mod 2 =? 0); [discriminate | reflexivity].
  - destruct (index_of a anchors) as [k|]; [|discriminate]. cbn [option_map].
    intros H. exists k. split; [reflexivity|].
    destruct (k mod 2 =? 0); [discriminate | reflexivity].
Qed.

(** [get_random_chunk_for_direction] returns an anchor of the direction
    asked for whenever there is one, and raises otherwise. *)
Lemma get_random_chunk_some (password a0 : str) (d : direction) (g : rng) :
  dir_in (get_password_tokens password) a0 = Some d ->
  exists a,
    get_random_chunk_for_direction password d g
      = Ret a (mkRng (source g) (S (cursor g))) /\
    dir_in (get_password_tokens password) a = Some d.
Proof.
  intros H0. apply candidates_for_dir in H0.
  unfold get_random_chunk_for_direction.
  destruct (candidates_for (get_password_tokens password) d) as [|c cs] eqn:E;
    [destruct H0|].
  destruct (choice_nonempty _ (c :: cs) g) as [a [Ha Hin]]; [discriminate|].
  exists a. split; [exact Ha|]. apply candidates_for_dir. now rewrite E.
Qed.

Lemma get_random_chunk_ret (password a : str) (d : direction) (g g' : rng) :
  get_random_chunk_for_direction password d g = Ret a g' ->
  dir_in (get_password_tokens password) a = Some d /\
  g' = mkRng (source g) (S (cursor g)).
Proof.
  unfold get_random_chunk_for_direction.
  destruct (candidates_for (get_password_tokens password) d) as [|c cs] eqn:E;
    [discriminate|].
  intros H. apply choice_ret in H. destruct H as [Hin ->].
  split; [|reflexivity]. apply candidates_for_dir. now rewrite E.
Qed.

Lemma get_random_chunk_none (password : str) (d : direction) (g : rng) :
  candidates_for (get_password_tokens password) d = [] ->
  get_random_chunk_for_direction password d g = Exc ValueError_no_chunks.
Proof.
  unfold get_random_chunk_for_direction. now intros ->.
Qed.

Lemma In_dir_in (anchors : list str) (a : str) :
  In a anchors -> exists d, dir_in anchors a = Some d.
Proof.
  intros H. apply index_of_In in H. destruct H as [i Hi].
  unfold dir_in. rewrite Hi. now eexists.
Qed.

(** The outcome of [encode_chunk] for a password with a valid anchor. *)
Lemma encode_chunk_follows (password m : str) (g : rng) :
  get_password_tokens password <> [] ->
  follows_protocol password m g
    (encode_chunk password (get_password_tokens password) m g).
Proof.
  intros Hne. unfold follows_protocol, encode_chunk.
  set (anchors := get_password_tokens password) in *.
  rewrite (dir_in_mem anchors m), (dir_in_mem anchors (rev m)).
  destruct (dir_in anchors m) as [d|] eqn:Hm.
  - (* case 1 *)
    unfold bind at 1. rewrite get_direction_dir_in. fold anchors.
    rewrite Hm. cbn [lift].
    destruct (get_random_chunk_some password _ _ g Hm) as [a [Ha Hd]].
    destruct d; rewrite (bind_ret_eq _ _ _ _ _ _ _ Ha); unfold ret;
      (split; [now right | exists a; now repeat split]).
  - destruct (dir_in anchors (rev m)) as [d'|] eqn:Hr.
    + (* case 2 *)
      destruct (candidates_for anchors after) as [|c cs] eqn:Hc.
      * rewrite (bind_exc_eq _ _ _ _ _ _ (get_random_chunk_none password after g Hc)).
        repeat split; congruence.
      * assert (Hc0 : dir_in anchors c = Some after)
          by (apply candidates_for_dir; fold anchors; rewrite Hc; now left).
        destruct (get_random_chunk_some password _ _ g Hc0) as [a [Ha Hd]].
        rewrite (bind_ret_eq _ _ _ _ _ _ _ Ha).
        destruct (str_eqb a (rev m)) eqn:E; cbn [negb].
        -- apply str_eqb_eq in E.
           assert (Hb0 : exists b0, dir_in anchors b0 = Some before).
           { destruct anchors as [|b0 rest] eqn:Ea; [congruence|].
             exists b0. unfold dir_in. simpl. now rewrite str_eqb_refl. }
           destruct Hb0 as [b0 Hb0].
           destruct (get_random_chunk_some password _ _
                       (mkRng (source g) (S (cursor g))) Hb0) as [b [Hb Hdb]].
           rewrite (bind_ret_eq _ _ _ _ _ _ _ Hb). unfold ret.
           split; [now left|]. eexists a, _. split; [exact Ha|].
           split; [exact Hd|]. right. split; [exact E|].
           exists b. now repeat split.
        -- apply str_eqb_neq in E. unfold ret.
           split; [now left|]. eexists a, _. split; [exact Ha|].
           split; [exact Hd|]. left. now repeat split.
    + (* case 3 *)
      destruct (choice_nonempty _ _ g Hne) as [a [Ha Hin]].
      rewrite (bind_ret_eq _ _ _ _ _ _ _ Ha).
      destruct (In_dir_in _ _ Hin) as [d Hd].
      unfold bind. rewrite get_direction_dir_in. fold anchors.
      rewrite Hd. cbn [lift].
      destruct d; unfold ret; (split; [now left|]); exists a;
        (split; [exact Ha|]); [left | right]; now split.
Qed.



(** ** The grid allocator *)

Lemma lines_loop_closed (n : nat) (w t : Z) :
  (1 <= w)%Z -> (1 <= t)%Z ->
  Z.of_nat n = (t / w + (if (t mod w =? 0)%Z then 0 else 1))%Z ->
  lines_loop n w t = grid_spec w t.
Proof.
  intros Hw. revert t. induction n as [|n IH]; intros t Ht Hn.
  - exfalso.
    assert (0 <= t / w)%Z by (apply Z.div_pos; lia).
    destruct (t mod w =? 0)%Z eqn:E; [|lia].
    apply Z.eqb_eq in E.
    assert (t = w * (t / w))%Z by (rewrite (Z.div_mod t w) at 1; lia).
    nia.
  - cbn [lines_loop]. unfold grid_spec.
    destruct (t >? w)%Z eqn:Hgt.
    + apply Z.gtb_lt in Hgt.
      assert (Hdiv : ((t - w) / w = t / w - 1)%Z).
      { replace (t - w)%Z with (t + (-1) * w)%Z by lia.
        rewrite Z.div_add by lia. lia. }
      assert (Hmod : ((t - w) mod w = t mod w)%Z).
      { replace (t - w)%Z with (t + (-1) * w)%Z by lia.
        apply Z.mod_add. lia. }
      assert (Hq : (1 <= t / w)%Z).
      { apply Z.div_le_lower_bound; lia. }
      rewrite IH; [| lia | rewrite Hdiv, Hmod; lia].
      unfold grid_spec. rewrite Hdiv, Hmod.
      replace (Z.to_nat (t / w)) with (S (Z.to_nat (t / w - 1))) by lia.
      reflexivity.
    + assert (Hle : (t <= w)%Z)
        by (rewrite Z.gtb_ltb in Hgt; apply Z.ltb_ge in Hgt; lia).
      destruct (Z.eq_dec t w) as [->|Hne].
      * rewrite Z.div_same, Z.mod_same in * by lia.
        cbn [Z.eqb] in *. destruct n; [|lia]. reflexivity.
      * rewrite Z.div_small, Z.mod_small in * by lia.
        replace (t =? 0)%Z with false in * by (symmetry; apply Z.eqb_neq; lia).
        destruct n; [|lia]. reflexivity.
Qed.

Lemma setup_lines_closed (w c : Z) :
  (1 <= w)%Z -> (1 <= c)%Z -> setup_lines w c = Ok (grid_spec w c).
Proof.
  intros Hw Hc. unfold setup_lines.
  replace (w =? 0)%Z with false by (symmetry; apply Z.eqb_neq; lia).
  rewrite Z.quot_div_nonneg by lia.
  f_equal. apply lines_loop_closed; try assumption.
  assert (0 <= c / w)%Z by (apply Z.div_pos; lia).
  destruct (c mod w =? 0)%Z; cbn [negb]; lia.
Qed.




(** ** The decoder as a scan *)

Lemma decode_token_event (valid line : list str) (i : nat) (token : str)
  (st : list str * bool) :
  nth_error line i = Some token ->
  decode_token valid line i token st =
  Ok (apply_event st
        (token_event valid
           (if 0 <? i then nth (i - 1) line [] else [])
           token
           (nth (i + 1) line []))).
Proof.
  intros Hi. unfold decode_token, token_event.
  rewrite dir_in_mem. unfold dir_in.
  destruct (index_of token valid) as [k|] eqn:Ek; cbn [option_map]; [|reflexivity].
  cbn [rbind].
  assert (Hlt : i < length line) by (apply nth_error_Some; congruence).
  assert (Hprev : (if 0 <? i then list_get line (i - 1) else Ok [])
                  = Ok (if 0 <? i then nth (i - 1) line [] else [])).
  { destruct (0 <? i) eqn:E; [|reflexivity].
    destruct (list_get_lt _ line (i - 1)) as [a [Ha Hn]]; [lia|].
    rewrite Ha. f_equal. symmetry. now apply nth_error_nth. }
  assert (Hnext : (if i + 1 <? length line then list_get line (i + 1) else Ok [])
                  = Ok (nth (i + 1) line [])).
  { destruct (i + 1 <? length line) eqn:E.
    - apply Nat.ltb_lt in E.
      destruct (list_get_lt _ line (i + 1)) as [a [Ha Hn]]; [lia|].
      rewrite Ha. f_equal. symmetry. now apply nth_error_nth.
    - apply Nat.ltb_ge in E. f_equal. symmetry. apply nth_overflow. lia. }
  rewrite Hprev, Hnext. cbn [rbind].
  destruct st as [res dl].
  destruct (direction_of_index k); cbn [fst snd apply_event].
  - destruct (str_eqb _ []); [reflexivity|].
    destruct (negb _); reflexivity.
  - destruct (str_eqb _ []); [reflexivity|].
    destruct (negb _); reflexivity.
Qed.

Lemma decode_line_scan (valid pre rest : list str) (st : list str * bool) :
  decode_line valid (pre ++ rest) (length pre) rest st =
  Ok (fold_left apply_event (scan valid (last pre []) rest []) st).
Proof.
  revert pre st. induction rest as [|token rest IH]; intros pre st.
  - reflexivity.
  - cbn [decode_line scan fold_left].
    rewrite decode_token_event
      by (rewrite nth_error_app2, Nat.sub_diag by lia; reflexivity).
    cbn [rbind].
    replace (pre ++ token :: rest) with ((pre ++ [token]) ++ rest)
      by (rewrite <- app_assoc; reflexivity).
    replace (S (length pre)) with (length (pre ++ [token]))
      by (rewrite length_app; simpl; lia).
    rewrite IH. rewrite last_last. f_equal. f_equal. f_equal.
    replace (nth (length pre + 1) ((pre ++ [token]) ++ rest) [])
      with (hd [] rest)
      by (rewrite app_nth2 by (rewrite length_app; simpl; lia);
          rewrite length_app; simpl;
          replace (length pre + 1 - (length pre + 1)) with 0 by lia;
          now destruct rest).
    f_equal.
    destruct pre as [|x pre'] using rev_ind; [reflexivity|].
    rewrite last_last.
    replace (0 <? length (pre' ++ [x])) with true
      by (symmetry; apply Nat.ltb_lt; rewrite length_app; simpl; lia).
    rewrite <- !app_assoc, app_nth2 by (rewrite length_app; simpl; lia).
    rewrite length_app. simpl.
    now replace (length pre' + 1 - 1 - length pre') with 0 by lia.
Qed.

Lemma fold_apply_event (evs : list event) (st : list str * bool) :
  fold_left apply_event evs st =
  (fst st ++ emitted evs, snd st || has_trim evs).
Proof.
  revert st. induction evs as [|ev evs IH]; intros [res dl]; cbn [fold_left].
  - cbn [emitted has_trim fst snd]. now rewrite app_nil_r, orb_false_r.
  - rewrite IH. destruct ev; cbn [apply_event emitted has_trim fst snd].
    + now rewrite <- app_assoc.
    + now rewrite orb_true_r.
    + reflexivity.
Qed.

Lemma emitted_app (e1 e2 : list event) :
  emitted (e1 ++ e2) = emitted e1 ++ emitted e2.
Proof.
  induction e1 as [|[t| |] e1 IH]; cbn [app emitted]; now rewrite ?IH.
Qed.

Lemma has_trim_app (e1 e2 : list event) :
  has_trim (e1 ++ e2) = has_trim e1 || has_trim e2.
Proof.
  induction e1 as [|[t| |] e1 IH]; cbn [app has_trim orb]; now rewrite ?IH.
Qed.

Lemma decode_lines_events (valid : list str) (lines : list (list str))
  (st : list str * bool) :
  decode_lines valid lines st =
  Ok (fst st ++ emitted (grid_events valid lines),
      snd st || has_trim (grid_events valid lines)).
Proof.
  revert st. induction lines as [|line lines IH]; intros st.
  - cbn. rewrite app_nil_r, orb_false_r. now destruct st.
  - cbn [decode_lines].
    pose proof (decode_line_scan valid [] line st) as Hl.
    cbn [app length] in Hl. rewrite Hl.
    cbn [rbind last]. rewrite IH, fold_apply_event. cbn [fst snd].
    unfold grid_events. cbn [flat_map].
    now rewrite emitted_app, has_trim_app, app_assoc, orb_assoc.
Qed.

(** The decoder returns the concatenation of the neighbours its events
    emit, without its last character when some event sets the trim flag. *)
Lemma decode_events (lines : list (list str)) (password : str) :
  decode lines password =
  let evs := grid_events (get_password_tokens password) lines in
  Ok (if has_trim evs then drop_last (join (emitted evs))
      else join (emitted evs)).
Proof.
  unfold decode. rewrite decode_lines_events. reflexivity.
Qed.

Lemma scan_no_anchor (valid : list str) (prev : str) (rest : list str)
  (next : str) :
  (forall tok, In tok rest -> ~ In tok valid) ->
  emitted (scan valid prev rest next) = [] /\
  has_trim (scan valid prev rest next) = false.
Proof.
  revert prev. induction rest as [|tok rest IH]; intros prev H; [now split|].
  cbn [scan]. unfold token_event.
  replace (dir_in valid tok) with (@None direction)
    by (symmetry; apply dir_in_None; apply H; now left).
  cbn [emitted has_trim]. apply IH. intros t Ht. apply H. now right.
Qed.

(** C8. The decoder is total: for every grid of token strings, rows of any
    lengths and tokens of any length, and every password it returns a
    string and raises nothing.  On a grid none of whose tokens is a valid
    anchor of the password it returns the empty string. *)
Theorem decode_total :
  (forall lines password, exists s, decode lines password = Ok s) /\
  (forall lines password,
     (forall line tok, In line lines -> In tok line ->
                       ~ In tok (get_password_tokens password)) ->
     decode lines password = Ok []).
Proof.
  split.
  - intros lines password. rewrite decode_events. eexists. reflexivity.
  - intros lines password H. rewrite decode_events.
    set (valid := get_password_tokens password) in *.
    assert (Hev : emitted (grid_events valid lines) = [] /\
                  has_trim (grid_events valid lines) = false).
    { unfold grid_events. induction lines as [|line lines IH]; [now split|].
      cbn [flat_map]. rewrite emitted_app, has_trim_app.
      destruct (@scan_no_anchor valid [] line []) as [He Ht].
      - intros tok Htok. apply (H line tok); [now left | exact Htok].
      - destruct IH as [He' Ht'].
        + intros l t Hl Ht0. apply (H l t); [now right | exact Ht0].
        + rewrite He, Ht, He', Ht'. now split. }
    destruct Hev as [He Ht]. cbv zeta. rewrite He, Ht. reflexivity.
Qed.

Lemma decode_total_witness :
  decode [[tk "zz"; tk "hi"]; [tk "qq"]] (tk "hello") = Ok [].
Proof.
  apply (proj2 decode_total).
  intros line tok Hl Ht.
  assert (Hm : mem tok (get_password_tokens (tk "hello")) = false).
  { destruct Hl as [<-|[<-|[]]].
    - destruct Ht as [<-|[<-|[]]]; reflexivity.
    - destruct Ht as [<-|[]]; reflexivity. }
  now apply mem_not_In.
Defined.

(** ** Failures of the chunk encoder *)

Lemma pad_text_ret (text : str) (g : rng) :
  exists g1, pad_text text g = Ret (padded_text text g) g1 /\
             ((needs_padding text = false /\ padded_text text g = text /\ g1 = g) \/
              (needs_padding text = true /\
               exists ch, In ch charset /\ padded_text text g = text ++ [ch])).
Proof.
  unfold padded_text, pad_text.
  destruct (needs_padding text).
  - destruct (choice_nonempty _ charset g) as [ch [Hch Hin]]; [discriminate|].
    rewrite (bind_ret_eq _ _ _ _ _ _ _ Hch). unfold ret. eexists. split; [reflexivity|].
    right. split; [reflexivity|]. now exists ch.
  - unfold ret. exists g. split; [reflexivity|]. left. now repeat split.
Qed.

Lemma range_step2_nonempty (n : nat) : n <> 0 -> range_step2 n <> [].
Proof.
  intros Hn. unfold range_step2.
  assert (H : 1 <= (n + 1) / 2) by (apply Nat.div_le_lower_bound; lia).
  destruct ((n + 1) / 2); [lia|]. discriminate.
Qed.

Lemma get_text_tokens_nonempty (text : str) :
  text <> [] -> get_text_tokens text <> [].
Proof.
  intros Ht. unfold get_text_tokens.
  assert (H : range_step2 (length text) <> []).
  { apply range_step2_nonempty. destruct text; [congruence | discriminate]. }
  destruct (range_step2 (length text)); [congruence | discriminate].
Qed.

Lemma padded_text_nonempty (text : str) (g : rng) :
  text <> [] -> padded_text text g <> [].
Proof.
  intros Ht. destruct (pad_text_ret text g) as [g1 [_ [[_ [-> _]]|[_ [ch [_ ->]]]]]].
  - exact Ht.
  - destruct text; discriminate.
Qed.

Lemma encode_chunk_no_anchor (password m : str) (g : rng) :
  get_password_tokens password = [] ->
  encode_chunk password (get_password_tokens password) m g
  = Exc IndexError_empty_choice.
Proof.
  intros H. unfold encode_chunk. rewrite H. reflexivity.
Qed.

Lemma encode_chunk_outcome (password m : str) (g : rng) :
  get_password_tokens password <> [] ->
  (exists chunk g',
     encode_chunk password (get_password_tokens password) m g = Ret chunk g') \/
  encode_chunk password (get_password_tokens password) m g
  = Exc ValueError_no_chunks.
Proof.
  intros Hne. pose proof (encode_chunk_follows password m g Hne) as H.
  unfold follows_protocol in H.
  destruct (encode_chunk password (get_password_tokens password) m g)
    as [chunk g'|e|].
  - left. now exists chunk, g'.
  - right. destruct H as [-> _]. reflexivity.
  - destruct H.
Qed.

Lemma encode_chunk_no_after (password m : str) (g : rng) :
  let anchors := get_password_tokens password in
  dir_in anchors m = None ->
  dir_in anchors (rev m) <> None ->
  candidates_for anchors after = [] ->
  encode_chunk password anchors m g = Exc ValueError_no_chunks.
Proof.
  intros anchors Hm Hr Hc. unfold encode_chunk.
  rewrite (dir_in_mem anchors m), (dir_in_mem anchors (rev m)), Hm.
  destruct (dir_in anchors (rev m)); [|congruence].
  apply bind_exc_eq. now apply get_random_chunk_none.
Qed.

Lemma encode_chunks_no_after (password m : str) (tokens : list str) (g : rng) :
  let anchors := get_password_tokens password in
  In m tokens ->
  dir_in anchors m = None ->
  dir_in anchors (rev m) <> None ->
  candidates_for anchors after = [] ->
  encode_chunks password anchors tokens g = Exc ValueError_no_chunks.
Proof.
  intros anchors Hin Hm Hr Hc.
  assert (Hne : anchors <> []).
  { intros E. apply Hr. rewrite E. reflexivity. }
  revert g. induction tokens as [|t tokens IH]; intros g; [destruct Hin|].
  cbn [encode_chunks].
  destruct (encode_chunk_outcome password t g Hne) as [[chunk [g' Hc1]]|He].
  - fold anchors in Hc1. rewrite (bind_ret_eq _ _ _ _ _ _ _ Hc1).
    destruct Hin as [->|Hin].
    + pose proof (encode_chunk_no_after password m g Hm Hr Hc) as Hx.
      fold anchors in Hx. congruence.
    + apply bind_exc_eq. now apply IH.
  - apply bind_exc_eq. exact He.
Qed.

(** The chunk loop raises before the grid is built. *)
Lemma encode_raises_no_anchor (fuel : nat) (text password : str) (w c : Z) (g : rng) :
  let anchors := get_password_tokens password in
  let message_tokens := get_text_tokens (padded_text text g) in
  text <> [] ->
  anchors = [] \/
  (exists m, In m message_tokens /\
             dir_in anchors m = None /\
             dir_in anchors (rev m) <> None /\
             candidates_for anchors after = []) ->
  exists e, encode fuel text password w c g = Exc e /\ NoAnchorAvailable e.
Proof.
  intros anchors message_tokens Ht H.
  destruct (pad_text_ret text g) as [g1 [Hpad _]].
  assert (Hchunks : exists e,
            encode_chunks password anchors message_tokens g1 = Exc e /\
            NoAnchorAvailable e).
  { destruct H as [H|[m [Hin [Hm [Hr Hc]]]]].
    - exists IndexError_empty_choice. split; [|now right].
      assert (Hne : message_tokens <> [])
        by (apply get_text_tokens_nonempty; now apply padded_text_nonempty).
      destruct message_tokens as [|t ts]; [congruence|].
      cbn [encode_chunks]. apply bind_exc_eq.
      now apply encode_chunk_no_anchor.
    - exists ValueError_no_chunks. split; [|now left].
      now apply encode_chunks_no_after with m. }
  destruct Hchunks as [e [He Hk]]. exists e. split; [|exact Hk].
  unfold encode. apply bind_exc_eq.
  unfold encode_placed. rewrite (bind_ret_eq _ _ _ _ _ _ _ Hpad).
  apply bind_exc_eq. exact He.
Qed.

(** C7. For every text with at least one message token: when the password
    has no valid anchor at all, or when some message token takes the
    branch "its reversal is an anchor" while the password has no anchor of
    direction after, the encoder raises NoAnchorAvailable and returns no
    grid, whatever the grid dimensions and the random draws. *)
Theorem encode_no_anchor (fuel : nat) (text password : str) (w c : Z) (g : rng) :
  let anchors := get_password_tokens password in
  let message_tokens := get_text_tokens (padded_text text g) in
  text <> [] ->
  anchors = [] \/
  (exists m, In m message_tokens /\
             dir_in anchors m = None /\
             dir_in anchors (rev m) <> None /\
             candidates_for anchors after = []) ->
  exists e, encode fuel text password w c g = Exc e /\ NoAnchorAvailable e.
Proof.
  exact (encode_raises_no_anchor fuel text password w c g).
Qed.

Lemma encode_no_anchor_witness :
  exists e, encode 1 (tk "ba") (tk "ab") 4 8 (rng_const 0) = Exc e /\
            NoAnchorAvailable e.
Proof.
  apply (@encode_no_anchor 1 (tk "ba") (tk "ab") 4 8 (rng_const 0)).
  - discriminate.
  - right. exists (tk "ba"). split; [now left|].
    split; [reflexivity|]. split; [discriminate | reflexivity].
Defined.

(** ** List updates *)

Lemma list_set_ok (A : Type) (l : list A) (i : nat) (v : A) (l' : list A) :
  list_set l i v = Ok l' ->
  i < length l /\ l' = firstn i l ++ v :: skipn (S i) l.
Proof.
  revert i l'. induction l as [|a l IH]; intros i l'; [destruct i; discriminate|].
  destruct i as [|i]; cbn [list_set].
  - intros H. inversion H. split; [simpl; lia | reflexivity].
  - intros H. apply rbind_ok in H. destruct H as [r [Hr H]]. inversion H.
    apply IH in Hr. destruct Hr as [Hlt ->].
    split; [simpl; lia | reflexivity].
Qed.

Lemma list_set_lt (A : Type) (l : list A) (i : nat) (v : A) :
  i < length l -> list_set l i v = Ok (firstn i l ++ v :: skipn (S i) l).
Proof.
  revert i. induction l as [|a l IH]; intros i Hi; [simpl in Hi; lia|].
  destruct i as [|i]; cbn [list_set]; [reflexivity|].
  rewrite IH by (simpl in Hi; lia). reflexivity.
Qed.

Lemma list_set_length (A : Type) (l : list A) (i : nat) (v : A) (l' : list A) :
  list_set l i v = Ok l' -> length l' = length l.
Proof.
  intros H. apply list_set_ok in H. destruct H as [Hlt ->].
  rewrite length_app, length_firstn. cbn [length]. rewrite length_skipn. lia.
Qed.

Lemma list_set_nth (A : Type) (l : list A) (i : nat) (v : A) (l' : list A) (q : nat) :
  list_set l i v = Ok l' ->
  nth_error l' q = if q =? i then Some v else nth_error l q.
Proof.
  intros H. apply list_set_ok in H. destruct H as [Hlt ->].
  destruct (q =? i) eqn:E.
  - apply Nat.eqb_eq in E. subst q.
    rewrite nth_error_app2 by (rewrite length_firstn; lia).
    rewrite length_firstn. now replace (i - Nat.min i (length l)) with 0 by lia.
  - apply Nat.eqb_neq in E.
    destruct (Nat.lt_ge_cases q i) as [Hq|Hq].
    + rewrite nth_error_app1 by (rewrite length_firstn; lia).
      rewrite nth_error_firstn.
      now replace (q <? i) with true by (symmetry; apply Nat.ltb_lt; lia).
    + rewrite nth_error_app2 by (rewrite length_firstn; lia).
      rewrite length_firstn.
      replace (q - Nat.min i (length l)) with (S (q - S i)) by lia.
      cbn [nth_error]. rewrite nth_error_skipn. f_equal. lia.
Qed.

Lemma in_firstn (A : Type) (n : nat) (l : list A) (x : A) :
  In x (firstn n l) -> In x l.
Proof.
  intros H. rewrite <- (firstn_skipn n l). apply in_or_app. now left.
Qed.

Lemma in_skipn (A : Type) (n : nat) (l : list A) (x : A) :
  In x (skipn n l) -> In x l.
Proof.
  intros H. rewrite <- (firstn_skipn n l). apply in_or_app. now right.
Qed.

Lemma list_set_In (A : Type) (l : list A) (i : nat) (v : A) (l' : list A) (x : A) :
  list_set l i v = Ok l' -> In x l' -> x = v \/ In x l.
Proof.
  intros H Hin. apply list_set_ok in H. destruct H as [Hlt ->].
  apply in_app_or in Hin. destruct Hin as [Hin|[Hin|Hin]].
  - right. now apply in_firstn with i.
  - now left.
  - right. now apply in_skipn with (S i).
Qed.

(** ** The shuffle *)

Lemma swap_ok (A : Type) (x : list A) (i j : nat) :
  i < length x -> j < length x ->
  exists x', swap x i j = Ok x' /\ length x' = length x /\
             forall y, In y x' -> In y x.
Proof.
  intros Hi Hj. unfold swap.
  destruct (list_get_lt _ x i Hi) as [a [Ha Hna]].
  destruct (list_get_lt _ x j Hj) as [b [Hb Hnb]].
  rewrite Ha, Hb. cbn [rbind].
  rewrite (list_set_lt _ x i b Hi). cbn [rbind].
  set (x1 := firstn i x ++ b :: skipn (S i) x).
  assert (H1 : list_set x i b = Ok x1) by now apply list_set_lt.
  assert (Hl1 : length x1 = length x) by now apply list_set_length in H1.
  assert (Hj1 : j < length x1) by lia.
  exists (firstn j x1 ++ a :: skipn (S j) x1).
  assert (H2 := list_set_lt _ x1 j a Hj1).
  split; [exact H2|]. split.
  - apply list_set_length in H2. lia.
  - intros y Hy. destruct (list_set_In _ _ _ _ _ _ H2 Hy) as [->|Hy1].
    + eapply nth_error_In; eauto.
    + destruct (list_set_In _ _ _ _ _ _ H1 Hy1) as [->|Hy2]; [|exact Hy2].
      eapply nth_error_In; eauto.
Qed.

Lemma shuffle_loop_total (A : Type) (i : nat) (x : list A) (g : rng) :
  (i < length x \/ i = 0) ->
  exists x' g', shuffle_loop i x g = Ret x' g' /\
                forall y, In y x' -> In y x.
Proof.
  revert x g. induction i as [|i IH]; intros x g Hi.
  - exists x, g. split; [reflexivity | auto].
  - cbn [shuffle_loop]. unfold bind at 1, draw.
    assert (Hlt : S i < length x) by lia.
    destruct (swap_ok _ x (S i) (source g (cursor g) mod S (S i)) Hlt)
      as [x1 [Hs [Hl Hin]]].
    { pose proof (Nat.mod_upper_bound (source g (cursor g)) (S (S i))). lia. }
    unfold bind at 1. rewrite Hs. cbn [lift].
    destruct (IH x1 (mkRng (source g) (S (cursor g)))) as [x' [g' [Hx' Hin']]];
      [lia|].
    exists x', g'. split; [exact Hx' | auto].
Qed.

Lemma shuffle_total (A : Type) (x : list A) (g : rng) :
  exists x' g', shuffle x g = Ret x' g' /\ forall y, In y x' -> In y x.
Proof.
  unfold shuffle. apply shuffle_loop_total.
  destruct x; simpl; [now right | left; lia].
Qed.

Lemma in_range (a b x : nat) : In x (range a b) <-> a <= x < b.
Proof.
  unfold range. rewrite in_seq. lia.
Qed.

(** ** Free runs and pasted chunks *)

Lemma all_none_true (flat : list slot) (pos n : nat) :
  all_none flat pos n = Ok true <-> free_run flat pos n.
Proof.
  revert pos. induction n as [|n IH]; intros pos; cbn [all_none].
  - split; [intros _ k Hk; lia | reflexivity].
  - unfold list_get. split.
    + destruct (nth_error flat pos) as [[t|]|] eqn:E; cbn [rbind]; try discriminate.
      intros H k Hk. destruct k as [|k].
      * now rewrite Nat.add_0_r.
      * apply IH in H. replace (pos + S k) with (S pos + k) by lia.
        apply H. lia.
    + intros H. rewrite <- (Nat.add_0_r pos) at 1. rewrite (H 0) by lia.
      cbn [rbind]. apply IH. intros k Hk.
      replace (S pos + k) with (pos + S k) by lia. apply H. lia.
Qed.

Lemma all_none_total (flat : list slot) (pos n : nat) :
  pos + n <= length flat -> exists b, all_none flat pos n = Ok b.
Proof.
  revert pos. induction n as [|n IH]; intros pos H; cbn [all_none].
  - now exists true.
  - destruct (list_get_lt _ flat pos) as [v [Hv _]]; [lia|].
    rewrite Hv. cbn [rbind]. destruct v; [now exists false|].
    apply IH. lia.
Qed.

Lemma fits_true (w : nat) (flat : list slot) (pos len : nat) :
  fits w flat pos len = Ok true <->
  w <> 0 /\ pos mod w + len <= w /\ free_run flat pos len.
Proof.
  unfold fits. destruct (w =? 0) eqn:Ew.
  - apply Nat.eqb_eq in Ew. split; [discriminate | intros [H _]; congruence].
  - apply Nat.eqb_neq in Ew.
    destruct (pos mod w + len <=? w) eqn:El.
    + apply Nat.leb_le in El. rewrite all_none_true. tauto.
    + apply Nat.leb_gt in El. split; [discriminate | intros [_ [H _]]; lia].
Qed.

Lemma fits_total (w : nat) (flat : list slot) (pos len : nat) :
  w <> 0 -> pos + len <= length flat ->
  exists b, fits w flat pos len = Ok b.
Proof.
  intros Hw H. unfold fits.
  replace (w =? 0) with false by (symmetry; now apply Nat.eqb_neq).
  destruct (pos mod w + len <=? w); [now apply all_none_total|].
  now exists false.
Qed.

Lemma paste_nil (flat : list slot) (pos : nat) : paste flat pos [] = flat.
Proof.
  unfold paste. cbn [map length app]. rewrite Nat.add_0_r.
  apply firstn_skipn.
Qed.

Lemma paste_length (flat : list slot) (pos : nat) (chunk : list str) :
  pos + length chunk <= length flat ->
  length (paste flat pos chunk) = length flat.
Proof.
  intros H. unfold paste.
  rewrite !length_app, length_firstn, length_map, length_skipn. lia.
Qed.

Lemma paste_nth (flat : list slot) (pos : nat) (chunk : list str) (q : nat) :
  pos + length chunk <= length flat ->
  nth_error (paste flat pos chunk) q =
  if q <? pos then nth_error flat q
  else if q <? pos + length chunk
       then option_map Some (nth_error chunk (q - pos))
       else nth_error flat q.
Proof.
  intros H. unfold paste.
  destruct (q <? pos) eqn:E1.
  - apply Nat.ltb_lt in E1.
    rewrite nth_error_app1 by (rewrite length_firstn; lia).
    rewrite nth_error_firstn.
    now replace (q <? pos) with true by (symmetry; apply Nat.ltb_lt; lia).
  - apply Nat.ltb_ge in E1.
    rewrite nth_error_app2 by (rewrite length_firstn; lia).
    rewrite length_firstn.
    replace (q - Nat.min pos (length flat)) with (q - pos) by lia.
    destruct (q <? pos + length chunk) eqn:E2.
    + apply Nat.ltb_lt in E2.
      rewrite nth_error_app1 by (rewrite length_map; lia).
      apply nth_error_map.
    + apply Nat.ltb_ge in E2.
      rewrite nth_error_app2 by (rewrite length_map; lia).
      rewrite length_map, nth_error_skipn. f_equal. lia.
Qed.

Lemma free_run_bound (flat : list slot) (pos n : nat) :
  free_run flat pos n -> n <> 0 -> pos + n <= length flat.
Proof.
  intros H Hn.
  assert (Hk : nth_error flat (pos + (n - 1)) = Some None) by (apply H; lia).
  assert (pos + (n - 1) < length flat) by (apply nth_error_Some; congruence).
  lia.
Qed.

Lemma write_chunk_paste (chunk : list str) (flat : list slot) (pos : nat)
  (flat' : list slot) :
  write_chunk flat pos chunk = Ok flat' ->
  flat' = paste flat pos chunk /\ length flat' = length flat.
Proof.
  revert flat pos flat'. induction chunk as [|tok rest IH]; intros flat pos flat'.
  - cbn [write_chunk]. intros H. inversion H. now rewrite paste_nil.
  - cbn [write_chunk]. intros H. apply rbind_ok in H.
    destruct H as [l1 [H1 H2]].
    pose proof (list_set_length _ _ _ _ _ H1) as Hlen.
    apply list_set_ok in H1. destruct H1 as [Hlt ->].
    apply IH in H2. destruct H2 as [-> Hl2]. split; [|lia].
    unfold paste. cbn [map length].
    rewrite firstn_app, length_firstn.
    replace (S pos - Nat.min pos (length flat)) with 1 by lia.
    rewrite firstn_firstn. replace (Nat.min (S pos) pos) with pos by lia.
    cbn [firstn]. rewrite <- app_assoc. cbn [app]. f_equal. f_equal. f_equal.
    rewrite skipn_app, length_firstn.
    rewrite skipn_all2 by (rewrite length_firstn; lia).
    replace (S pos + length rest - Nat.min pos (length flat))
      with (S (length rest)) by lia.
    cbn [app]. rewrite skipn_cons, skipn_skipn. f_equal. lia.
Qed.

Lemma write_chunk_free (chunk : list str) (flat : list slot) (pos : nat) :
  free_run flat pos (length chunk) ->
  write_chunk flat pos chunk = Ok (paste flat pos chunk).
Proof.
  revert flat pos. induction chunk as [|tok rest IH]; intros flat pos Hf.
  - cbn [write_chunk]. now rewrite paste_nil.
  - assert (Hb : pos + length (tok :: rest) <= length flat)
      by (apply free_run_bound; [exact Hf | discriminate]).
    cbn [length] in Hb.
    destruct (write_chunk flat pos (tok :: rest)) as [flat'|e] eqn:E.
    + apply write_chunk_paste in E. now destruct E as [-> _].
    + exfalso. cbn [write_chunk] in E.
      rewrite list_set_lt in E by lia. cbn [rbind] in E.
      rewrite IH in E; [discriminate|].
      intros k Hk.
      rewrite nth_error_app2 by (rewrite length_firstn; lia).
      rewrite length_firstn.
      replace (S pos + k - Nat.min pos (length flat)) with (S k) by lia.
      cbn [nth_error]. rewrite nth_error_skipn.
      replace (S pos + k) with (pos + S k) by lia. apply Hf. simpl. lia.
Qed.

Lemma free_run_paste (flat : list slot) (p : nat) (chunk : list str) (q n : nat) :
  p + length chunk <= length flat -> p + length chunk <= q ->
  (free_run (paste flat p chunk) q n <-> free_run flat q n).
Proof.
  intros Hb Hq. unfold free_run.
  split; intros H k Hk; specialize (H k Hk); rewrite paste_nth in * by lia.
  - replace (q + k <? p) with false in H by (symmetry; apply Nat.ltb_ge; lia).
    now replace (q + k <? p + length chunk) with false in H
      by (symmetry; apply Nat.ltb_ge; lia).
  - replace (q + k <? p) with false by (symmetry; apply Nat.ltb_ge; lia).
    now replace (q + k <? p + length chunk) with false
      by (symmetry; apply Nat.ltb_ge; lia).
Qed.

Lemma placed_paste (w : nat) (flat : list slot) (p : nat) (chunk : list str)
  (lo : nat) (chunks : list (list str)) (ps : list nat) :
  p + length chunk <= length flat -> p + length chunk <= lo ->
  (placed w (paste flat p chunk) lo chunks ps <-> placed w flat lo chunks ps).
Proof.
  intros Hb Hlo. split; intros H.
  - induction H as [lo|lo c cs q qs Hq Hrow Hfree Hrest IH]; constructor;
      try assumption.
    + apply (@free_run_paste flat p chunk q (length c)); [lia | lia | exact Hfree].
    + apply IH. lia.
  - induction H as [lo|lo c cs q qs Hq Hrow Hfree Hrest IH]; constructor;
      try assumption.
    + apply (@free_run_paste flat p chunk q (length c)); [lia | lia | exact Hfree].
    + apply IH. lia.
Qed.

Lemma collect_candidates_ok (w : nat) (flat : list slot) (len : nat)
  (positions cands : list nat) :
  collect_candidates w flat len positions = Ok cands ->
  forall p, In p cands -> In p positions /\ fits w flat p len = Ok true.
Proof.
  revert cands. induction positions as [|q rest IH]; intros cands H p Hp.
  - inversion H. subst. destruct Hp.
  - cbn [collect_candidates] in H. apply rbind_ok in H.
    destruct H as [b [Hb H]]. apply rbind_ok in H.
    destruct H as [cs [Hcs H]]. inversion H. subst cands.
    destruct b.
    + destruct Hp as [<-|Hp]; [split; [now left | exact Hb]|].
      destruct (IH cs Hcs p Hp). split; [now right | assumption].
    + destruct (IH cs Hcs p Hp). split; [now right | assumption].
Qed.

Lemma collect_candidates_total (w : nat) (flat : list slot) (len : nat)
  (positions : list nat) :
  w <> 0 -> (forall p, In p positions -> p + len <= length flat) ->
  exists cands, collect_candidates w flat len positions = Ok cands.
Proof.
  intros Hw. induction positions as [|q rest IH]; intros H.
  - now exists [].
  - cbn [collect_candidates].
    destruct (@fits_total w flat q len Hw) as [b Hb]; [apply H; now left|].
    rewrite Hb. cbn [rbind].
    destruct IH as [cs Hcs]; [intros p Hp; apply H; now right|].
    rewrite Hcs. cbn [rbind]. eexists. reflexivity.
Qed.

(** ** The spread attempt and the tight fit place chunks legally *)

Lemma shuffle_collect_ret (w : nat) (flat : list slot) (len a b : nat)
  (g g' : rng) (cands : list nat) :
  bind (shuffle (range a b))
       (fun positions => lift (collect_candidates w flat len positions)) g
  = Ret cands g' ->
  forall p, In p cands -> a <= p < b /\ fits w flat p len = Ok true.
Proof.
  intros H p Hp. apply bind_ret in H. destruct H as [positions [g1 [Hs Hc]]].
  apply lift_ret in Hc. destruct Hc as [Hc _].
  destruct (shuffle_total _ (range a b) g) as [x' [g2 [Hs' Hin]]].
  rewrite Hs in Hs'. inversion Hs'. subst x' g2.
  destruct (collect_candidates_ok _ _ _ _ _ Hc p Hp) as [Hpos Hfit].
  split; [|exact Hfit]. apply in_range. now apply Hin.
Qed.

Lemma try_spread_loop_placed (w T n : nat) (chunks : list (list str)) :
  forall i flat next g flat' g',
    try_spread_loop w T n i chunks flat next g = Ret (Some flat') g' ->
    exists ps,
      placed w flat next chunks ps /\
      flat' = paste_all flat ps chunks /\
      length flat' = length flat /\
      length ps = length chunks.
Proof.
  induction chunks as [|chunk rest IH]; intros i flat next g flat' g' H.
  - cbn [try_spread_loop] in H. inversion H. subst.
    exists []. repeat split. constructor.
  - cbn [try_spread_loop] in H.
    (* the candidates of the preferred window *)
    apply bind_ret in H. destruct H as [positions [g1 [Hs H]]].
    apply bind_ret in H. destruct H as [cands1 [g2 [Hc1 H]]].
    assert (Hstage1 : forall p, In p cands1 ->
              next <= p /\ fits w flat p (length chunk) = Ok true).
    { intros p Hp.
      assert (Hb : bind (shuffle (range (Nat.max next (i * T / n))
                                   ((i + 1) * T / n + 1 - length chunk)))
                     (fun positions =>
                        lift (collect_candidates w flat (length chunk) positions))
                     g = Ret cands1 g2)
        by (rewrite (bind_ret_eq _ _ _ _ _ _ _ Hs); exact Hc1).
      destruct (shuffle_collect_ret _ _ _ _ _ _ _ _ Hb p Hp) as [Hr Hf].
      split; [lia | exact Hf]. }
    (* the candidates after the widening *)
    apply bind_ret in H. destruct H as [cands [g3 [Hc2 H]]].
    assert (Hstage : forall p, In p cands ->
              next <= p /\ fits w flat p (length chunk) = Ok true).
    { destruct cands1 as [|c1 cs1].
      - intros p Hp.
        destruct (shuffle_collect_ret _ _ _ _ _ _ _ _ Hc2 p Hp) as [Hr Hf].
        split; [lia | exact Hf].
      - unfold ret in Hc2. inversion Hc2. subst. exact Hstage1. }
    destruct cands as [|chosen cs]; [discriminate|].
    destruct (Hstage chosen (or_introl eq_refl)) as [Hnext Hfit].
    apply fits_true in Hfit. destruct Hfit as [Hw [Hrow Hfree]].
    apply bind_ret in H. destruct H as [flat1 [g4 [Hw1 H]]].
    apply lift_ret in Hw1. destruct Hw1 as [Hw1 ->].
    apply write_chunk_paste in Hw1. destruct Hw1 as [-> Hlen1].
    apply IH in H. destruct H as [ps [Hpl [-> [Hlen Hps]]]].
    assert (Hb : length chunk <> 0 -> chosen + length chunk <= length flat)
      by (intros Hn; now apply free_run_bound).
    exists (chosen :: ps). split; [|split; [|split]].
    + constructor; try assumption.
      destruct (Nat.eq_dec (length chunk) 0) as [E|E].
      * destruct chunk; [|discriminate]. now rewrite paste_nil in Hpl.
      * apply (@placed_paste w flat chosen chunk); [auto | lia | exact Hpl].
    + reflexivity.
    + lia.
    + simpl. lia.
Qed.

Lemma scan_slot_ok (n w : nat) (flat : list slot) (pos len p : nat) :
  scan_slot n w flat pos len = Ok (Some p) ->
  pos <= p < pos + n /\ fits w flat p len = Ok true.
Proof.
  revert pos. induction n as [|n IH]; intros pos H; [discriminate|].
  cbn [scan_slot] in H. apply rbind_ok in H. destruct H as [b [Hb H]].
  destruct b.
  - inversion H. subst. split; [lia | exact Hb].
  - apply IH in H. destruct H as [Hr Hf]. split; [lia | exact Hf].
Qed.

Lemma tight_loop_placed (w T : nat) (chunks : list (list str)) :
  forall flat pos flat',
    tight_loop w T chunks flat pos = Ok flat' ->
    exists ps,
      placed w flat pos chunks ps /\
      flat' = paste_all flat ps chunks /\
      length flat' = length flat /\
      length ps = length chunks.
Proof.
  induction chunks as [|chunk rest IH]; intros flat pos flat' H.
  - inversion H. subst. exists []. repeat split. constructor.
  - cbn [tight_loop] in H. apply rbind_ok in H. destruct H as [r [Hr H]].
    destruct r as [p|]; [|discriminate].
    apply scan_slot_ok in Hr. destruct Hr as [Hp Hfit].
    apply fits_true in Hfit. destruct Hfit as [Hw [Hrow Hfree]].
    apply rbind_ok in H. destruct H as [flat1 [Hw1 H]].
    apply write_chunk_paste in Hw1. destruct Hw1 as [-> Hlen1].
    apply IH in H. destruct H as [ps [Hpl [-> [Hlen Hps]]]].
    assert (Hb : length chunk <> 0 -> p + length chunk <= length flat)
      by (intros Hn; now apply free_run_bound).
    exists (p :: ps). split; [|split; [|split]].
    + constructor; try assumption; [lia|].
      destruct (Nat.eq_dec (length chunk) 0) as [E|E].
      * destruct chunk; [|discriminate]. now rewrite paste_nil in Hpl.
      * apply (@placed_paste w flat p chunk); [auto | lia | exact Hpl].
    + reflexivity.
    + lia.
    + simpl. lia.
Qed.

(** ** Copying the flat list back into the rows *)

Lemma write_line_ok (n : nat) :
  forall (line flat : list slot) (j idx : nat) (line' : list slot) (idx' : nat),
    write_line line flat j n idx = Ok (line', idx') ->
    (n <> 0 -> j + n <= length line /\ idx + n <= length flat) /\
    idx' = idx + n /\
    line' = firstn j line ++ firstn n (skipn idx flat) ++ skipn (j + n) line.
Proof.
  induction n as [|n IH]; intros line flat j idx line' idx' H.
  - cbn [write_line] in H. inversion H. subst.
    split; [congruence|]. split; [lia|].
    cbn [firstn app]. rewrite Nat.add_0_r. symmetry. apply firstn_skipn.
  - cbn [write_line] in H. apply rbind_ok in H. destruct H as [v [Hv H]].
    apply rbind_ok in H. destruct H as [l1 [Hl1 H]].
    apply list_get_ok in Hv.
    assert (Hidx : idx < length flat) by (apply nth_error_Some; congruence).
    pose proof (list_set_length _ _ _ _ _ Hl1) as Hlen1.
    apply list_set_ok in Hl1. destruct Hl1 as [Hj ->].
    apply IH in H. destruct H as [Hb [-> ->]].
    split; [|split; [lia|]].
    + intros _. destruct n as [|n]; [lia|].
      destruct Hb as [Hb1 Hb2]; [discriminate|]. lia.
    + assert (Hlj : length (firstn j line) = j)
        by (rewrite length_firstn; lia).
      assert (E1 : firstn (S j) (firstn j line ++ v :: skipn (S j) line)
                   = firstn j line ++ [v]).
      { rewrite firstn_app, Hlj. replace (S j - j) with 1 by lia.
        rewrite firstn_all2 by lia. reflexivity. }
      assert (E2 : skipn (S j + n) (firstn j line ++ v :: skipn (S j) line)
                   = skipn (j + S n) line).
      { rewrite skipn_app, Hlj. rewrite skipn_all2 by lia.
        replace (S j + n - j) with (S n) by lia.
        cbn [app]. rewrite skipn_cons, skipn_skipn. f_equal. lia. }
      assert (E3 : firstn (S n) (skipn idx flat)
                   = v :: firstn n (skipn (S idx) flat)).
      { rewrite <- (firstn_skipn_middle _ _ Hv) at 1.
        rewrite skipn_app, length_firstn.
        rewrite skipn_all2 by (rewrite length_firstn; lia).
        replace (idx - Nat.min idx (length flat)) with 0 by lia.
        reflexivity. }
      rewrite E1, E2, E3, <- app_assoc. reflexivity.
Qed.

Lemma write_line_total (n : nat) :
  forall (line flat : list slot) (j idx : nat),
    j + n <= length line -> idx + n <= length flat ->
    exists line', write_line line flat j n idx = Ok (line', idx + n).
Proof.
  induction n as [|n IH]; intros line flat j idx Hj Hidx.
  - exists line. cbn [write_line]. now rewrite Nat.add_0_r.
  - cbn [write_line].
    destruct (list_get_lt _ flat idx) as [v [Hv _]]; [lia|].
    rewrite Hv. cbn [rbind]. rewrite list_set_lt by lia. cbn [rbind].
    destruct (IH (firstn j line ++ v :: skipn (S j) line) flat (S j) (S idx))
      as [line' Hl'].
    + rewrite length_app, length_firstn. cbn [length]. rewrite length_skipn. lia.
    + lia.
    + exists line'. rewrite Hl'. f_equal. f_equal. lia.
Qed.

Lemma rectangular_concat_length (w : nat) (lines : list (list slot)) :
  rectangular w lines -> length (concat lines) = length lines * w.
Proof.
  induction lines as [|row lines IH]; intros H; [reflexivity|].
  cbn [concat length]. rewrite length_app.
  rewrite IH by (intros r Hr; apply H; now right).
  rewrite (H row) by now left. lia.
Qed.

Lemma firstn_add (A : Type) (a b : nat) (l : list A) :
  firstn (a + b) l = firstn a l ++ firstn b (skipn a l).
Proof.
  revert l. induction a as [|a IH]; intros l; [reflexivity|].
  destruct l as [|x l]; cbn [Nat.add firstn skipn app].
  - now rewrite firstn_nil.
  - now rewrite IH.
Qed.

Lemma write_back_ok (lines : list (list slot)) :
  forall (flat : list slot) (w idx : nat) (lines' : list (list slot)),
    write_back lines flat w idx = Ok lines' ->
    (forall row, In row lines -> length row <= w) ->
    rectangular w lines /\
    concat lines' = firstn (length lines * w) (skipn idx flat) /\
    map (@length slot) lines' = map (@length slot) lines.
Proof.
  induction lines as [|row lines IH]; intros flat w idx lines' H Hle.
  - inversion H. subst. split; [intros r []|]. now split.
  - cbn [write_back] in H. apply rbind_ok in H. destruct H as [[row' idx'] [Hrow H]].
    apply rbind_ok in H. destruct H as [rest' [Hrest H]]. inversion H. subst lines'.
    cbn [fst snd] in *.
    apply write_line_ok in Hrow. destruct Hrow as [Hb [-> ->]].
    apply IH in Hrest; [|intros r Hr; apply Hle; now right].
    destruct Hrest as [Hrect [Hcat Hlen]].
    assert (Hrl : length row <= w) by (apply Hle; now left).
    assert (Hw : length row = w).
    { destruct (Nat.eq_dec w 0) as [->|Hw0]; [lia|].
      destruct (Hb Hw0). lia. }
    split; [|split].
    + intros r [<-|Hr]; [exact Hw | now apply Hrect].
    + cbn [concat length firstn app]. rewrite Hcat.
      rewrite (@skipn_all2 _ (0 + w) row) by lia. rewrite app_nil_r.
      cbn [Nat.mul]. rewrite firstn_add, skipn_skipn.
      f_equal. f_equal. f_equal. lia.
    + cbn [map firstn app]. rewrite Hlen. f_equal.
      rewrite (@skipn_all2 _ (0 + w) row) by lia. rewrite app_nil_r.
      destruct (Nat.eq_dec w 0) as [->|Hw0]; [now rewrite Hw|].
      destruct (Hb Hw0) as [_ Hb2].
      rewrite length_firstn, length_skipn. lia.
Qed.

Lemma write_back_total (lines : list (list slot)) :
  forall (flat : list slot) (w idx : nat),
    rectangular w lines -> idx + length lines * w <= length flat ->
    exists lines', write_back lines flat w idx = Ok lines'.
Proof.
  induction lines as [|row lines IH]; intros flat w idx Hrect Hb.
  - now exists [].
  - cbn [write_back]. cbn [length Nat.mul] in Hb.
    destruct (@write_line_total w row flat 0 idx) as [row' Hrow].
    + rewrite (Hrect row) by now left. lia.
    + lia.
    + rewrite Hrow. cbn [rbind snd fst].
      destruct (IH flat w (idx + w)) as [rest' Hrest].
      * intros r Hr. apply Hrect. now right.
      * lia.
      * rewrite Hrest. cbn [rbind]. eexists. reflexivity.
Qed.

Lemma grid_shaped_le (lines : list (list slot)) :
  grid_shaped lines ->
  forall row, In row lines -> length row <= length (hd [] lines).
Proof.
  intros Hs row Hin. apply In_nth_error in Hin. destruct Hin as [i Hi].
  specialize (Hs i row Hi). destruct (S i <? length lines); lia.
Qed.

Lemma rectangular_map_length (w : nat) (lines lines' : list (list slot)) :
  map (@length slot) lines' = map (@length slot) lines ->
  rectangular w lines -> rectangular w lines'.
Proof.
  intros Hm Hr row Hin. apply In_nth_error in Hin. destruct Hin as [i Hi].
  assert (Hl : nth_error (map (@length slot) lines') i = Some (length row))
    by now apply map_nth_error.
  rewrite Hm, nth_error_map in Hl.
  destruct (nth_error lines i) as [row0|] eqn:E; [|discriminate].
  inversion Hl. apply Hr. eapply nth_error_In; eauto.
Qed.

Lemma slot_at_concat (w : nat) (lines : list (list slot)) (r k : nat) :
  rectangular w lines -> k < w ->
  slot_at lines r k = nth_error (concat lines) (r * w + k).
Proof.
  intros Hrect Hk. revert r. induction lines as [|row lines IH]; intros r.
  - unfold slot_at. destruct r; cbn; now rewrite ?nth_error_nil.
  - assert (Hrow : length row = w) by (apply Hrect; now left).
    destruct r as [|r]; cbn [concat].
    + unfold slot_at. cbn [nth_error Nat.mul Nat.add].
      now rewrite nth_error_app1 by lia.
    + unfold slot_at in *. cbn [nth_error].
      rewrite IH by (intros r0 Hr0; apply Hrect; now right).
      rewrite nth_error_app2 by (cbn [Nat.mul]; lia).
      f_equal. cbn [Nat.mul]. lia.
Qed.

(** ** Properties of a placement *)

Lemma free_run_cases (flat : list slot) (p : nat) (chunk : list str) :
  free_run flat p (length chunk) ->
  chunk = [] \/ p + length chunk <= length flat.
Proof.
  intros H. destruct chunk as [|t c]; [now left|].
  right. apply free_run_bound; [exact H | discriminate].
Qed.

Lemma placed_move (w : nat) (flat : list slot) (p : nat) (chunk : list str)
  (lo : nat) (chunks : list (list str)) (ps : list nat) :
  free_run flat p (length chunk) -> p + length chunk <= lo ->
  placed w flat lo chunks ps -> placed w (paste flat p chunk) lo chunks ps.
Proof.
  intros Hf Hlo H. destruct (free_run_cases _ _ _ Hf) as [->|Hb].
  - now rewrite paste_nil.
  - now apply placed_paste.
Qed.

Lemma paste_free_nth (flat : list slot) (p : nat) (chunk : list str) (q : nat) :
  free_run flat p (length chunk) ->
  nth_error (paste flat p chunk) q =
  if (p <=? q) && (q <? p + length chunk)
  then option_map Some (nth_error chunk (q - p))
  else nth_error flat q.
Proof.
  intros Hf. destruct (free_run_cases _ _ _ Hf) as [->|Hb].
  - rewrite paste_nil. cbn [length]. rewrite Nat.add_0_r.
    destruct (p <=? q) eqn:E1; [|reflexivity].
    destruct (q <? p) eqn:E2; [|reflexivity].
    apply Nat.leb_le in E1. apply Nat.ltb_lt in E2. lia.
  - rewrite paste_nth by exact Hb.
    destruct (q <? p) eqn:E1.
    + replace (p <=? q) with false
        by (symmetry; apply Nat.leb_gt; now apply Nat.ltb_lt). reflexivity.
    + replace (p <=? q) with true
        by (symmetry; apply Nat.leb_le; now apply Nat.ltb_ge). reflexivity.
Qed.

Lemma paste_all_before (w : nat) (chunks : list (list str)) :
  forall flat lo ps q,
    placed w flat lo chunks ps -> q < lo ->
    nth_error (paste_all flat ps chunks) q = nth_error flat q.
Proof.
  induction chunks as [|chunk rest IH]; intros flat lo ps q H Hq.
  - inversion H. reflexivity.
  - inversion H as [|lo' c cs p ps' Hp Hrow Hfree Hrest]; subst.
    cbn [paste_all].
    rewrite (IH (paste flat p chunk) (p + length chunk) ps' q);
      [| now apply placed_move | lia].
    rewrite paste_free_nth by exact Hfree.
    replace (p <=? q) with false by (symmetry; apply Nat.leb_gt; lia).
    reflexivity.
Qed.

Lemma paste_all_keeps (w : nat) (chunks : list (list str)) :
  forall flat lo ps q t,
    placed w flat lo chunks ps ->
    nth_error flat q = Some (Some t) ->
    nth_error (paste_all flat ps chunks) q = Some (Some t).
Proof.
  induction chunks as [|chunk rest IH]; intros flat lo ps q t H Hq.
  - inversion H. exact Hq.
  - inversion H as [|lo' c cs p ps' Hp Hrow Hfree Hrest]; subst.
    cbn [paste_all].
    apply (IH (paste flat p chunk) (p + length chunk) ps' q t);
      [now apply placed_move|].
    rewrite paste_free_nth by exact Hfree.
    destruct ((p <=? q) && (q <? p + length chunk)) eqn:E; [|exact Hq].
    exfalso. apply andb_prop in E. destruct E as [E1 E2].
    apply Nat.leb_le in E1. apply Nat.ltb_lt in E2.
    specialize (Hfree (q - p)). replace (p + (q - p)) with q in Hfree by lia.
    rewrite Hfree in Hq by lia. discriminate.
Qed.

Lemma paste_all_length (w : nat) (chunks : list (list str)) :
  forall flat lo ps,
    placed w flat lo chunks ps ->
    length (paste_all flat ps chunks) = length flat.
Proof.
  induction chunks as [|chunk rest IH]; intros flat lo ps H.
  - inversion H. reflexivity.
  - inversion H as [|lo' c cs p ps' Hp Hrow Hfree Hrest]; subst.
    cbn [paste_all].
    rewrite (IH (paste flat p chunk) (p + length chunk) ps')
      by now apply placed_move.
    destruct (free_run_cases _ _ _ Hfree) as [->|Hb];
      [now rewrite paste_nil | now apply paste_length].
Qed.

(** The [i]-th chunk of a placement. *)
Lemma placed_nth (w : nat) (chunks : list (list str)) :
  forall flat lo ps i p chunk,
    placed w flat lo chunks ps ->
    nth_error ps i = Some p -> nth_error chunks i = Some chunk ->
    lo <= p /\
    p mod w + length chunk <= w /\
    free_run flat p (length chunk) /\
    (forall q, nth_error ps (S i) = Some q -> p + length chunk <= q) /\
    (forall k tok, nth_error chunk k = Some tok ->
       nth_error (paste_all flat ps chunks) (p + k) = Some (Some tok)).
Proof.
  induction chunks as [|c rest IH]; intros flat lo ps i p chunk H Hp Hc.
  - destruct i; discriminate.
  - inversion H as [|lo' c' cs p0 ps' Hp0 Hrow Hfree Hrest]; subst.
    destruct i as [|i]; cbn [nth_error] in Hp, Hc.
    + inversion Hp. inversion Hc. subst p0 c.
      split; [exact Hp0|]. split; [exact Hrow|]. split; [exact Hfree|]. split.
      * intros q Hq. inversion Hrest as [|? ? ? ? ? Hq' _ _ _]; subst;
          [discriminate|]. cbn in Hq. inversion Hq. subst. exact Hq'.
      * intros k tok Hk. cbn [paste_all].
        assert (Hkl : k < length chunk) by (apply nth_error_Some; congruence).
        rewrite (@paste_all_before w rest (paste flat p chunk)
                   (p + length chunk) ps' (p + k));
          [| now apply placed_move | lia].
        rewrite paste_free_nth by exact Hfree.
        replace (p <=? p + k) with true by (symmetry; apply Nat.leb_le; lia).
        replace (p + k <? p + length chunk) with true
          by (symmetry; apply Nat.ltb_lt; lia).
        cbn [andb]. replace (p + k - p) with k by lia. now rewrite Hk.
    + assert (Hmv : placed w (paste flat p0 c) (p0 + length c) rest ps')
        by now apply placed_move.
      destruct (IH _ _ _ _ _ _ Hmv Hp Hc) as [Hlo [Hr [Hf [Hord Htok]]]].
      split; [lia|]. split; [exact Hr|]. split; [|split].
      * destruct (free_run_cases _ _ _ Hfree) as [->|Hb].
        -- now rewrite paste_nil in Hf.
        -- apply (@free_run_paste flat p0 c p (length chunk)); [lia | lia | exact Hf].
      * exact Hord.
      * exact Htok.
Qed.

(** ** What a completed placement looks like *)

Lemma write_back_placed (lines lines' : list (list slot))
  (chunks : list (list str)) (ps : list nat) :
  let w := length (hd [] lines) in
  grid_shaped lines ->
  placed w (concat lines) 0 chunks ps ->
  length ps = length chunks ->
  write_back lines (paste_all (concat lines) ps chunks) w 0 = Ok lines' ->
  placement_of lines lines' chunks ps.
Proof.
  intros w Hs Hpl Hps Hwb.
  apply write_back_ok in Hwb; [|now apply grid_shaped_le].
  destruct Hwb as [Hrect [Hcat Hlen]].
  unfold placement_of. fold w.
  split; [exact Hrect|]. split; [exact Hpl|]. split; [|now split].
  rewrite Hcat. cbn [skipn]. apply firstn_all2.
  rewrite (paste_all_length _ _ _ _ _ Hpl).
  rewrite (@rectangular_concat_length w lines Hrect). lia.
Qed.

Lemma list_get_0 (A : Type) (lines : list (list A)) (first : list A) :
  list_get lines 0 = Ok first -> hd [] lines = first /\ lines <> [].
Proof.
  destruct lines as [|r l]; [discriminate|].
  cbn. intros H. inversion H. split; [reflexivity | discriminate].
Qed.

Lemma tightly_fit_placed (lines lines' : list (list slot))
  (chunks : list (list str)) :
  grid_shaped lines ->
  tightly_fit_chunks lines chunks = Ok lines' ->
  exists ps, placement_of lines lines' chunks ps.
Proof.
  intros Hs H. unfold tightly_fit_chunks in H.
  apply rbind_ok in H. destruct H as [first [Hfirst H]].
  apply list_get_0 in Hfirst. destruct Hfirst as [<- _].
  apply rbind_ok in H. destruct H as [flat' [Ht Hwb]].
  apply tight_loop_placed in Ht. destruct Ht as [ps [Hpl [-> [_ Hps]]]].
  exists ps. now apply write_back_placed.
Qed.

Lemma spread_attempts_placed (attempts : nat) (lines lines' : list (list slot))
  (chunks : list (list str)) (g g' : rng) :
  let w := length (hd [] lines) in
  grid_shaped lines ->
  spread_attempts attempts w (length lines * w) lines chunks g = Ret lines' g' ->
  exists ps, placement_of lines lines' chunks ps.
Proof.
  intros w Hs. revert g. induction attempts as [|n IH]; intros g H.
  - cbn [spread_attempts] in H. apply lift_ret in H. destruct H as [H _].
    now apply tightly_fit_placed.
  - cbn [spread_attempts] in H. apply bind_ret in H.
    destruct H as [r [g1 [Hr H]]]. destruct r as [flat'|].
    + apply lift_ret in H. destruct H as [Hwb _].
      apply try_spread_loop_placed in Hr.
      destruct Hr as [ps [Hpl [-> [_ Hps]]]].
      exists ps. now apply write_back_placed.
    + now apply IH with g1.
Qed.

Lemma spread_placed (lines lines' : list (list slot))
  (chunks : list (list str)) (g g' : rng) :
  grid_shaped lines ->
  spread_chunks_with_fallback lines chunks g = Ret lines' g' ->
  exists ps, placement_of lines lines' chunks ps.
Proof.
  intros Hs H. unfold spread_chunks_with_fallback in H.
  apply bind_ret in H. destruct H as [first [g1 [Hfirst H]]].
  apply lift_ret in Hfirst. destruct Hfirst as [Hfirst ->].
  apply list_get_0 in Hfirst. destruct Hfirst as [<- _].
  now apply spread_attempts_placed in H.
Qed.

Lemma placement_legal_of (lines lines' : list (list slot))
  (chunks : list (list str)) (ps : list nat) :
  placement_of lines lines' chunks ps -> legal_placement lines lines' chunks.
Proof.
  unfold placement_of, legal_placement.
  set (w := length (hd [] lines)).
  intros [Hrect [Hpl [Hcat [Hlen Hps]]]].
  assert (Hrect' : rectangular w lines')
    by now apply rectangular_map_length with lines.
  split; [exact Hlen|]. exists ps. split; [exact Hps|].
  split; [|split].
  - intros i p chunk Hp Hc.
    destruct (placed_nth _ _ _ _ _ _ _ _ Hpl Hp Hc)
      as [_ [Hrow [Hfree [_ Htok]]]].
    split; [exact Hrow|]. intros k tok Hk.
    assert (Hkl : k < length chunk) by (apply nth_error_Some; congruence).
    assert (Hw : w <> 0) by (intros E; rewrite E in Hrow; lia).
    assert (Hidx : p / w * w + (p mod w + k) = p + k).
    { pose proof (Nat.div_mod p w Hw). lia. }
    rewrite !(slot_at_concat w) by (assumption || lia).
    rewrite Hidx, Hcat. split; [now apply Htok | now apply Hfree].
  - intros i p chunk q Hp Hc Hq.
    destruct (placed_nth _ _ _ _ _ _ _ _ Hpl Hp Hc) as [_ [_ [_ [Hord _]]]].
    now apply Hord.
  - intros r k t Hrk.
    assert (Hk : k < w).
    { unfold slot_at in Hrk. destruct (nth_error lines r) as [row|] eqn:E;
        [|discriminate].
      rewrite <- (Hrect row) by (eapply nth_error_In; eauto).
      apply nth_error_Some. congruence. }
    rewrite (slot_at_concat w) in * by assumption.
    rewrite Hcat. now apply (paste_all_keeps w _ _ 0).
Qed.

(** C4. Whenever chunk placement completes on a grid, by a spread attempt
    or by the tight-fit fallback, every chunk occupies a contiguous run of
    slots of one row, on slots that were empty; the chunks follow each
    other in their original order in row-major order and do not overlap;
    and every slot that held a token before still holds it. *)
Theorem placement_legal (lines : list (list slot)) (chunks : list (list str)) :
  grid_shaped lines ->
  (forall g lines' g',
      spread_chunks_with_fallback lines chunks g = Ret lines' g' ->
      legal_placement lines lines' chunks) /\
  (forall lines',
      tightly_fit_chunks lines chunks = Ok lines' ->
      legal_placement lines lines' chunks).
Proof.
  intros Hs. split.
  - intros g lines' g' H.
    destruct (spread_placed _ _ _ _ _ Hs H) as [ps Hps].
    now apply placement_legal_of with ps.
  - intros lines' H.
    destruct (tightly_fit_placed _ _ _ Hs H) as [ps Hps].
    now apply placement_legal_of with ps.
Qed.

Lemma rectangular_grid_shaped (w : nat) (lines : list (list slot)) :
  rectangular w lines -> grid_shaped lines.
Proof.
  intros Hr i row Hi.
  assert (Hrow : length row = w) by (apply Hr; eapply nth_error_In; eauto).
  assert (Hhd : length (hd [] lines) = w).
  { destruct lines as [|r0 l]; [destruct i; discriminate|].
    apply Hr. now left. }
  destruct (S i <? length lines); lia.
Qed.

Lemma placement_legal_witness :
  let lines : list (list slot) := [repeat None 4; repeat None 4] in
  let chunks := [[tk "hi"; tk "he"]; [tk "el"; tk "yo"]] in
  grid_shaped lines /\
  legal_placement lines
    [[Some (tk "hi"); Some (tk "he"); Some (tk "el"); Some (tk "yo")];
     repeat None 4]
    chunks.
Proof.
  intros lines chunks.
  assert (Hs : grid_shaped lines).
  { apply (rectangular_grid_shaped 4). intros row [<-|[<-|[]]]; reflexivity. }
  split; [exact Hs|].
  apply (proj2 (placement_legal lines chunks Hs)). reflexivity.
Defined.

(** ** The random source *)

Lemma keeps_ret (A : Type) (a : A) : keeps_source (ret a).
Proof. intros g a' g' H. now inversion H. Qed.

Lemma keeps_raise (A : Type) (e : exn) : keeps_source (@raise A e).
Proof. intros g a g' H. discriminate. Qed.

Lemma keeps_lift (A : Type) (r : result A) : keeps_source (lift r).
Proof.
  intros g a g' H. unfold lift in H. destruct r; [|discriminate].
  now inversion H.
Qed.

Lemma keeps_draw : keeps_source draw.
Proof. intros g a g' H. unfold draw in H. now inversion H. Qed.

Lemma keeps_bind (A B : Type) (m : M A) (f : A -> M B) :
  keeps_source m -> (forall a, keeps_source (f a)) -> keeps_source (bind m f).
Proof.
  intros Hm Hf g b g' H. apply bind_ret in H.
  destruct H as [a [g1 [H1 H2]]].
  rewrite (Hf a _ _ _ H2). now apply Hm with a.
Qed.

Ltac keeps_base :=
  repeat match goal with
    | |- keeps_source (ret _) => apply keeps_ret
    | |- keeps_source (raise _) => apply keeps_raise
    | |- keeps_source (lift _) => apply keeps_lift
    | |- keeps_source draw => apply keeps_draw
    | |- keeps_source (bind _ _) => apply keeps_bind; [|intros ?]
    | |- keeps_source (match ?x with _ => _ end) => destruct x
    | H : _ |- _ => exact H
    | H : forall _, _ |- _ => apply H
    end.

Lemma keeps_choice (A : Type) (l : list A) : keeps_source (choice l).
Proof. destruct l; unfold choice; keeps_base. Qed.

Lemma keeps_randint0 (n : nat) : keeps_source (randint0 n).
Proof. destruct n; unfold randint0; keeps_base. Qed.

Lemma keeps_shuffle (A : Type) (x : list A) : keeps_source (shuffle x).
Proof.
  unfold shuffle. generalize (length x - 1). intros i. revert x.
  induction i as [|i IH]; intros x; cbn [shuffle_loop]; keeps_base.
Qed.

Ltac keeps :=
  repeat match goal with
    | |- keeps_source (choice _) => apply keeps_choice
    | |- keeps_source (randint0 _) => apply keeps_randint0
    | |- keeps_source (shuffle _) => apply keeps_shuffle
    | |- keeps_source (ret _) => apply keeps_ret
    | |- keeps_source (raise _) => apply keeps_raise
    | |- keeps_source (lift _) => apply keeps_lift
    | |- keeps_source draw => apply keeps_draw
    | |- keeps_source (bind _ _) => apply keeps_bind; [|intros ?]
    | |- keeps_source (match ?x with _ => _ end) => destruct x
    | H : _ |- _ => exact H
    | H : forall _, _ |- _ => apply H
    end.

Lemma keeps_generate_noise_token (fuel : nat) (ex toks : list str) :
  keeps_source (generate_noise_token fuel ex toks).
Proof.
  induction fuel as [|fuel IH]; cbn [generate_noise_token].
  - intros g a g' H. discriminate.
  - unfold random_pair. keeps.
Qed.

Lemma keeps_get_random_chunk (password : str) (d : direction) :
  keeps_source (get_random_chunk_for_direction password d).
Proof.
  unfold get_random_chunk_for_direction. keeps.
Qed.

Lemma keeps_encode_chunk (password : str) (anchors : list str) (m : str) :
  keeps_source (encode_chunk password anchors m).
Proof.
  pose proof (keeps_get_random_chunk password) as Hr.
  unfold encode_chunk. keeps.
Qed.

Lemma keeps_encode_chunks (password : str) (anchors tokens : list str) :
  keeps_source (encode_chunks password anchors tokens).
Proof.
  pose proof (keeps_encode_chunk password anchors) as Hc.
  induction tokens as [|t ts IH]; cbn [encode_chunks]; keeps.
Qed.

Lemma keeps_place_padding (password : str) (anchors : list str)
  (lines : list (list slot)) :
  keeps_source (place_padding password anchors lines).
Proof.
  unfold place_padding. keeps.
Qed.

Lemma keeps_try_spread_loop (w T n : nat) (chunks : list (list str)) :
  forall i flat next, keeps_source (try_spread_loop w T n i chunks flat next).
Proof.
  induction chunks as [|chunk rest IH]; intros i flat next;
    cbn [try_spread_loop]; keeps.
Qed.

Lemma keeps_spread (lines : list (list slot)) (chunks : list (list str)) :
  keeps_source (spread_chunks_with_fallback lines chunks).
Proof.
  unfold spread_chunks_with_fallback. apply keeps_bind; [keeps|].
  intros first. generalize max_attempts. intros n.
  induction n as [|n IH]; cbn [spread_attempts].
  - keeps.
  - apply keeps_bind; [apply keeps_try_spread_loop|].
    intros [flat|]; keeps.
Qed.

Lemma keeps_pad_text (text : str) : keeps_source (pad_text text).
Proof.
  unfold pad_text. keeps.
Qed.


Lemma keeps_fill_line (fuel : nat) (anchors msgs : list str) (l : list slot) :
  keeps_source (fill_line fuel anchors msgs l).
Proof.
  pose proof (keeps_generate_noise_token fuel anchors msgs) as Hn.
  induction l as [|k l IH]; cbn [fill_line]; keeps.
Qed.

Lemma keeps_fill_noise (fuel : nat) (anchors msgs : list str)
  (lines : list (list slot)) :
  keeps_source (fill_noise fuel anchors msgs lines).
Proof.
  pose proof (keeps_fill_line fuel anchors msgs) as Hl.
  induction lines as [|l rest IH]; cbn [fill_noise]; keeps.
Qed.


(** ** The noise filler *)

Lemma random_pair_ret (g : rng) :
  exists a b g', random_pair g = Ret [a; b] g' /\ In a charset /\ In b charset.
Proof.
  unfold random_pair.
  destruct (choice_nonempty _ charset g) as [a [Ha Hina]]; [discriminate|].
  rewrite (bind_ret_eq _ _ _ _ _ _ _ Ha).
  destruct (choice_nonempty _ charset (mkRng (source g) (S (cursor g))))
    as [b [Hb Hinb]]; [discriminate|].
  rewrite (bind_ret_eq _ _ _ _ _ _ _ Hb). unfold ret.
  exists a, b. eexists. now repeat split.
Qed.

Lemma noise_ok_token (anchors msgs : list str) (n : str) :
  noise_ok anchors msgs n = true <->
  ~ In n anchors /\ ~ In (rev n) anchors /\ ~ In n msgs.
Proof.
  unfold noise_ok. rewrite !andb_true_iff, !negb_true_iff, !mem_not_In.
  tauto.
Qed.

(** The rejection loop returns a noise token or is still running when the
    fuel is used up; it never raises. *)
Lemma generate_noise_token_outcome (fuel : nat) (anchors msgs : list str)
  (g : rng) :
  match generate_noise_token fuel anchors msgs g with
  | Ret n _ => noise_token anchors msgs n
  | Exc _ => False
  | Spin => True
  end.
Proof.
  revert g. induction fuel as [|fuel IH]; intros g; cbn [generate_noise_token].
  - exact I.
  - destruct (random_pair_ret g) as [a [b [g' [Hp [Ha Hb]]]]].
    rewrite (bind_ret_eq _ _ _ _ _ _ _ Hp).
    destruct (noise_ok anchors msgs [a; b]) eqn:E.
    + unfold ret. split; [now exists a, b|]. now apply noise_ok_token.
    + apply IH.
Qed.

Lemma fill_line_outcome (fuel : nat) (anchors msgs : list str) (l : list slot)
  (g : rng) :
  match fill_line fuel anchors msgs l g with
  | Ret row _ => Forall2 (filled anchors msgs) l row
  | Exc _ => False
  | Spin => True
  end.
Proof.
  revert g. induction l as [|k l IH]; intros g; cbn [fill_line].
  - constructor.
  - assert (Hk : match
              match k with
              | Some t => ret t
              | None => generate_noise_token fuel anchors msgs
              end g
            with
            | Ret t _ => filled anchors msgs k t
            | Exc _ => False
            | Spin => True
            end).
    { destruct k as [t|]; [reflexivity|].
      apply generate_noise_token_outcome. }
    unfold bind at 1.
    destruct (match k with Some t => ret t | None => _ end g) as [t g1|e|];
      [|destruct Hk | exact I].
    specialize (IH g1). unfold bind at 1.
    destruct (fill_line fuel anchors msgs l g1) as [row g2|e|];
      [|destruct IH | exact I].
    unfold ret. now constructor.
Qed.

Lemma fill_noise_outcome (fuel : nat) (anchors msgs : list str)
  (lines : list (list slot)) (g : rng) :
  match fill_noise fuel anchors msgs lines g with
  | Ret grid _ => Forall2 (Forall2 (filled anchors msgs)) lines grid
  | Exc _ => False
  | Spin => True
  end.
Proof.
  revert g. induction lines as [|l rest IH]; intros g; cbn [fill_noise].
  - constructor.
  - pose proof (fill_line_outcome fuel anchors msgs l g) as Hl.
    unfold bind at 1.
    destruct (fill_line fuel anchors msgs l g) as [row g1|e|];
      [|destruct Hl | exact I].
    specialize (IH g1). unfold bind at 1.
    destruct (fill_noise fuel anchors msgs rest g1) as [grid g2|e|];
      [|destruct IH | exact I].
    unfold ret. now constructor.
Qed.



(** ** Placement on a rectangular grid never fails by accident *)

Lemma shuffle_collect_run (w : nat) (flat : list slot) (len a b : nat)
  (g : rng) :
  w <> 0 -> (forall p, p < b -> p + len <= length flat) ->
  exists cands g',
    bind (shuffle (range a b))
         (fun positions => lift (collect_candidates w flat len positions)) g
    = Ret cands g'.
Proof.
  intros Hw Hb.
  destruct (shuffle_total _ (range a b) g) as [positions [g1 [Hs Hin]]].
  rewrite (bind_ret_eq _ _ _ _ _ _ _ Hs).
  destruct (collect_candidates_total w flat len positions Hw) as [cands Hc].
  - intros p Hp. apply Hin, in_range in Hp. apply Hb. lia.
  - exists cands, g1. unfold lift. now rewrite Hc.
Qed.

Lemma bind_assoc (A B C : Type) (m : M A) (f : A -> M B) (h : B -> M C) (g : rng) :
  bind (bind m f) h g = bind m (fun a => bind (f a) h) g.
Proof.
  unfold bind. now destruct (m g).
Qed.

Lemma try_spread_loop_total (w T n : nat) (chunks : list (list str)) :
  forall i flat next g,
    w <> 0 -> length flat = T -> i + length chunks <= n ->
    exists r g', try_spread_loop w T n i chunks flat next g = Ret r g'.
Proof.
  induction chunks as [|chunk rest IH]; intros i flat next g Hw HT Hn.
  - cbn [try_spread_loop]. now exists (Some flat), g.
  - cbn [try_spread_loop]. cbn [length] in Hn.
    set (len := length chunk).
    set (a1 := Nat.max next (i * T / n)).
    set (b1 := (i + 1) * T / n + 1 - len).
    assert (Hend : (i + 1) * T / n <= T).
    { apply Nat.Div0.div_le_upper_bound. nia. }
    (* first stage *)
    destruct (shuffle_collect_run w flat len a1 b1 g Hw) as [c1 [g1 H1]].
    { intros p Hp. unfold b1 in Hp. lia. }
    rewrite <- bind_assoc. rewrite (bind_ret_eq _ _ _ _ _ _ _ H1).
    (* second stage *)
    assert (H2 : exists cands g2,
               match c1 with
               | [] =>
                   bind (shuffle (range next (T + 1 - len)))
                     (fun positions =>
                        lift (collect_candidates w flat len positions))
               | _ :: _ => ret c1
               end g1 = Ret cands g2 /\
               forall p, In p cands -> fits w flat p len = Ok true).
    { destruct c1 as [|x c1].
      - destruct (shuffle_collect_run w flat len next (T + 1 - len) g1 Hw)
          as [c2 [g2 H2]]; [intros p Hp; lia|].
        exists c2, g2. split; [exact H2|]. intros p Hp.
        now destruct (shuffle_collect_ret _ _ _ _ _ _ _ _ H2 p Hp).
      - exists (x :: c1), g1. split; [reflexivity|]. intros p Hp.
        now destruct (shuffle_collect_ret _ _ _ _ _ _ _ _ H1 p Hp). }
    destruct H2 as [cands [g2 [H2 Hfit]]].
    rewrite (bind_ret_eq _ _ _ _ _ _ _ H2).
    destruct cands as [|chosen cs]; [now exists None, g2|].
    assert (Hf : fits w flat chosen len = Ok true) by (apply Hfit; now left).
    apply fits_true in Hf. destruct Hf as [_ [_ Hfree]].
    unfold bind at 1. rewrite (write_chunk_free chunk flat chosen Hfree).
    cbn [lift]. apply IH; [exact Hw | | lia].
    destruct (free_run_cases _ _ _ Hfree) as [->|Hb];
      [now rewrite paste_nil | now rewrite paste_length].
Qed.

Lemma scan_slot_total (n w : nat) (flat : list slot) (pos len : nat) :
  w <> 0 -> (forall p, pos <= p < pos + n -> p + len <= length flat) ->
  exists r, scan_slot n w flat pos len = Ok r.
Proof.
  intros Hw. revert pos. induction n as [|n IH]; intros pos H.
  - now exists None.
  - cbn [scan_slot].
    destruct (fits_total w flat pos len Hw) as [b Hb]; [apply H; lia|].
    rewrite Hb. cbn [rbind]. destruct b; [now eexists|].
    apply IH. intros p Hp. apply H. lia.
Qed.

Lemma tight_loop_outcome (w T : nat) (chunks : list (list str)) :
  forall flat pos,
    w <> 0 -> length flat = T ->
    (exists flat', tight_loop w T chunks flat pos = Ok flat') \/
    tight_loop w T chunks flat pos = Raise RuntimeError_no_slot.
Proof.
  induction chunks as [|chunk rest IH]; intros flat pos Hw HT.
  - left. now exists flat.
  - cbn [tight_loop].
    destruct (scan_slot_total (T + 1 - length chunk - pos) w flat pos
                (length chunk) Hw) as [r Hr]; [intros p Hp; lia|].
    rewrite Hr. cbn [rbind]. destruct r as [p|]; [|now right].
    apply scan_slot_ok in Hr. destruct Hr as [_ Hf].
    apply fits_true in Hf. destruct Hf as [_ [_ Hfree]].
    rewrite (write_chunk_free chunk flat p Hfree). cbn [rbind].
    apply IH; [exact Hw|].
    destruct (free_run_cases _ _ _ Hfree) as [->|Hb];
      [now rewrite paste_nil | now rewrite paste_length].
Qed.

Lemma tightly_fit_outcome (w : nat) (lines : list (list slot))
  (chunks : list (list str)) :
  rectangular w lines -> lines <> [] -> w <> 0 ->
  (exists lines', tightly_fit_chunks lines chunks = Ok lines') \/
  tightly_fit_chunks lines chunks = Raise RuntimeError_no_slot.
Proof.
  intros Hrect Hne Hw. unfold tightly_fit_chunks.
  destruct lines as [|first rest]; [congruence|].
  cbn [list_get nth_error rbind].
  assert (Hfirst : length first = w) by (apply Hrect; now left).
  rewrite Hfirst.
  pose proof (rectangular_concat_length w (first :: rest) Hrect) as Hlen.
  destruct (tight_loop_outcome w (length (first :: rest) * w) chunks
              (concat (first :: rest)) 0 Hw Hlen) as [[flat' Ht]|Ht].
  - rewrite Ht. cbn [rbind]. left.
    apply tight_loop_placed in Ht. destruct Ht as [ps [_ [_ [Hl _]]]].
    apply write_back_total; [exact Hrect | lia].
  - rewrite Ht. now right.
Qed.

(** On a rectangular grid the placement returns a grid, or the tight-fit
    fallback finds no slot. *)
Lemma spread_rect_outcome (w : nat) (lines : list (list slot))
  (chunks : list (list str)) (g : rng) :
  rectangular w lines -> lines <> [] -> w <> 0 ->
  match spread_chunks_with_fallback lines chunks g with
  | Ret _ _ => True
  | Exc e =>
      e = RuntimeError_no_slot /\
      tightly_fit_chunks lines chunks = Raise RuntimeError_no_slot
  | Spin => False
  end.
Proof.
  intros Hrect Hne Hw. unfold spread_chunks_with_fallback.
  destruct lines as [|first rest] eqn:El; [congruence|]. rewrite <- El in *.
  assert (Hget : list_get lines 0 = Ok first) by now rewrite El.
  unfold bind at 1. rewrite Hget. cbn [lift].
  assert (Hfirst : length first = w) by (apply Hrect; rewrite El; now left).
  rewrite Hfirst.
  pose proof (rectangular_concat_length w lines Hrect) as Hlen.
  generalize max_attempts. intros n. revert g.
  induction n as [|n IH]; intros g; cbn [spread_attempts].
  - destruct (tightly_fit_outcome w lines chunks Hrect Hne Hw) as [[l' H]|H];
      rewrite H; cbn [lift]; [exact I | now split].
  - destruct (try_spread_loop_total w (length lines * w) (length chunks) chunks
                0 (concat lines) 0 g Hw Hlen) as [r [g1 Hr]]; [lia|].
    unfold try_spread. rewrite (bind_ret_eq _ _ _ _ _ _ _ Hr).
    destruct r as [flat'|]; [|apply IH].
    apply try_spread_loop_placed in Hr. destruct Hr as [ps [_ [_ [Hl _]]]].
    destruct (write_back_total lines flat' w 0 Hrect) as [l' Hl']; [lia|].
    rewrite Hl'. exact I.
Qed.

(** ** The grid of the allocator *)

Lemma repeat_rectangular (w n : nat) :
  rectangular w (repeat (repeat (@None str) w) n).
Proof.
  intros row Hrow. apply repeat_spec in Hrow. subst row. apply repeat_length.
Qed.

(** The allocator's grid is rectangular when the capacity fits one row or
    is a multiple of the row width. *)
Lemma grid_spec_rect (w c : Z) :
  (1 <= w)%Z -> (1 <= c)%Z -> (c <= w)%Z \/ (c mod w = 0)%Z ->
  let w' := if (c <? w)%Z then Z.to_nat c else Z.to_nat w in
  let n := if (c <? w)%Z then 1 else Z.to_nat (c / w) in
  grid_spec w c = repeat (repeat None w') n /\ w' <> 0 /\ n <> 0 /\
  n * w' = Z.to_nat c.
Proof.
  intros Hw Hc Hcw. unfold grid_spec.
  destruct (c <? w)%Z eqn:E.
  - apply Z.ltb_lt in E. rewrite Z.div_small, Z.mod_small by lia.
    replace (c =? 0)%Z with false by (symmetry; apply Z.eqb_neq; lia).
    cbn. repeat split; lia.
  - apply Z.ltb_ge in E.
    assert (Hm : (c mod w = 0)%Z).
    { destruct Hcw as [Hle|Hm]; [|exact Hm].
      replace c with w by lia. apply Z.mod_same. lia. }
    rewrite Hm. cbn [Z.eqb]. rewrite app_nil_r.
    assert (Hq : (1 <= c / w)%Z) by (apply Z.div_le_lower_bound; lia).
    assert (Hdm : (c = w * (c / w) + c mod w)%Z) by (apply Z.div_mod; lia).
    repeat split; try lia; nia.
Qed.

Lemma paste_all_nil (flat : list slot) (ps : list nat) :
  paste_all flat ps [] = flat.
Proof. now destruct ps. Qed.



Lemma Forall2_concat_length (A B : Type) (R : A -> B -> Prop)
  (l1 : list (list A)) (l2 : list (list B)) :
  Forall2 (Forall2 R) l1 l2 -> length (concat l2) = length (concat l1).
Proof.
  induction 1 as [|r1 r2 l1 l2 Hr _ IH]; [reflexivity|].
  cbn [concat]. rewrite !length_app, IH.
  now rewrite (Forall2_length Hr).
Qed.


Lemma Forall2_concat (A B : Type) (R : A -> B -> Prop)
  (l1 : list (list A)) (l2 : list (list B)) :
  Forall2 (Forall2 R) l1 l2 -> Forall2 R (concat l1) (concat l2).
Proof.
  induction 1 as [|r1 r2 l1 l2 Hr _ IH]; [constructor|].
  cbn [concat]. now apply Forall2_app.
Qed.

Lemma filled_all_none (anchors msgs : list str) (l1 : list slot)
  (l2 : list str) :
  Forall2 (filled anchors msgs) l1 l2 ->
  (forall s, In s l1 -> s = None) ->
  forall n, In n l2 -> noise_token anchors msgs n.
Proof.
  induction 1 as [|s t l1 l2 Hst _ IH]; intros Hnone n Hn; [destruct Hn|].
  destruct Hn as [<-|Hn].
  - rewrite (Hnone s) in Hst by now left. exact Hst.
  - apply IH; [|exact Hn]. intros s' Hs'. apply Hnone. now right.
Qed.



Lemma anchor_two_distinct (password a : str) :
  In a (get_password_tokens password) -> two_distinct a = true.
Proof.
  rewrite get_password_tokens_anchors_spec. unfold anchors_spec.
  intros H. apply filter_In in H. destruct H as [_ H].
  unfold valid_window in H. apply andb_prop in H. destruct H as [H _].
  apply andb_prop in H. now destruct H.
Qed.

Lemma choice_nth (A : Type) (l : list A) (g g' : rng) (a : A) :
  choice l g = Ret a g' ->
  nth_error l (source g (cursor g) mod length l) = Some a /\
  g' = mkRng (source g) (S (cursor g)).
Proof.
  destruct l as [|x l]; [discriminate|].
  unfold choice, bind, draw, lift, list_get.
  destruct (nth_error (x :: l) (source g (cursor g) mod length (x :: l)));
    [|discriminate].
  intros H. inversion H. now split.
Qed.

(** A random stream that keeps drawing the same character makes the noise
    generator return at its first try when the text is empty: a pair of
    equal characters is never an anchor. *)
Lemma noise_terminates_const (fuel : nat) (password : str) (k : nat) :
  noise_terminates (S fuel) (get_password_tokens password) [] (fun _ => k).
Proof.
  intros n. cbn [generate_noise_token].
  destruct (random_pair_ret (mkRng (fun _ => k) n)) as [a [b [g' [Hp _]]]].
  assert (Hab : a = b).
  { unfold random_pair in Hp. apply bind_ret in Hp.
    destruct Hp as [a' [g1 [Ha Hp]]]. apply bind_ret in Hp.
    destruct Hp as [b' [g2 [Hb Hp]]]. inversion Hp. subst a' b' g2.
    apply choice_nth in Ha. destruct Ha as [Ha ->].
    apply choice_nth in Hb. destruct Hb as [Hb _].
    cbn [source cursor] in Ha, Hb. congruence. }
  subst b. rewrite (bind_ret_eq _ _ _ _ _ _ _ Hp).
  assert (Hok : noise_ok (get_password_tokens password) [] [a; a] = true).
  { apply noise_ok_token. cbn [rev app].
    assert (Hn : ~ In [a; a] (get_password_tokens password)).
    { intros H. apply anchor_two_distinct in H. cbn in H.
      now rewrite Ascii.eqb_refl in H. }
    repeat split; [exact Hn | exact Hn | intros []]. }
  rewrite Hok. unfold ret. now eexists _, _.
Qed.

(** ** The padding anchor *)

Lemma firstn_repeat (A : Type) (x : A) (k n : nat) :
  k <= n -> firstn k (repeat x n) = repeat x k.
Proof.
  revert n. induction k as [|k IH]; intros n H; [reflexivity|].
  destruct n as [|n]; [lia|]. cbn [repeat firstn]. rewrite IH by lia.
  reflexivity.
Qed.

Lemma skipn_repeat (A : Type) (x : A) (k n : nat) :
  skipn k (repeat x n) = repeat x (n - k).
Proof.
  revert n. induction k as [|k IH]; intros n.
  - now rewrite Nat.sub_0_r.
  - destruct n as [|n]; [reflexivity|]. cbn [repeat skipn]. now rewrite IH.
Qed.

Lemma concat_repeat_repeat (A : Type) (x : A) (w n : nat) :
  concat (repeat (repeat x w) n) = repeat x (n * w).
Proof.
  induction n as [|n IH]; [reflexivity|].
  cbn [repeat concat Nat.mul]. now rewrite IH, repeat_app.
Qed.

Lemma nth_error_repeat_lt (A : Type) (x : A) (k n : nat) :
  k < n -> nth_error (repeat x n) k = Some x.
Proof.
  revert k. induction n as [|n IH]; intros k H; [lia|].
  destruct k as [|k]; [reflexivity|]. cbn. apply IH. lia.
Qed.

(** The padding step on the empty rectangular grid of [n] rows of width
    [w]. *)
Lemma place_padding_rect (password : str) (w n : nat) (g : rng) :
  let anchors := get_password_tokens password in
  let lines : list (list slot) := repeat (repeat None w) n in
  anchors <> [] -> w <> 0 -> n <> 0 ->
  exists lines1 g',
    place_padding password anchors lines g = Ret lines1 g' /\
    rectangular w lines1 /\ length lines1 = n /\
    padded_flat anchors w (n * w) true (concat lines1).
Proof.
  intros anchors lines Ha Hw Hn. unfold place_padding.
  destruct (choice_nonempty _ anchors g Ha) as [a [Hc Hin]].
  rewrite (bind_ret_eq _ _ _ _ _ _ _ Hc).
  set (g1 := mkRng (source g) (S (cursor g))).
  assert (Hlen : length lines = n) by apply repeat_length.
  rewrite Hlen. destruct n as [|n']; [congruence|]. cbn [randint0].
  set (n := S n') in *.
  unfold bind at 1, draw. unfold bind at 1, ret.
  set (r := source g1 (cursor g1) mod n).
  assert (Hr : r < n) by (apply Nat.mod_upper_bound; lia).
  destruct (In_dir_in _ _ Hin) as [d Hd]. fold anchors in Hd.
  unfold bind at 1. rewrite get_direction_dir_in. fold anchors.
  rewrite Hd. cbn [lift].
  set (row0 := (repeat None w : list slot)) in *.
  assert (Hrow : list_get lines r = Ok row0).
  { apply list_get_ok. unfold lines. now apply nth_error_repeat_lt. }
  rewrite Hrow. cbn [rbind].
  assert (Hl0 : length row0 = w) by apply repeat_length.
  set (q := match d with before => 0 | after => w - 1 end).
  assert (Hq : q < w) by (destruct d; unfold q; lia).
  assert (Hset : match d with
                 | before => list_set row0 0 (Some a)
                 | after => set_last row0 (Some a)
                 end
                 = Ok (repeat None q ++ Some a :: repeat None (w - S q))).
  { assert (E : match d with
                | before => list_set row0 0 (Some a)
                | after => set_last row0 (Some a)
                end = list_set row0 q (Some a)).
    { destruct d; [reflexivity|]. unfold set_last. now rewrite Hl0. }
    rewrite E, list_set_lt by lia. unfold row0.
    now rewrite firstn_repeat, skipn_repeat by lia. }
  rewrite Hset. cbn [rbind].
  rewrite list_set_lt by lia.
  eexists _, _. split; [reflexivity|].
  unfold lines. rewrite firstn_repeat, skipn_repeat by lia.
  fold row0. split; [|split].
  - intros row Hin'. apply in_app_or in Hin'.
    destruct Hin' as [H|[<-|H]].
    + apply repeat_spec in H. now rewrite H.
    + rewrite length_app. cbn [length]. rewrite !repeat_length. lia.
    + apply repeat_spec in H. now rewrite H.
  - rewrite length_app. cbn [length]. rewrite !repeat_length. lia.
  - unfold padded_flat. exists a, d, (r * w + q).
    split; [exact Hd|]. split; [nia|]. split.
    + rewrite concat_app. cbn [concat]. unfold row0.
      rewrite !concat_repeat_repeat, <- !app_assoc. cbn [app].
      rewrite app_assoc, <- repeat_app.
      f_equal. f_equal. rewrite <- repeat_app. f_equal. nia.
    + replace (r * w + q) with (q + r * w) by lia.
      rewrite Nat.Div0.mod_add, Nat.mod_small by lia.
      destruct d; reflexivity.
Qed.

(** ** Capacity *)

Lemma free_slots_app (l1 l2 : list slot) :
  free_slots (l1 ++ l2) = free_slots l1 + free_slots l2.
Proof.
  unfold free_slots. now rewrite filter_app, length_app.
Qed.

Lemma free_slots_repeat (n : nat) : free_slots (repeat None n) = n.
Proof.
  unfold free_slots. induction n as [|n IH]; [reflexivity|].
  cbn. now rewrite IH.
Qed.

Lemma free_run_firstn (flat : list slot) (p n : nat) :
  free_run flat p n -> firstn n (skipn p flat) = repeat None n.
Proof.
  revert p. induction n as [|n IH]; intros p H; [reflexivity|].
  assert (H0 : nth_error flat p = Some None)
    by (rewrite <- (Nat.add_0_r p); apply H; lia).
  assert (E : skipn p flat = None :: skipn (S p) flat).
  { assert (Hp : p < length flat) by (apply nth_error_Some; congruence).
    rewrite <- (firstn_skipn_middle _ _ H0) at 1.
    rewrite skipn_app, length_firstn.
    rewrite skipn_all2 by (rewrite length_firstn; lia).
    now replace (p - Nat.min p (length flat)) with 0 by lia. }
  rewrite E. cbn [firstn repeat]. f_equal. apply IH.
  intros k Hk. replace (S p + k) with (p + S k) by lia. apply H. lia.
Qed.

(** The chunks of a placement fit the slots that are empty from [lo] on. *)
Lemma placed_capacity (w : nat) (flat : list slot) (lo : nat)
  (chunks : list (list str)) (ps : list nat) :
  placed w flat lo chunks ps ->
  length (concat chunks) <= free_slots (skipn lo flat).
Proof.
  induction 1 as [lo|lo c cs p ps Hp Hrow Hfree Hrest IH]; [cbn; lia|].
  cbn [concat]. rewrite length_app.
  assert (E1 : skipn lo flat
               = firstn (p - lo) (skipn lo flat) ++ skipn p flat).
  { rewrite <- (firstn_skipn (p - lo) (skipn lo flat)) at 1.
    rewrite skipn_skipn. do 2 f_equal. lia. }
  assert (E2 : skipn p flat
               = repeat None (length c) ++ skipn (p + length c) flat).
  { rewrite <- (firstn_skipn (length c) (skipn p flat)) at 1.
    rewrite (free_run_firstn _ _ _ Hfree), skipn_skipn.
    do 2 f_equal. lia. }
  rewrite E1, free_slots_app, E2, free_slots_app, free_slots_repeat. lia.
Qed.

Lemma padded_flat_free (anchors : list str) (w total : nat) (pad : bool)
  (flat : list slot) :
  padded_flat anchors w total pad flat ->
  free_slots flat + (if pad then 1 else 0) = total /\ length flat = total.
Proof.
  unfold padded_flat. destruct pad.
  - intros [a [d [q [_ [Hq [-> _]]]]]].
    rewrite free_slots_app, free_slots_repeat.
    change (Some a :: repeat None (total - S q))
      with ([Some a] ++ repeat None (total - S q)).
    rewrite free_slots_app, free_slots_repeat.
    rewrite !length_app, !repeat_length. cbn. lia.
  - intros ->. rewrite free_slots_repeat, repeat_length. lia.
Qed.

(** ** The encoder up to the placement, on a rectangular grid *)

Lemma encode_chunks_anchors (password : str) (msgs : list str)
  (g g' : rng) (chunks : list (list str)) :
  encode_chunks password (get_password_tokens password) msgs g = Ret chunks g' ->
  msgs <> [] -> get_password_tokens password <> [].
Proof.
  intros H Hm Ha. destruct msgs as [|m ms]; [congruence|].
  cbn [encode_chunks] in H.
  rewrite (bind_exc_eq _ _ _ _ _ _ (encode_chunk_no_anchor password m g Ha)) in H.
  discriminate.
Qed.

Lemma needs_padding_tokens (text : str) (g : rng) :
  needs_padding text = true -> get_text_tokens (padded_text text g) <> [].
Proof.
  intros H. apply get_text_tokens_nonempty, padded_text_nonempty.
  intros ->. discriminate.
Qed.

(** The width and the number of rows of the rectangular grid. *)
Lemma encode_placed_rect (text password : str) (w c : Z) (g g1 g2 : rng)
  (chunks : list (list str)) :
  let anchors := get_password_tokens password in
  let msgs := get_text_tokens (padded_text text g) in
  let w' := if (c <? w)%Z then Z.to_nat c else Z.to_nat w in
  let n := if (c <? w)%Z then 1 else Z.to_nat (c / w) in
  (1 <= w)%Z -> (1 <= c)%Z -> (c <= w)%Z \/ (c mod w = 0)%Z ->
  pad_text text g = Ret (padded_text text g) g1 ->
  encode_chunks password anchors msgs g1 = Ret chunks g2 ->
  exists lines1 g3,
    rectangular w' lines1 /\ length lines1 = n /\ w' <> 0 /\ n <> 0 /\
    n * w' = Z.to_nat c /\
    padded_flat anchors w' (n * w') (needs_padding text) (concat lines1) /\
    source g3 = source g /\
    encode_placed text password w c g =
    bind (spread_chunks_with_fallback lines1 chunks)
         (fun lines => ret (msgs, lines)) g3.
Proof.
  intros anchors msgs w' n Hw Hc Hcw Hpad Hch.
  destruct (grid_spec_rect w c Hw Hc Hcw) as [Hg [Hw' [Hn Hnw]]].
  fold w' n in Hg, Hw', Hn, Hnw.
  assert (Hs2 : source g2 = source g).
  { rewrite (keeps_encode_chunks _ _ _ _ _ _ Hch).
    apply (keeps_pad_text _ _ _ _ Hpad). }
  assert (Hstage : exists lines1 g3,
             (if needs_padding text
              then place_padding password anchors (grid_spec w c)
              else ret (grid_spec w c)) g2 = Ret lines1 g3 /\
             rectangular w' lines1 /\ length lines1 = n /\
             padded_flat anchors w' (n * w') (needs_padding text)
               (concat lines1) /\
             source g3 = source g).
  { destruct (needs_padding text) eqn:Enp.
    - assert (Ha : anchors <> []).
      { apply (encode_chunks_anchors _ _ _ _ _ Hch).
        now apply needs_padding_tokens. }
      rewrite Hg.
      destruct (place_padding_rect password w' n g2 Ha Hw' Hn)
        as [lines1 [g3 [Hp [Hrect [Hlen Hflat]]]]].
      exists lines1, g3. repeat split; try assumption.
      rewrite <- Hs2. apply (keeps_place_padding _ _ _ _ _ _ Hp).
    - exists (grid_spec w c), g2. split; [reflexivity|].
      rewrite Hg. split; [apply repeat_rectangular|].
      split; [apply repeat_length|]. split; [|exact Hs2].
      unfold padded_flat. apply concat_repeat_repeat. }
  destruct Hstage as [lines1 [g3 [Hst [Hrect [Hlen [Hflat Hs3]]]]]].
  exists lines1, g3. repeat split; try assumption.
  unfold encode_placed.
  rewrite (bind_ret_eq _ _ _ _ _ _ _ Hpad).
  fold anchors msgs. rewrite (bind_ret_eq _ _ _ _ _ _ _ Hch).
  unfold bind at 1. rewrite (setup_lines_closed w c Hw Hc). cbn [lift].
  rewrite (bind_ret_eq _ _ _ _ _ _ _ Hst). reflexivity.
Qed.

Lemma placement_of_width (w : nat) (lines lines' : list (list slot))
  (chunks : list (list str)) (ps : list nat) :
  rectangular w lines -> lines <> [] ->
  placement_of lines lines' chunks ps ->
  placed w (concat lines) 0 chunks ps /\
  concat lines' = paste_all (concat lines) ps chunks /\
  rectangular w lines' /\ length lines' = length lines.
Proof.
  intros Hrect Hne [_ [Hpl [Hcat [Hlen _]]]].
  assert (Hw : length (hd [] lines) = w).
  { destruct lines as [|r l]; [congruence|]. apply Hrect. now left. }
  rewrite Hw in Hpl. split; [exact Hpl|]. split; [exact Hcat|]. split.
  - now apply rectangular_map_length with lines.
  - rewrite <- (length_map (@length slot) lines'), Hlen. apply length_map.
Qed.

(** C6 (amended). When the chunk encoder succeeds and the grid is
    rectangular (the capacity fits one row or is a multiple of the row
    width), a capacity smaller than the number of tokens of all chunks,
    plus one for the padding anchor of a text of odd length, makes the
    encoder raise PlacementCapacityExceeded, for every random draw. *)
Theorem encode_capacity_exceeded (fuel : nat) (text password : str) (w c : Z)
  (g g1 g2 : rng) (chunks : list (list str)) :
  let anchors := get_password_tokens password in
  let msgs := get_text_tokens (padded_text text g) in
  (1 <= w)%Z -> (1 <= c)%Z -> (c <= w)%Z \/ (c mod w = 0)%Z ->
  pad_text text g = Ret (padded_text text g) g1 ->
  encode_chunks password anchors msgs g1 = Ret chunks g2 ->
  (c < Z.of_nat (length (concat chunks))
       + (if needs_padding text then 1 else 0))%Z ->
  exists e, encode fuel text password w c g = Exc e /\
            PlacementCapacityExceeded e.
Proof.
  intros anchors msgs Hw Hc Hcw Hpad Hch Hcap.
  destruct (encode_placed_rect text password w c g g1 g2 chunks
              Hw Hc Hcw Hpad Hch)
    as [lines1 [g3 [Hrect [Hlen [Hw' [Hn [Hnw [Hflat [_ Heq]]]]]]]]].
  set (w' := if (c <? w)%Z then Z.to_nat c else Z.to_nat w) in *.
  set (n := if (c <? w)%Z then 1 else Z.to_nat (c / w)) in *.
  assert (Hne : lines1 <> []) by (intros E; rewrite E in Hlen; cbn in Hlen; lia).
  exists RuntimeError_no_slot. split; [|reflexivity].
  unfold encode. apply bind_exc_eq. rewrite Heq. apply bind_exc_eq.
  pose proof (spread_rect_outcome w' lines1 chunks g3 Hrect Hne Hw') as Hout.
  destruct (spread_chunks_with_fallback lines1 chunks g3)
    as [lines' g4|e|] eqn:Es.
  - exfalso.
    destruct (spread_placed _ _ _ _ _
                (rectangular_grid_shaped w' _ Hrect) Es) as [ps Hp].
    destruct (placement_of_width w' _ _ _ _ Hrect Hne Hp) as [Hpl _].
    apply placed_capacity in Hpl. cbn [skipn] in Hpl.
    destruct (padded_flat_free _ _ _ _ _ Hflat) as [Hfree _].
    destruct (needs_padding text); lia.
  - destruct Hout as [-> _]. reflexivity.
  - destruct Hout.
Qed.

Lemma encode_capacity_exceeded_witness :
  exists e, encode 1 (tk "hihihi") (tk "hello") 4 4 (rng_const 0) = Exc e /\
            PlacementCapacityExceeded e.
Proof.
  apply (encode_capacity_exceeded 1 (tk "hihihi") (tk "hello") 4 4
           (rng_const 0) (rng_const 0) (mkRng (fun _ => 0) 3)
           [[tk "hi"; tk "he"]; [tk "hi"; tk "he"]; [tk "hi"; tk "he"]]).
  - lia.
  - lia.
  - now left.
  - reflexivity.
  - reflexivity.
  - cbn. lia.
Defined.

(** The claim C6 as it is stated fails for a password whose only anchor
    has direction before and a text with a token that is the reversal of
    that anchor: there is a valid anchor and the capacity 1 is smaller
    than the tokens of any chunk, yet for every random draw the encoder
    raises NoAnchorAvailable, not PlacementCapacityExceeded. *)
Lemma encode_capacity_counterexample :
  get_password_tokens (tk "ab") = [tk "ab"] /\
  (1 < 2 * Z.of_nat (length (get_text_tokens (tk "hiba"))))%Z /\
  forall fuel g,
    exists e, encode fuel (tk "hiba") (tk "ab") 4 1 g = Exc e /\
              NoAnchorAvailable e /\ ~ PlacementCapacityExceeded e.
Proof.
  split; [reflexivity|]. split; [cbn; lia|]. intros fuel g.
  destruct (encode_raises_no_anchor fuel (tk "hiba") (tk "ab") 4 1 g)
    as [e [He Hk]].
  - discriminate.
  - right. exists (tk "ba"). split; [right; now left|].
    split; [reflexivity|]. split; [discriminate | reflexivity].
  - exists e. split; [exact He|]. split; [exact Hk|].
    unfold PlacementCapacityExceeded.
    destruct Hk as [->| ->]; discriminate.
Qed.

(** ** Message tokens *)

Lemma list_ind2 (A : Type) (P : list A -> Prop) :
  P [] -> (forall a, P [a]) ->
  (forall a b r, P r -> P (a :: b :: r)) ->
  forall l, P l.
Proof.
  intros H0 H1 H2.
  assert (H : forall l, P l /\ forall a, P (a :: l)).
  { induction l as [|x l [IH1 IH2]]; split; auto. }
  intros l. apply H.
Qed.

Lemma range_step2_SS (n : nat) :
  range_step2 (S (S n)) = 0 :: map (fun i => 2 + i) (range_step2 n).
Proof.
  unfold range_step2.
  replace ((S (S n) + 1) / 2) with (S ((n + 1) / 2)).
  - rewrite <- cons_seq. cbn [map]. f_equal.
    rewrite <- seq_shift, !map_map. apply map_ext. intros k. lia.
  - replace (S (S n) + 1) with (n + 1 + 1 * 2) by lia.
    rewrite Nat.div_add by lia. lia.
Qed.

Lemma get_text_tokens_pairs (t : str) : get_text_tokens t = pairs t.
Proof.
  induction t as [|a|a b r IH] using list_ind2; try reflexivity.
  unfold get_text_tokens in *. cbn [length]. rewrite range_step2_SS.
  cbn [map pairs]. f_equal. rewrite map_map, <- IH.
  apply map_ext. intros i. unfold slice.
  now replace (2 + i + 2 - (2 + i)) with (i + 2 - i) by lia.
Qed.

Lemma join_pairs (t : str) : join (pairs t) = t.
Proof.
  unfold join. induction t as [|a|a b r IH] using list_ind2; try reflexivity.
  cbn [pairs concat app]. now rewrite IH.
Qed.

Lemma pairs_nonempty (t m : str) : In m (pairs t) -> m <> [].
Proof.
  induction t as [|a|a b r IH] using list_ind2; cbn [pairs].
  - intros [].
  - intros [<-|[]]. discriminate.
  - intros [<-|H]; [discriminate | now apply IH].
Qed.

Lemma length_pairs (t : str) : length (pairs t) = (length t + 1) / 2.
Proof.
  induction t as [|a|a b r IH] using list_ind2; try reflexivity.
  cbn [pairs length]. rewrite IH.
  replace (S (S (length r)) + 1) with (length r + 1 + 1 * 2) by lia.
  rewrite Nat.div_add by lia. lia.
Qed.

(** ** The chunks of the encoder *)

Lemma anchor_rev_not_anchor (password a : str) :
  In a (get_password_tokens password) ->
  ~ In (rev a) (get_password_tokens password).
Proof.
  rewrite get_password_tokens_anchors_spec. unfold anchors_spec.
  intros H Hr. apply filter_In in H. destruct H as [_ H].
  apply filter_In in Hr. destruct Hr as [Hr _].
  unfold valid_window in H. apply andb_prop in H. destruct H as [_ H].
  apply negb_true_iff, mem_not_In in H. contradiction.
Qed.

Lemma dir_in_rev (password a : str) (d : direction) :
  dir_in (get_password_tokens password) a = Some d ->
  dir_in (get_password_tokens password) (rev a) = None.
Proof.
  intros H. apply dir_in_None. apply anchor_rev_not_anchor.
  now apply dir_in_Some with d.
Qed.

Lemma encode_chunk_ok (password m : str) (g g' : rng) (chunk : list str) :
  m <> [] ->
  encode_chunk password (get_password_tokens password) m g = Ret chunk g' ->
  chunk_ok (get_password_tokens password) m chunk.
Proof.
  intros Hm H.
  assert (Hne : get_password_tokens password <> []).
  { intros E. rewrite (encode_chunk_no_anchor password m g E) in H.
    discriminate. }
  pose proof (encode_chunk_follows password m g Hne) as Hp.
  rewrite H in Hp. unfold follows_protocol in Hp. destruct Hp as [_ Hp].
  split; [exact Hm|].
  set (anchors := get_password_tokens password) in *.
  destruct (dir_in anchors m) as [[|]|].
  - destruct Hp as [a [_ [Hd ->]]]. now exists a.
  - destruct Hp as [a [_ [Hd ->]]]. now exists a.
  - destruct (dir_in anchors (rev m)) as [d|] eqn:Er.
    + destruct Hp as [a [g1 [_ [Hd [[Hn [_ ->]]|[-> [b [_ [Hb ->]]]]]]]]].
      * left. now exists a.
      * right. split; [congruence|]. now exists b.
    + destruct Hp as [a [_ [[Hd ->]|[Hd ->]]]]; exists a; [now left | now right].
Qed.

Lemma encode_chunks_ok (password : str) (msgs : list str) :
  forall g g' chunks,
    (forall m, In m msgs -> m <> []) ->
    encode_chunks password (get_password_tokens password) msgs g
    = Ret chunks g' ->
    Forall2 (chunk_ok (get_password_tokens password)) msgs chunks.
Proof.
  induction msgs as [|m ms IH]; intros g g' chunks Hm H.
  - inversion H. constructor.
  - cbn [encode_chunks] in H. apply bind_ret in H.
    destruct H as [c [g1 [Hc H]]]. apply bind_ret in H.
    destruct H as [cs [g2 [Hcs H]]]. unfold ret in H.
    assert (Echunks : chunks = c :: cs) by (inversion H; reflexivity).
    rewrite Echunks. constructor.
    + apply (encode_chunk_ok password m g g1); [apply Hm; now left | exact Hc].
    + apply (IH g1 g2); [intros m' Hm'; apply Hm; now right | exact Hcs].
Qed.


(** The events of a chunk do not depend on its neighbours: the decoder
    emits the message token once and does not trim. *)
Lemma chunk_events (password m : str) (c : list str) (x y : str) :
  let anchors := get_password_tokens password in
  chunk_ok anchors m c ->
  emitted (scan anchors x c y) = [m] /\ has_trim (scan anchors x c y) = false.
Proof.
  intros anchors [Hm H].
  assert (Hrm : str_eqb (rev m) [] = false).
  { apply str_eqb_neq. intros E. apply Hm.
    rewrite <- (rev_involutive m), E. reflexivity. }
  assert (Hm0 : str_eqb m [] = false) by now apply str_eqb_neq.
  assert (Hrr : str_eqb (rev (rev m)) m = true)
    by (rewrite rev_involutive; apply str_eqb_refl).
  assert (Hneq : forall a d, dir_in anchors a = Some d ->
             dir_in anchors (rev m) = None -> str_eqb (rev m) a = false).
  { intros a d Ha Hr. apply str_eqb_neq. intros E. rewrite E in Hr. congruence. }
  destruct (dir_in anchors m) as [[|]|] eqn:Edm.
  - (* m is a before-anchor *)
    destruct H as [a [Ha ->]].
    pose proof (dir_in_rev password m before Edm) as Hr. fold anchors in Hr.
    cbn [scan hd]. unfold token_event.
    rewrite Hr, Edm, Ha, Hrm, Hm0, Hrr, (Hneq a before Ha Hr). now split.
  - (* m is an after-anchor *)
    destruct H as [a [Ha ->]].
    pose proof (dir_in_rev password m after Edm) as Hr. fold anchors in Hr.
    cbn [scan hd]. unfold token_event.
    rewrite Hr, Edm, Ha, Hrm, Hm0, Hrr, (Hneq a after Ha Hr). now split.
  - destruct (dir_in anchors (rev m)) as [d|] eqn:Er.
    + destruct H as [[a [Ha [Hn ->]]]|[-> [b [Hb ->]]]].
      * cbn [scan hd]. unfold token_event. rewrite Ha, Edm, Hm0.
        replace (str_eqb (rev m) a) with false
          by (symmetry; apply str_eqb_neq; congruence).
        now split.
      * cbn [scan hd]. unfold token_event. rewrite Hb, Edm, Hm0.
        replace (str_eqb (rev m) b) with false
          by (symmetry; apply str_eqb_neq; intros E; rewrite E in Er;
              congruence).
        now split.
    + destruct H as [a [[Ha ->]|[Ha ->]]];
        cbn [scan hd]; unfold token_event;
        rewrite Ha, Edm, Hm0, (Hneq a _ Ha eq_refl); now split.
Qed.

(** ** The decoder on the flattened grid *)

Lemma mod_add_small (w p k : nat) :
  w <> 0 -> p mod w + k < w -> (p + k) mod w = p mod w + k.
Proof.
  intros Hw H. rewrite (Nat.div_mod p w Hw) at 1.
  replace (w * (p / w) + p mod w + k) with (p mod w + k + (p / w) * w) by lia.
  rewrite Nat.Div0.mod_add. now apply Nat.mod_small.
Qed.

(** A run of slots within one row: its events are the scan of the run
    between two neighbours. *)
Lemma seg_events (valid : list str) (w : nat) (G : list str) (seg : list str) :
  w <> 0 ->
  forall p x,
    (seg <> [] -> x = if p mod w =? 0 then [] else nth (p - 1) G []) ->
    p mod w + length seg <= w ->
    (forall k, k < length seg -> nth (p + k) G [] = nth k seg []) ->
    map (ev_at valid w G) (seq p (length seg)) =
    scan valid x seg
      (if p mod w + length seg =? w then [] else nth (p + length seg) G []).
Proof.
  intros Hw. induction seg as [|tok seg IH]; intros p x Hx Hrow Hnth;
    [reflexivity|].
  cbn [length seq map scan]. cbn [length] in Hrow.
  assert (Htok : nth p G [] = tok).
  { rewrite <- (Nat.add_0_r p). rewrite (Hnth 0) by (cbn; lia). reflexivity. }
  f_equal.
  - unfold ev_at. rewrite Htok, (Hx ltac:(discriminate)). f_equal.
    destruct seg as [|t2 seg'].
    + cbn [hd length]. rewrite !Nat.add_1_r. reflexivity.
    + cbn [hd]. cbn [length] in Hrow.
      replace (S (p mod w) =? w) with false
        by (symmetry; apply Nat.eqb_neq; lia).
      replace (S p) with (p + 1) by lia.
      rewrite (Hnth 1) by (cbn; lia). reflexivity.
  - destruct seg as [|t2 seg']; [reflexivity|].
    cbn [length] in Hrow.
    assert (Hmod : S p mod w = S (p mod w)).
    { replace (S p) with (p + 1) by lia.
      rewrite mod_add_small by lia. lia. }
    rewrite (IH (S p) tok).
    + f_equal. rewrite Hmod.
      replace (S (p mod w) + length (t2 :: seg'))
        with (p mod w + S (length (t2 :: seg'))) by lia.
      replace (S p + length (t2 :: seg'))
        with (p + S (length (t2 :: seg'))) by lia.
      reflexivity.
    + intros _. rewrite Hmod. cbn [Nat.eqb].
      replace (S p - 1) with p by lia. now rewrite Htok.
    + rewrite Hmod. cbn [length]. lia.
    + intros k Hk. replace (S p + k) with (p + S k) by lia.
      rewrite (Hnth (S k)) by (cbn [length] in *; lia). reflexivity.
Qed.

(** The events of a rectangular grid, read off its flattening. *)
Lemma grid_events_flat (valid : list str) (w : nat) (grid : list (list str)) :
  w <> 0 -> (forall row, In row grid -> length row = w) ->
  grid_events valid grid =
  map (ev_at valid w (concat grid)) (seq 0 (length (concat grid))).
Proof.
  intros Hw. unfold grid_events.
  assert (Hgen : forall pre, length pre mod w = 0 ->
            (forall row, In row grid -> length row = w) ->
            flat_map (fun line => scan valid [] line []) grid =
            map (ev_at valid w (pre ++ concat grid))
              (seq (length pre) (length (concat grid)))).
  { induction grid as [|row grid IH]; intros pre Hpre Hrows; [reflexivity|].
    assert (Hrow : length row = w) by (apply Hrows; now left).
    cbn [flat_map concat]. rewrite length_app, seq_app, map_app.
    f_equal.
    - rewrite (seg_events valid w (pre ++ row ++ concat grid) row Hw
                 (length pre) []).
      + rewrite Hpre, Hrow, Nat.add_0_l, Nat.eqb_refl. reflexivity.
      + intros _. now rewrite Hpre.
      + rewrite Hpre, Hrow. lia.
      + intros k Hk. rewrite app_nth2 by lia.
        replace (length pre + k - length pre) with k by lia.
        now rewrite app_nth1 by lia.
    - rewrite (IH (pre ++ row)).
      + rewrite <- app_assoc, length_app. reflexivity.
      + rewrite length_app, Hrow.
        rewrite <- Nat.Div0.add_mod_idemp_l, Hpre, Nat.add_0_l.
        apply Nat.Div0.mod_same.
      + intros r Hr. apply Hrows. now right. }
  intros Hrows. apply (Hgen [] (Nat.Div0.mod_0_l w) Hrows).
Qed.

Lemma Forall2_nth (A B : Type) (R : A -> B -> Prop) (l1 : list A)
  (l2 : list B) (q : nat) (s : A) :
  Forall2 R l1 l2 -> nth_error l1 q = Some s ->
  exists t, nth_error l2 q = Some t /\ R s t.
Proof.
  intros H. revert q. induction H as [|a b l1 l2 Hab _ IH]; intros q Hq.
  - destruct q; discriminate.
  - destruct q as [|q]; cbn in *.
    + inversion Hq. subst. now exists b.
    + now apply IH.
Qed.

Lemma skipn_nth_cons (A : Type) (l : list A) (q : nat) (s : A) :
  nth_error l q = Some s -> skipn q l = s :: skipn (S q) l.
Proof.
  intros H.
  assert (Hq : q < length l) by (apply nth_error_Some; congruence).
  rewrite <- (firstn_skipn_middle _ _ H) at 1.
  rewrite skipn_app, length_firstn.
  rewrite skipn_all2 by (rewrite length_firstn; lia).
  now replace (q - Nat.min q (length l)) with 0 by lia.
Qed.

Section Decoding.

Variables (valid msgs : list str) (w : nat) (G : list str).

(** The event of a slot that is not part of a chunk: nothing for a noise
    token, the trim flag for the padding anchor. *)
Lemma gap_event (s : slot) (q : nat) :
  filled valid msgs s (nth q G []) ->
  (forall a, s = Some a -> pad_like valid w a q) ->
  ev_at valid w G q = if is_none s then Skip else Trim.
Proof.
  intros Hf Hpad. unfold ev_at, token_event. destruct s as [a|].
  - cbn in Hf. rewrite Hf. specialize (Hpad a eq_refl).
    unfold pad_like in Hpad. cbn [is_none].
    destruct (dir_in valid a) as [[|]|]; [| |destruct Hpad].
    + now rewrite Hpad.
    + rewrite Hpad, Nat.eqb_refl. reflexivity.
  - cbn in Hf. destruct Hf as [_ [Hn _]].
    apply dir_in_None in Hn. now rewrite Hn.
Qed.

Lemma gap_events (F0 fl : list slot) :
  Forall2 (filled valid msgs) F0 G ->
  forall n lo,
    lo + n <= length fl ->
    (forall q, lo <= q < lo + n -> nth_error F0 q = nth_error fl q) ->
    (forall q a, lo <= q < lo + n -> nth_error fl q = Some (Some a) ->
                 pad_like valid w a q) ->
    emitted (map (ev_at valid w G) (seq lo n)) = [] /\
    has_trim (map (ev_at valid w G) (seq lo n))
    = has_token (firstn n (skipn lo fl)).
Proof.
  intros HF. induction n as [|n IH]; intros lo Hlen Hsame Hpad; [now split|].
  destruct (nth_error fl lo) as [s|] eqn:Es;
    [|apply nth_error_None in Es; lia].
  assert (HF0 : nth_error F0 lo = Some s) by (rewrite Hsame; [exact Es | lia]).
  destruct (Forall2_nth _ _ _ _ _ lo s HF HF0) as [t [Ht Hst]].
  assert (Hev : ev_at valid w G lo = if is_none s then Skip else Trim).
  { apply gap_event.
    - now rewrite (nth_error_nth _ _ _ Ht).
    - intros a ->. apply Hpad; [lia | exact Es]. }
  destruct (IH (S lo)) as [He Htr].
  - lia.
  - intros q Hq. apply Hsame. lia.
  - intros q a Hq. apply Hpad. lia.
  - cbn [seq map]. rewrite Hev, (skipn_nth_cons _ _ _ _ Es).
    cbn [firstn]. unfold has_token in *. cbn [existsb].
    destruct s as [a|]; cbn [is_none negb emitted has_trim orb];
      [now split | split; assumption].
Qed.

End Decoding.

Lemma chunk_ok_length (anchors : list str) (m : str) (c : list str) :
  chunk_ok anchors m c -> length c = 2 \/ length c = 3.
Proof.
  intros [_ H].
  destruct (dir_in anchors m) as [[|]|].
  - destruct H as [a [_ ->]]. now right.
  - destruct H as [a [_ ->]]. now right.
  - destruct (dir_in anchors (rev m)).
    + destruct H as [[a [_ [_ ->]]]|[_ [b [_ ->]]]]; now left.
    + destruct H as [a [[_ ->]|[_ ->]]]; now left.
Qed.


Lemma has_token_app (l1 l2 : list slot) :
  has_token (l1 ++ l2) = has_token l1 || has_token l2.
Proof. apply existsb_app. Qed.

Lemma has_token_repeat (n : nat) : has_token (repeat None n) = false.
Proof. induction n as [|n IH]; [reflexivity | exact IH]. Qed.

Lemma skipn_paste (fl : list slot) (p : nat) (c : list str) :
  p + length c <= length fl ->
  skipn (p + length c) (paste fl p c) = skipn (p + length c) fl.
Proof.
  intros H. unfold paste. rewrite app_assoc, skipn_app.
  rewrite skipn_all2
    by (rewrite length_app, length_firstn, length_map; lia).
  rewrite length_app, length_firstn, length_map.
  now replace (p + length c - (Nat.min p (length fl) + length c)) with 0 by lia.
Qed.

(** The events of the flattened grid from position [lo] on: the decoder
    emits the message tokens of the chunks placed from there on, and sets
    the trim flag exactly when a padding anchor stands there. *)
Lemma decode_core (password : str) (msgs : list str) (w : nat) (G : list str) :
  let valid := get_password_tokens password in
  w <> 0 ->
  forall cs ms fl lo ps,
    length fl = length G ->
    placed w fl lo cs ps ->
    Forall2 (chunk_ok valid) ms cs ->
    Forall2 (filled valid msgs) (paste_all fl ps cs) G ->
    (forall q a, lo <= q -> nth_error fl q = Some (Some a) ->
                 pad_like valid w a q) ->
    lo <= length G ->
    emitted (map (ev_at valid w G) (seq lo (length G - lo))) = ms /\
    has_trim (map (ev_at valid w G) (seq lo (length G - lo)))
    = has_token (skipn lo fl).
Proof.
  intros valid Hw.
  induction cs as [|c cs IH]; intros ms fl lo ps Hlen Hpl Hok HF Hpad Hlo.
  - inversion Hpl; subst. inversion Hok; subst. cbn [paste_all] in HF.
    destruct (gap_events valid msgs w G fl fl HF (length G - lo) lo)
      as [He Ht]; [lia | reflexivity | intros q a Hq; apply Hpad; lia|].
    split; [exact He|]. rewrite Ht. f_equal. apply firstn_all2.
    rewrite length_skipn. lia.
  - inversion Hpl as [|lo' c' cs' p ps' Hp Hrow Hfree Hrest]; subst.
    inversion Hok as [|m c' ms' cs' Hc Hoks]; subst.
    cbn [paste_all] in HF.
    set (L := length c) in *.
    assert (HL : L <> 0)
      by (destruct (chunk_ok_length _ _ _ Hc); unfold L; lia).
    assert (Hb : p + L <= length fl) by now apply free_run_bound.
    assert (Hmv : placed w (paste fl p c) (p + L) cs ps')
      by (apply placed_move; [exact Hfree | unfold L; lia | exact Hrest]).
    set (F0 := paste_all (paste fl p c) ps' cs) in *.
    assert (HF0 : forall q, q < p + L ->
              nth_error F0 q = nth_error (paste fl p c) q)
      by (intros q Hq; apply (paste_all_before w cs _ (p + L)); assumption).
    (* split the positions *)
    replace (length G - lo) with ((p - lo) + (L + (length G - (p + L))))
      by lia.
    rewrite !seq_app, !map_app, !emitted_app, !has_trim_app.
    replace (lo + (p - lo)) with p by lia.
    (* the gap before the chunk *)
    destruct (gap_events valid msgs w G F0 fl HF (p - lo) lo)
      as [HeA HtA].
    { lia. }
    { intros q Hq. rewrite HF0 by lia.
      rewrite paste_free_nth by exact Hfree.
      now replace (p <=? q) with false by (symmetry; apply Nat.leb_gt; lia). }
    { intros q a Hq. apply Hpad. lia. }
    (* the chunk *)
    assert (Hseg : forall k, k < L -> nth (p + k) G [] = nth k c []).
    { intros k Hk.
      destruct (nth_error c k) as [tok|] eqn:Ek;
        [|apply nth_error_None in Ek; unfold L in Hk; lia].
      assert (Hq : nth_error F0 (p + k) = Some (Some tok)).
      { rewrite HF0 by lia. rewrite paste_free_nth by exact Hfree.
        replace (p <=? p + k) with true by (symmetry; apply Nat.leb_le; lia).
        replace (p + k <? p + length c) with true
          by (symmetry; apply Nat.ltb_lt; unfold L in Hk; lia).
        cbn [andb]. replace (p + k - p) with k by lia. now rewrite Ek. }
      destruct (Forall2_nth _ _ _ _ _ _ _ HF Hq) as [t [Ht Hst]].
      cbn in Hst. subst t.
      rewrite (nth_error_nth _ _ _ Ht). symmetry.
      now apply nth_error_nth. }
    pose proof (seg_events valid w G c Hw p
                  (if p mod w =? 0 then [] else nth (p - 1) G [])
                  (fun _ => eq_refl) Hrow Hseg) as HevB.
    fold L in HevB. rewrite HevB.
    match goal with
    | |- context [emitted (scan _ ?x c ?y)] =>
        destruct (chunk_events password m c x y Hc) as [HeB HtB]
    end.
    cbv zeta in HeB, HtB. fold valid in HeB, HtB. rewrite HeB, HtB.
    (* the rest *)
    destruct (IH ms' (paste fl p c) (p + L) ps') as [HeC HtC].
    { rewrite paste_length by exact Hb. exact Hlen. }
    { exact Hmv. }
    { exact Hoks. }
    { exact HF. }
    { intros q a Hq Hqa. apply Hpad; [lia|].
      rewrite paste_free_nth in Hqa by exact Hfree.
      replace (q <? p + length c) with false in Hqa
        by (symmetry; apply Nat.ltb_ge; unfold L in Hq; lia).
      now rewrite andb_false_r in Hqa. }
    { lia. }
    rewrite HeA, HeC, HtA, HtC. split; [reflexivity|].
    unfold L. rewrite skipn_paste by exact Hb.
    transitivity (has_token (firstn (p - lo) (skipn lo fl) ++
                             repeat None (length c) ++
                             skipn (p + length c) fl)).
    + now rewrite !has_token_app, has_token_repeat.
    + f_equal. unfold L in Hfree.
      rewrite <- (free_run_firstn _ _ _ Hfree).
      replace (skipn (p + length c) fl)
        with (skipn (length c) (skipn p fl))
        by (rewrite skipn_skipn; f_equal; lia).
      rewrite firstn_skipn.
      replace (skipn p fl) with (skipn (p - lo) (skipn lo fl))
        by (rewrite skipn_skipn; f_equal; lia).
      apply firstn_skipn.
Qed.

Lemma padded_flat_nth (anchors : list str) (w total : nat) (pad : bool)
  (flat : list slot) (q : nat) (a : str) :
  w <> 0 ->
  padded_flat anchors w total pad flat ->
  nth_error flat q = Some (Some a) -> pad_like anchors w a q.
Proof.
  intros Hw Hflat Hq. unfold padded_flat in Hflat. destruct pad.
  - destruct Hflat as [a0 [d [q0 [Hd [Hq0 [-> Hcol]]]]]].
    destruct (Nat.lt_trichotomy q q0) as [Hlt|[->|Hgt]].
    + rewrite nth_error_app1 in Hq by (rewrite repeat_length; lia).
      rewrite nth_error_repeat_lt in Hq by lia. discriminate.
    + rewrite nth_error_app2 in Hq by (rewrite repeat_length; lia).
      rewrite repeat_length, Nat.sub_diag in Hq. cbn in Hq.
      inversion Hq. subst a0. unfold pad_like. rewrite Hd.
      destruct d; [exact Hcol | lia].
    + rewrite nth_error_app2 in Hq by (rewrite repeat_length; lia).
      rewrite repeat_length in Hq.
      destruct (q - q0) as [|k] eqn:Ek; [lia|]. cbn in Hq.
      apply nth_error_In, repeat_spec in Hq. discriminate.
  - subst flat. apply nth_error_In, repeat_spec in Hq. discriminate.
Qed.

Lemma padded_flat_has_token (anchors : list str) (w total : nat) (pad : bool)
  (flat : list slot) :
  padded_flat anchors w total pad flat -> has_token flat = pad.
Proof.
  unfold padded_flat. destruct pad.
  - intros [a [d [q [_ [_ [-> _]]]]]].
    rewrite has_token_app, has_token_repeat. reflexivity.
  - intros ->. apply has_token_repeat.
Qed.

Lemma Forall2_rows_length (A B : Type) (R : A -> B -> Prop) (w : nat)
  (l1 : list (list A)) (l2 : list (list B)) :
  Forall2 (Forall2 R) l1 l2 ->
  (forall row, In row l1 -> length row = w) ->
  forall row, In row l2 -> length row = w.
Proof.
  induction 1 as [|r1 r2 l1 l2 Hr _ IH]; intros H1 row Hrow; [destruct Hrow|].
  destruct Hrow as [<-|Hrow].
  - rewrite <- (Forall2_length Hr). apply H1. now left.
  - apply IH; [|exact Hrow]. intros r Hr'. apply H1. now right.
Qed.

(** The decoder on a grid returned by the encoder. *)
Lemma decode_filled (password : str) (msgs : list str) (w : nat) (pad : bool)
  (lines1 placed : list (list slot)) (chunks : list (list str))
  (ps : list nat) (grid : list (list str)) :
  let anchors := get_password_tokens password in
  w <> 0 -> rectangular w lines1 -> lines1 <> [] ->
  padded_flat anchors w (length lines1 * w) pad (concat lines1) ->
  placement_of lines1 placed chunks ps ->
  Forall2 (chunk_ok anchors) msgs chunks ->
  Forall2 (Forall2 (filled anchors msgs)) placed grid ->
  decode grid password =
  Ok (if pad then drop_last (join msgs) else join msgs).
Proof.
  intros anchors Hw Hrect Hne Hflat Hp Hok Hfill.
  destruct (placement_of_width w _ _ _ _ Hrect Hne Hp)
    as [Hpl [Hcat [Hrect' Hlen']]].
  assert (Hrows : forall row, In row grid -> length row = w)
    by (apply (Forall2_rows_length _ _ _ w _ _ Hfill); exact Hrect').
  pose proof (Forall2_concat _ _ _ _ _ Hfill) as HF. rewrite Hcat in HF.
  assert (HlenG : length (concat lines1) = length (concat grid)).
  { rewrite <- (paste_all_length w chunks (concat lines1) 0 ps Hpl).
    apply (Forall2_length HF). }
  destruct (decode_core password msgs w (concat grid) Hw chunks msgs
              (concat lines1) 0 ps HlenG Hpl Hok HF) as [He Ht].
  { intros q a _ Hq. now apply (padded_flat_nth _ _ _ _ _ _ _ Hw Hflat). }
  { lia. }
  rewrite Nat.sub_0_r in He, Ht. cbn [skipn] in Ht.
  rewrite (padded_flat_has_token _ _ _ _ _ Hflat) in Ht.
  rewrite decode_events. cbv zeta. subst anchors.
  rewrite (grid_events_flat _ w grid Hw Hrows), He, Ht. reflexivity.
Qed.

Lemma drop_last_app (t : str) (ch : ascii) : drop_last (t ++ [ch]) = t.
Proof. apply removelast_last. Qed.

Lemma join_message_tokens (text : str) (g : rng) :
  (if needs_padding text
   then drop_last (join (get_text_tokens (padded_text text g)))
   else join (get_text_tokens (padded_text text g))) = text.
Proof.
  rewrite get_text_tokens_pairs, join_pairs.
  destruct (pad_text_ret text g)
    as [g1 [_ [[Hn [Hp _]]|[Hn [ch [_ Hp]]]]]]; rewrite Hn, Hp.
  - reflexivity.
  - apply drop_last_app.
Qed.

(** ** The tight fit succeeds on a grid that is large enough *)


Lemma scan_slot_finds (w : nat) (flat : list slot) (len : nat) :
  w <> 0 ->
  forall n pos q,
    pos <= q < pos + n ->
    fits w flat q len = Ok true ->
    (forall p, pos <= p < pos + n -> p + len <= length flat) ->
    exists p, scan_slot n w flat pos len = Ok (Some p) /\ pos <= p <= q.
Proof.
  intros Hw. induction n as [|n IH]; intros pos q Hq Hfit Hb; [lia|].
  cbn [scan_slot].
  destruct (fits_total w flat pos len Hw) as [b Hfb]; [apply Hb; lia|].
  rewrite Hfb. cbn [rbind]. destruct b.
  - exists pos. split; [reflexivity | lia].
  - assert (Hne : pos <> q) by (intros ->; congruence).
    destruct (IH (S pos) q) as [p [Hp Hr]];
      [lia | exact Hfit | intros p Hp; apply Hb; lia|].
    exists p. split; [exact Hp | lia].
Qed.




(** ** The encoder on a rectangular grid *)

Lemma encode_rect_outcome (fuel : nat) (text password : str) (w c : Z)
  (g g1 g2 : rng) (chunks : list (list str)) :
  let anchors := get_password_tokens password in
  let msgs := get_text_tokens (padded_text text g) in
  let w' := if (c <? w)%Z then Z.to_nat c else Z.to_nat w in
  let n := if (c <? w)%Z then 1 else Z.to_nat (c / w) in
  (1 <= w)%Z -> (1 <= c)%Z -> (c <= w)%Z \/ (c mod w = 0)%Z ->
  pad_text text g = Ret (padded_text text g) g1 ->
  encode_chunks password anchors msgs g1 = Ret chunks g2 ->
  exists lines1 g3,
    rectangular w' lines1 /\ length lines1 = n /\ w' <> 0 /\ n <> 0 /\
    padded_flat anchors w' (n * w') (needs_padding text) (concat lines1) /\
    match spread_chunks_with_fallback lines1 chunks g3 with
    | Ret placed g4 =>
        (exists ps, placement_of lines1 placed chunks ps) /\
        source g4 = source g /\
        encode fuel text password w c g
        = fill_noise fuel anchors msgs placed g4
    | Exc e =>
        tightly_fit_chunks lines1 chunks = Raise RuntimeError_no_slot /\
        encode fuel text password w c g = Exc RuntimeError_no_slot
    | Spin => False
    end.
Proof.
  intros anchors msgs w' n Hw Hc Hcw Hpad Hch.
  destruct (encode_placed_rect text password w c g g1 g2 chunks
              Hw Hc Hcw Hpad Hch)
    as [lines1 [g3 [Hrect [Hlen [Hw' [Hn [Hnw [Hflat [Hs3 Heq]]]]]]]]].
  fold w' n in Hrect, Hlen, Hw', Hn, Hnw, Hflat.
  fold anchors msgs in Heq.
  assert (Hne : lines1 <> [])
    by (intros E; rewrite E in Hlen; cbn in Hlen; lia).
  exists lines1, g3. repeat (split; [assumption|]).
  pose proof (spread_rect_outcome w' lines1 chunks g3 Hrect Hne Hw') as Hout.
  destruct (spread_chunks_with_fallback lines1 chunks g3)
    as [placed g4|e|] eqn:Es.
  - split; [|split].
    + apply (spread_placed _ _ _ _ _ (rectangular_grid_shaped w' _ Hrect) Es).
    + rewrite <- Hs3. apply (keeps_spread _ _ _ _ _ Es).
    + unfold encode. unfold bind at 1. rewrite Heq.
      unfold bind. rewrite Es. reflexivity.
  - destruct Hout as [-> Ht]. split; [exact Ht|].
    unfold encode. apply bind_exc_eq. rewrite Heq. now apply bind_exc_eq.
  - exact Hout.
Qed.


(** ** Round trip *)




(** ** Noise exclusivity *)

Lemma lines_loop_empty (n : nat) (w t : Z) (s : slot) :
  In s (concat (lines_loop n w t)) -> s = None.
Proof.
  revert t. induction n as [|n IH]; intros t H; [destruct H|].
  cbn [lines_loop concat] in H. apply in_app_or in H. destruct H as [H|H].
  - destruct (t >? w)%Z; now apply repeat_spec in H.
  - now apply IH in H.
Qed.

Lemma in_concat_set (A : Type) (lines : list (list A)) (i : nat)
  (row : list A) (lines' : list (list A)) (x : A) :
  list_set lines i row = Ok lines' ->
  In x (concat lines') -> In x row \/ In x (concat lines).
Proof.
  intros H Hx. apply in_concat in Hx. destruct Hx as [r [Hr Hxr]].
  destruct (list_set_In _ _ _ _ _ _ H Hr) as [->|Hin].
  - now left.
  - right. apply in_concat. now exists r.
Qed.

Lemma place_padding_tokens (password : str) (lines lines1 : list (list slot))
  (g g' : rng) (t : str) :
  place_padding password (get_password_tokens password) lines g
  = Ret lines1 g' ->
  In (Some t) (concat lines1) ->
  In t (get_password_tokens password) \/ In (Some t) (concat lines).
Proof.
  unfold place_padding. intros H Ht.
  apply bind_ret in H. destruct H as [a [g1 [Ha H]]].
  apply choice_ret in Ha. destruct Ha as [Ha _].
  apply bind_ret in H. destruct H as [idx [g2 [_ H]]].
  apply bind_ret in H. destruct H as [d [g3 [_ H]]].
  apply lift_ret in H. destruct H as [H _].
  apply rbind_ok in H. destruct H as [row [Hrow H]].
  apply rbind_ok in H. destruct H as [row' [Hrow' H]].
  destruct (in_concat_set _ _ _ _ _ _ H Ht) as [Hin|Hin]; [|now right].
  assert (Hcase : Some t = Some a \/ In (Some t) row).
  { destruct d; [|unfold set_last in Hrow'];
      apply (list_set_In _ _ _ _ _ _ Hrow' Hin). }
  destruct Hcase as [E|Hr].
  - left. inversion E. now subst.
  - right. apply in_concat. exists row. split; [|exact Hr].
    apply list_get_ok in Hrow. eapply nth_error_In; eauto.
Qed.

Lemma paste_tokens (fl : list slot) (p : nat) (c : list str) (s : slot) :
  In s (paste fl p c) -> In s fl \/ exists tok, In tok c /\ s = Some tok.
Proof.
  unfold paste. intros H. apply in_app_or in H. destruct H as [H|H].
  - left. now apply in_firstn in H.
  - apply in_app_or in H. destruct H as [H|H].
    + right. apply in_map_iff in H. destruct H as [tok [E Hin]].
      now exists tok.
    + left. now apply in_skipn in H.
Qed.

Lemma paste_all_tokens (chunks : list (list str)) :
  forall (fl : list slot) (ps : list nat) (s : slot),
    In s (paste_all fl ps chunks) ->
    In s fl \/ exists tok, In tok (concat chunks) /\ s = Some tok.
Proof.
  induction chunks as [|c cs IH]; intros fl ps s H.
  - left. now rewrite paste_all_nil in H.
  - destruct ps as [|p ps]; [now left|]. cbn [paste_all] in H.
    destruct (IH _ _ _ H) as [Hin|[tok [Hin E]]].
    + destruct (paste_tokens _ _ _ _ Hin) as [Hfl|[tok [Ht E]]];
        [now left|].
      right. exists tok. split; [|exact E]. cbn [concat].
      apply in_or_app. now left.
    + right. exists tok. split; [|exact E]. cbn [concat].
      apply in_or_app. now right.
Qed.

Lemma write_back_tokens (lines : list (list slot)) :
  forall (flat : list slot) (w idx : nat) (lines' : list (list slot)) (s : slot),
    write_back lines flat w idx = Ok lines' ->
    In s (concat lines') -> In s flat \/ In s (concat lines).
Proof.
  induction lines as [|row lines IH]; intros flat w idx lines' s H Hs.
  - inversion H. subst. destruct Hs.
  - cbn [write_back] in H. apply rbind_ok in H.
    destruct H as [[row' idx'] [Hrow H]]. apply rbind_ok in H.
    destruct H as [rest' [Hrest H]]. inversion H. subst lines'.
    cbn [fst snd concat] in *.
    apply write_line_ok in Hrow. destruct Hrow as [_ [_ ->]].
    apply in_app_or in Hs. destruct Hs as [Hs|Hs].
    + cbn [firstn app] in Hs. apply in_app_or in Hs. destruct Hs as [Hs|Hs].
      * left. apply in_firstn in Hs. now apply in_skipn in Hs.
      * right. apply in_or_app. left. now apply in_skipn in Hs.
    + destruct (IH _ _ _ _ _ Hrest Hs) as [Hf|Hl]; [now left|].
      right. apply in_or_app. now right.
Qed.

Lemma spread_tokens (lines placed : list (list slot))
  (chunks : list (list str)) (g g' : rng) (s : slot) :
  spread_chunks_with_fallback lines chunks g = Ret placed g' ->
  In s (concat placed) ->
  In s (concat lines) \/ exists tok, In tok (concat chunks) /\ s = Some tok.
Proof.
  unfold spread_chunks_with_fallback. intros H Hs.
  apply bind_ret in H. destruct H as [first [g1 [_ H]]].
  revert g1 H. generalize max_attempts. intros n.
  induction n as [|n IH]; intros g1 H; cbn [spread_attempts] in H.
  - apply lift_ret in H. destruct H as [H _].
    unfold tightly_fit_chunks in H.
    apply rbind_ok in H. destruct H as [f [_ H]].
    apply rbind_ok in H. destruct H as [flat' [Ht Hwb]].
    apply tight_loop_placed in Ht. destruct Ht as [ps [_ [-> _]]].
    destruct (write_back_tokens _ _ _ _ _ _ Hwb Hs) as [Hf|Hl]; [|now left].
    now apply paste_all_tokens in Hf.
  - apply bind_ret in H. destruct H as [r [g2 [Hr H]]].
    destruct r as [flat'|]; [|now apply IH with g2].
    apply lift_ret in H. destruct H as [Hwb _].
    apply try_spread_loop_placed in Hr. destruct Hr as [ps [_ [-> _]]].
    destruct (write_back_tokens _ _ _ _ _ _ Hwb Hs) as [Hf|Hl]; [|now left].
    now apply paste_all_tokens in Hf.
Qed.

(** The grid after the placement holds only chunk tokens and, for a text
    of odd length, the padding anchor. *)
Lemma encode_placed_tokens (text password : str) (w c : Z) (g g' : rng)
  (msgs : list str) (placed : list (list slot)) :
  encode_placed text password w c g = Ret (msgs, placed) g' ->
  msgs = get_text_tokens (padded_text text g) /\
  exists chunks,
    (exists g1 g2,
        encode_chunks password (get_password_tokens password) msgs g1
        = Ret chunks g2) /\
    forall t, In (Some t) (concat placed) ->
      In t (concat chunks) \/
      (needs_padding text = true /\ In t (get_password_tokens password)).
Proof.
  intros H. unfold encode_placed in H.
  destruct (pad_text_ret text g) as [g1 [Hpad _]].
  rewrite (bind_ret_eq _ _ _ _ _ _ _ Hpad) in H.
  apply bind_ret in H. destruct H as [chunks [g2 [Hch H]]].
  apply bind_ret in H. destruct H as [lines [g3 [Hl H]]].
  apply lift_ret in Hl. destruct Hl as [Hl _].
  apply bind_ret in H. destruct H as [lines1 [g4 [Hp H]]].
  apply bind_ret in H. destruct H as [placed' [g5 [Hs H]]].
  unfold ret in H. inversion H. subst msgs placed' g5.
  split; [reflexivity|]. exists chunks. split; [now exists g1, g2|].
  intros t Ht.
  assert (Hempty : forall s, In s (concat lines) -> s = None).
  { unfold setup_lines in Hl. destruct (w =? 0)%Z; [discriminate|].
    inversion Hl. intros s. apply lines_loop_empty. }
  destruct (spread_tokens _ _ _ _ _ _ Hs Ht) as [Hin|[tok [Hin E]]].
  - right. destruct (needs_padding text).
    + split; [reflexivity|].
      destruct (place_padding_tokens _ _ _ _ _ _ Hp Hin) as [Ha|Hn];
        [exact Ha|].
      apply Hempty in Hn. discriminate.
    + unfold ret in Hp. inversion Hp. subst lines1.
      apply Hempty in Hin. discriminate.
  - left. inversion E. now subst.
Qed.

(** C9. In every grid the encoder returns, the slots that the placement
    left empty (those that hold neither a chunk token nor the padding
    anchor) hold noise: a token of two letters or digits that is not an
    anchor, whose reversal is not an anchor and that is not a message
    token; every other slot holds the token placed there.  A noise token
    may be the reversal of a message token, as in the run exhibited. *)
Theorem noise_exclusive :
  (forall fuel text password w c g grid g',
      encode fuel text password w c g = Ret grid g' ->
      let anchors := get_password_tokens password in
      let msgs := get_text_tokens (padded_text text g) in
      exists chunks placed,
        (exists g1 g2,
            encode_chunks password anchors msgs g1 = Ret chunks g2) /\
        (exists g3,
            encode_placed text password w c g = Ret (msgs, placed) g3) /\
        (forall t, In (Some t) (concat placed) ->
                   In t (concat chunks) \/
                   (needs_padding text = true /\ In t anchors)) /\
        Forall2 (Forall2 (filled anchors msgs)) placed grid) /\
  (exists g grid g',
      encode 1 (tk "hi") (tk "hello") 4 8 g = Ret grid g' /\
      nth_error (concat grid) 0 = Some (tk "ih") /\
      noise_token (get_password_tokens (tk "hello")) [tk "hi"] (tk "ih") /\
      In (rev (tk "ih")) (get_text_tokens (tk "hi"))).
Proof.
  split.
  - intros fuel text password w c g grid g' H anchors msgs.
    unfold encode in H. apply bind_ret in H.
    destruct H as [[msgs' placed] [g3 [Hp Hfill]]]. cbn [fst snd] in Hfill.
    destruct (encode_placed_tokens _ _ _ _ _ _ _ _ Hp)
      as [Hm [chunks [Hch Htok]]].
    fold msgs in Hm. subst msgs'. fold anchors in Hch, Htok, Hfill.
    exists chunks, placed. split; [exact Hch|]. split; [now exists g3|].
    split; [exact Htok|].
    pose proof (fill_noise_outcome fuel anchors msgs placed g3) as HF.
    now rewrite Hfill in HF.
  - exists (rng_of_list [0; 0; 0; 0; 0; 0; 0; 8; 7]).
    eexists _, _. split; [vm_compute; reflexivity|].
    split; [reflexivity|]. split.
    + split; [exists "i"%char, "h"%char; cbn; tauto|].
      repeat split; apply mem_not_In; reflexivity.
    + now left.
Qed.

Lemma noise_exclusive_witness :
  exists chunks placed,
    (exists g1 g2,
        encode_chunks (tk "hello") (get_password_tokens (tk "hello"))
          (get_text_tokens (padded_text (tk "hi") (rng_const 0))) g1
        = Ret chunks g2) /\
    (exists g3,
        encode_placed (tk "hi") (tk "hello") 4 8 (rng_const 0)
        = Ret (get_text_tokens (padded_text (tk "hi") (rng_const 0)), placed)
            g3) /\
    (forall t, In (Some t) (concat placed) ->
               In t (concat chunks) \/
               (needs_padding (tk "hi") = true /\
                In t (get_password_tokens (tk "hello")))) /\
    Forall2 (Forall2 (filled (get_password_tokens (tk "hello"))
                        (get_text_tokens (padded_text (tk "hi") (rng_const 0)))))
      placed
      [[tk "aa"; tk "hi"; tk "he"; tk "aa"];
       [tk "aa"; tk "aa"; tk "aa"; tk "aa"]].
Proof.
  apply (proj1 noise_exclusive 1 (tk "hi") (tk "hello") 4%Z 8%Z (rng_const 0)
           [[tk "aa"; tk "hi"; tk "he"; tk "aa"];
            [tk "aa"; tk "aa"; tk "aa"; tk "aa"]]
           (mkRng (fun _ => 0) 19)).
  vm_compute. reflexivity.
Defined.

(** ** A grid whose last row is short

    When the capacity exceeds the row width and is not a multiple of it,
    the allocator builds a last row that is shorter than the others; the
    placement takes every row to have the width of the first one, and the
    copy of the flat list back into the rows runs past the end of the
    last row.  The encoder then returns no grid. *)

Lemma write_back_rows (lines : list (list slot)) :
  forall (flat : list slot) (w idx : nat) (lines' : list (list slot)),
    write_back lines flat w idx = Ok lines' -> w <> 0 ->
    forall row, In row lines -> w <= length row.
Proof.
  induction lines as [|r lines IH]; intros flat w idx lines' H Hw row Hin;
    [destruct Hin|].
  cbn [write_back] in H. apply rbind_ok in H.
  destruct H as [[r' idx'] [Hr H]]. apply rbind_ok in H.
  destruct H as [rest' [Hrest _]]. cbn [snd] in Hrest.
  destruct Hin as [<-|Hin].
  - apply write_line_ok in Hr. destruct Hr as [Hb _].
    destruct (Hb Hw). lia.
  - now apply (IH _ _ _ _ Hrest Hw).
Qed.

Lemma spread_rows (lines placed : list (list slot))
  (chunks : list (list str)) (g g' : rng) :
  spread_chunks_with_fallback lines chunks g = Ret placed g' ->
  length (hd [] lines) <> 0 ->
  forall row, In row lines -> length (hd [] lines) <= length row.
Proof.
  unfold spread_chunks_with_fallback. intros H.
  apply bind_ret in H. destruct H as [first [g1 [Hf H]]].
  apply lift_ret in Hf. destruct Hf as [Hf _].
  apply list_get_0 in Hf. destruct Hf as [<- _].
  revert g1 H. generalize max_attempts. intros n.
  induction n as [|n IH]; intros g1 H; cbn [spread_attempts] in H.
  - apply lift_ret in H. destruct H as [H _].
    unfold tightly_fit_chunks in H.
    apply rbind_ok in H. destruct H as [f [Hf H]].
    apply list_get_0 in Hf. destruct Hf as [<- _].
    apply rbind_ok in H. destruct H as [flat' [_ Hwb]].
    intros Hw. now apply (write_back_rows _ _ _ _ _ Hwb).
  - apply bind_ret in H. destruct H as [r [g2 [_ H]]].
    destruct r as [flat'|]; [|now apply IH with g2].
    apply lift_ret in H. destruct H as [Hwb _].
    intros Hw. now apply (write_back_rows _ _ _ _ _ Hwb).
Qed.

Lemma place_padding_lengths (password : str) (anchors : list str)
  (lines lines1 : list (list slot)) (g g' : rng) :
  place_padding password anchors lines g = Ret lines1 g' ->
  map (@length slot) lines1 = map (@length slot) lines.
Proof.
  unfold place_padding. intros H.
  apply bind_ret in H. destruct H as [a [g1 [_ H]]].
  apply bind_ret in H. destruct H as [idx [g2 [_ H]]].
  apply bind_ret in H. destruct H as [d [g3 [_ H]]].
  apply lift_ret in H. destruct H as [H _].
  apply rbind_ok in H. destruct H as [row [Hrow H]].
  apply rbind_ok in H. destruct H as [row' [Hrow' H]].
  assert (Hl : length row' = length row).
  { destruct d; [|unfold set_last in Hrow'];
      apply (list_set_length _ _ _ _ _ Hrow'). }
  apply list_get_ok in Hrow.
  apply list_set_ok in H. destruct H as [_ ->].
  rewrite <- (firstn_skipn_middle _ _ Hrow) at 3.
  rewrite !map_app. cbn [map]. now rewrite Hl.
Qed.

Lemma encode_short_last_row (fuel : nat) (text password : str) (w c : Z)
  (g : rng) :
  (1 <= w)%Z -> (w < c)%Z -> (c mod w <> 0)%Z ->
  forall grid g', encode fuel text password w c g <> Ret grid g'.
Proof.
  intros Hw Hc Hmod grid g' H.
  unfold encode in H. apply bind_ret in H.
  destruct H as [[msgs placed] [g3 [Hp _]]].
  unfold encode_placed in Hp.
  apply bind_ret in Hp. destruct Hp as [t [g1 [_ Hp]]].
  apply bind_ret in Hp. destruct Hp as [chunks [g2 [_ Hp]]].
  apply bind_ret in Hp. destruct Hp as [lines [g4 [Hl Hp]]].
  apply lift_ret in Hl. destruct Hl as [Hl _].
  rewrite setup_lines_closed in Hl by lia. inversion Hl. subst lines.
  apply bind_ret in Hp. destruct Hp as [lines1 [g5 [Hpad Hp]]].
  apply bind_ret in Hp. destruct Hp as [placed' [g6 [Hs _]]].
  assert (Hlen : map (@length slot) lines1
                 = map (@length slot) (grid_spec w c)).
  { destruct (needs_padding text).
    - now apply place_padding_lengths in Hpad.
    - unfold ret in Hpad. now inversion Hpad. }
  assert (Hq : (1 <= c / w)%Z) by (apply Z.div_le_lower_bound; lia).
  assert (Hr : (0 <= c mod w < w)%Z) by (apply Z.mod_pos_bound; lia).
  unfold grid_spec in Hlen.
  replace (c mod w =? 0)%Z with false in Hlen
    by (symmetry; now apply Z.eqb_neq).
  destruct (Z.to_nat (c / w)) as [|q] eqn:Eq; [lia|].
  rewrite map_app in Hlen. cbn [repeat map] in Hlen.
  rewrite !repeat_length in Hlen.
  destruct lines1 as [|first rest]; [discriminate|].
  cbn [map] in Hlen. inversion Hlen as [[Hfirst Hrest]].
  assert (Hlast : exists row, In row (first :: rest) /\
                              length row = Z.to_nat (c mod w)).
  { assert (Hin : In (Z.to_nat (c mod w))
                    (map (@length slot) (first :: rest))).
    { cbn [map]. rewrite Hfirst, Hrest. right.
      apply in_or_app. right. now left. }
    apply in_map_iff in Hin. destruct Hin as [row [E Hin]].
    now exists row. }
  destruct Hlast as [row [Hin Hrow]].
  pose proof (spread_rows _ _ _ _ _ Hs) as Hge. cbn [hd] in Hge.
  specialize (Hge ltac:(lia) row Hin). lia.
Qed.

(** The failure on such a grid, for one random source. *)
Example encode_short_last_row_example :
  encode 1 (tk "hi") (tk "hello") 4 9 (rng_const 0) = Exc IndexError_list
  /\ encode 1 (tk "hihihi") (tk "hello") 4 5 (rng_const 0)
     = Exc IndexError_list.
Proof. split; vm_compute; reflexivity. Qed.

(* ------------------------------------------------------------------ *)
(** * Further properties of the code *)

(** ** Tokens of a text and of a line *)

Lemma pairs_nth_length (t : str) :
  forall i tok, nth_error (pairs t) i = Some tok ->
    length tok = if 2 * i + 2 <=? length t then 2 else 1.
Proof.
  induction t as [| a | a b r IH] using list_ind2; intros i tok H.
  - destruct i; discriminate.
  - destruct i as [|i]; cbn in H; [|destruct i; discriminate].
    inversion H. reflexivity.
  - destruct i as [|i]; cbn [pairs nth_error] in H.
    + inversion H. reflexivity.
    + rewrite (IH i tok H). cbn [length].
      destruct (2 * i + 2 <=? length r) eqn:E1;
        destruct (2 * S i + 2 <=? S (S (length r))) eqn:E2;
        try reflexivity;
        [apply Nat.leb_le in E1; apply Nat.leb_gt in E2
        |apply Nat.leb_gt in E1; apply Nat.leb_le in E2]; lia.
Qed.

(** X1 ([get_text_tokens]): the tokens of a text, joined, give the text
    back; a text of [n] characters has [(n + 1) / 2] tokens; every token
    has two characters, except the last token of a text of odd length,
    which has one. *)
Theorem get_text_tokens_split (text : str) :
  join (get_text_tokens text) = text /\
  length (get_text_tokens text) = (length text + 1) / 2 /\
  (forall i tok, nth_error (get_text_tokens text) i = Some tok ->
     length tok = if 2 * i + 2 <=? length text then 2 else 1).
Proof.
  rewrite get_text_tokens_pairs. split; [apply join_pairs|].
  split; [apply length_pairs|apply pairs_nth_length].
Qed.

Lemma parse_lines_arg_pairs (lines_args : list str) :
  parse_lines_arg lines_args = map pairs lines_args.
Proof.
  unfold parse_lines_arg. apply map_ext. intros line.
  apply (get_text_tokens_pairs line).
Qed.

Lemma pairs_concat (row : list str) :
  (forall tok, In tok row -> length tok = 2) -> pairs (concat row) = row.
Proof.
  induction row as [|tok row IH]; intros H; [reflexivity|].
  assert (Ht : length tok = 2) by (apply H; now left).
  destruct tok as [|a [|b [|? ?]]]; try discriminate.
  cbn [concat app pairs]. f_equal. apply IH. intros t Hin. apply H. now right.
Qed.

Lemma parse_strings_id (grid : list (list str)) :
  (forall row tok, In row grid -> In tok row -> length tok = 2) ->
  parse_lines_arg (lines_to_strings grid) = grid.
Proof.
  intros H. rewrite parse_lines_arg_pairs. unfold lines_to_strings.
  rewrite map_map. rewrite <- (map_id grid) at 2.
  apply map_ext_in. intros row Hin. apply pairs_concat.
  intros tok Ht. now apply (H row).
Qed.

(** X2 ([parse_lines_arg], [lines_to_strings]): cutting line strings
    into tokens and joining the tokens of each line again gives the line
    strings back, whatever their lengths. *)
Theorem lines_to_strings_parse (lines_args : list str) :
  lines_to_strings (parse_lines_arg lines_args) = lines_args.
Proof.
  rewrite parse_lines_arg_pairs. unfold lines_to_strings.
  rewrite map_map. rewrite <- (map_id lines_args) at 2.
  apply map_ext. intros line. apply join_pairs.
Qed.

(** ** Anchors and directions *)

Lemma windows_In (p c : str) :
  In c (windows p) <->
  exists l1 a b l2, p = l1 ++ a :: b :: l2 /\ c = [a; b].
Proof.
  split.
  - induction p as [|a p IH]; [intros []|].
    destruct p as [|b p]; [intros []|].
    cbn [windows]. intros [<-|H].
    + now exists [], a, b, p.
    + destruct (IH H) as [l1 [x [y [l2 [E ->]]]]].
      exists (a :: l1), x, y, l2. now rewrite E.
  - intros [l1 [a [b [l2 [-> ->]]]]].
    induction l1 as [|x l1 IH]; [now left|].
    cbn [app]. destruct (l1 ++ a :: b :: l2) as [|y t] eqn:E.
    + destruct l1; discriminate.
    + right. exact IH.
Qed.

Lemma windows_rev (p c : str) :
  In c (windows p) -> In (rev c) (windows (rev p)).
Proof.
  intros H. apply windows_In in H.
  destruct H as [l1 [a [b [l2 [-> ->]]]]].
  apply windows_In. exists (rev l2), b, a, (rev l1). split; [|reflexivity].
  rewrite rev_app_distr. cbn [rev]. now rewrite <- !app_assoc.
Qed.

Lemma filter_none (A : Type) (f : A -> bool) (l : list A) :
  (forall x, In x l -> f x = false) -> filter f l = [].
Proof.
  induction l as [|x l IH]; intros H; [reflexivity|].
  cbn [filter]. rewrite (H x (or_introl eq_refl)).
  apply IH. intros y Hy. apply H. now right.
Qed.

(** X3 ([get_password_tokens]): a password that reads the same in both
    directions has no anchor, since the reversal of each of its windows
    is a window too; [encode] then raises for every text that is not
    empty, whatever the grid and the random draws. *)
Theorem palindrome_no_anchor (password : str) :
  rev password = password ->
  get_password_tokens password = [] /\
  forall fuel text w c g,
    text <> [] ->
    encode fuel text password w c g = Exc IndexError_empty_choice.
Proof.
  intros Hp.
  assert (Ha : get_password_tokens password = []).
  { rewrite get_password_tokens_anchors_spec. unfold anchors_spec.
    apply filter_none. intros c Hc. unfold valid_window.
    assert (Hr : mem (rev c) (windows password) = true).
    { apply mem_In. rewrite <- Hp. now apply windows_rev. }
    rewrite Hr. cbn [negb]. apply andb_false_r. }
  split; [exact Ha|]. intros fuel text w c g Ht.
  unfold encode, encode_placed.
  destruct (pad_text_ret text g) as [g1 [Hpad _]].
  rewrite bind_assoc. rewrite (bind_ret_eq _ _ _ _ _ _ _ Hpad).
  rewrite bind_assoc.
  pose proof (padded_text_nonempty text g Ht) as Hne.
  apply get_text_tokens_nonempty in Hne.
  destruct (get_text_tokens (padded_text text g)) as [|m ms];
    [now destruct Hne|].
  apply bind_exc_eq. cbn [encode_chunks].
  apply bind_exc_eq. apply encode_chunk_no_anchor. exact Ha.
Qed.

Lemma palindrome_no_anchor_witness :
  get_password_tokens (tk "abcba") = [] /\
  forall fuel text w c g,
    text <> [] ->
    encode fuel text (tk "abcba") w c g = Exc IndexError_empty_choice.
Proof. apply (palindrome_no_anchor (tk "abcba")). reflexivity. Defined.

(** X4 ([get_direction]): the direction of a token is defined exactly
    for the anchors of the password, and never for the reversal of an
    anchor; the direction of the anchor at position [i] of the anchor list
    is before when [i] is even and after when it is odd. *)
Theorem get_direction_anchor (password : str) :
  let anchors := get_password_tokens password in
  (forall token,
      get_direction password token = Raise ValueError_not_in_list <->
      ~ In token anchors) /\
  (forall i token,
      nth_error anchors i = Some token ->
      get_direction password token
      = Ok (if i mod 2 =? 0 then before else after) /\
      get_direction password (rev token) = Raise ValueError_not_in_list).
Proof.
  intros anchors. split.
  - intros token. rewrite get_direction_dir_in. fold anchors.
    rewrite <- dir_in_None.
    destruct (dir_in anchors token); split; congruence.
  - intros i token Hi.
    assert (Hidx : index_of token anchors = Some i)
      by (apply index_of_NoDup; [apply anchors_NoDup|exact Hi]).
    assert (Hd : dir_in anchors token = Some (direction_of_index i))
      by (unfold dir_in; now rewrite Hidx).
    split.
    + rewrite get_direction_dir_in. fold anchors. now rewrite Hd.
    + rewrite get_direction_dir_in.
      now rewrite (dir_in_rev password token _ Hd).
Qed.

(** X5 ([get_random_chunk_for_direction]): the chunk returned is an
    anchor of the direction asked for and one random draw was made; the
    function raises its [ValueError] exactly when the password has no
    anchor of that direction, and raises nothing else. *)
Theorem get_random_chunk_for_direction_spec (password : str) (d : direction)
  (g : rng) :
  match get_random_chunk_for_direction password d g with
  | Ret a g' =>
      get_direction password a = Ok d /\
      g' = mkRng (source g) (S (cursor g))
  | Exc e =>
      e = ValueError_no_chunks /\
      forall a, get_direction password a <> Ok d
  | Spin => False
  end.
Proof.
  destruct (candidates_for (get_password_tokens password) d) as [|a0 l] eqn:E.
  - rewrite (get_random_chunk_none password d g E). split; [reflexivity|].
    intros a Ha. rewrite get_direction_dir_in in Ha.
    destruct (dir_in (get_password_tokens password) a) as [d'|] eqn:Ed;
      [|discriminate].
    inversion Ha. subst d'. apply candidates_for_dir in Ed.
    rewrite E in Ed. destruct Ed.
  - assert (Hin : dir_in (get_password_tokens password) a0 = Some d)
      by (apply candidates_for_dir; rewrite E; now left).
    destruct (get_random_chunk_some password a0 d g Hin) as [a [Hr Ha]].
    rewrite Hr. split; [|reflexivity].
    rewrite get_direction_dir_in. now rewrite Ha.
Qed.

(** X6 ([get_random_decoy]): a decoy is the reversal of an anchor of the
    password and is never an anchor itself, so it has no direction; one
    random draw is made.  For a password without anchors the function
    raises the [IndexError] of [random.choice]. *)
Theorem get_random_decoy_spec (password : str) (exclude : option (list str))
  (g : rng) :
  let anchors := get_password_tokens password in
  match get_random_decoy password exclude g with
  | Ret decoy g' =>
      In (rev decoy) anchors /\ ~ In decoy anchors /\
      get_direction password decoy = Raise ValueError_not_in_list /\
      g' = mkRng (source g) (S (cursor g))
  | Exc e => e = IndexError_empty_choice /\ anchors = []
  | Spin => False
  end.
Proof.
  intros anchors. unfold get_random_decoy. fold anchors.
  destruct anchors as [|a0 l] eqn:E; [cbn; now split|].
  destruct (choice_nonempty _ (a0 :: l) g ltac:(discriminate)) as [a [Hc Hin]].
  rewrite (bind_ret_eq _ _ _ _ _ _ _ Hc). cbn [ret].
  rewrite rev_involutive. rewrite <- E in *.
  assert (Hn : ~ In (rev a) anchors)
    by (now apply anchor_rev_not_anchor).
  repeat split; try assumption.
  rewrite get_direction_dir_in. fold anchors.
  apply dir_in_None in Hn. now rewrite Hn.
Qed.

(** ** Conflicting message tokens *)

Lemma split_loop_join (ps prs : list str) (msgs : list str) :
  forall result,
    join (split_loop ps prs msgs result) = join result ++ join msgs.
Proof.
  unfold join.
  induction msgs as [|tok msgs IH]; intros result; cbn [split_loop].
  - cbn [concat]. now rewrite app_nil_r.
  - assert (Hsame : concat (split_loop ps prs msgs (result ++ [tok]))
                    = concat result ++ concat (tok :: msgs)).
    { rewrite IH, concat_app. cbn [concat].
      now rewrite app_nil_r, <- app_assoc. }
    destruct (mem tok ps || mem tok prs); [|exact Hsame].
    destruct tok as [|a [|b [|x t]]]; try exact Hsame.
    rewrite IH, concat_app. cbn [concat app]. now rewrite <- app_assoc.
Qed.

Lemma split_loop_In (ps prs : list str) (msgs : list str) :
  forall result t,
    In t (split_loop ps prs msgs result) ->
    In t result \/
    exists tok, In tok msgs /\
      ((t = tok /\ (mem tok ps || mem tok prs = false \/ length tok <> 2)) \/
       (exists a b, tok = [a; b] /\ (t = [a] \/ t = [b]))).
Proof.
  induction msgs as [|tok msgs IH]; intros result t H; cbn [split_loop] in H;
    [now left|].
  assert (Hsame : In t (split_loop ps prs msgs (result ++ [tok])) ->
                  mem tok ps || mem tok prs = false \/ length tok <> 2 ->
                  In t result \/
                  exists tok0, In tok0 (tok :: msgs) /\
                    ((t = tok0 /\ (mem tok0 ps || mem tok0 prs = false \/
                                   length tok0 <> 2)) \/
                     (exists a b, tok0 = [a; b] /\ (t = [a] \/ t = [b])))).
  { intros H' Hc. destruct (IH _ _ H') as [Hin|[tok0 [Hin Ht]]].
    - apply in_app_or in Hin. destruct Hin as [Hin|[<-|[]]]; [now left|].
      right. exists tok. split; [now left|]. left. now split.
    - right. exists tok0. split; [now right|exact Ht]. }
  destruct (mem tok ps || mem tok prs) eqn:Ec;
    [|apply Hsame; [exact H|now left]].
  destruct tok as [|a [|b [|x r]]];
    try (apply Hsame; [exact H|right; cbn [length]; lia]).
  destruct (IH _ _ H) as [Hin|[tok0 [Hin Ht]]].
  - apply in_app_or in Hin. destruct Hin as [Hin|Hin]; [now left|].
    right. exists [a; b]. split; [now left|]. right. exists a, b.
    split; [reflexivity|]. destruct Hin as [<-|[<-|[]]]; [now left|now right].
  - right. exists tok0. split; [now right|exact Ht].
Qed.

Lemma split_loop_same (ps prs : list str) (msgs : list str) :
  (forall tok, In tok msgs -> mem tok ps || mem tok prs = false) ->
  forall result, split_loop ps prs msgs result = result ++ msgs.
Proof.
  induction msgs as [|tok msgs IH]; intros H result; cbn [split_loop].
  - now rewrite app_nil_r.
  - rewrite (H tok (or_introl eq_refl)).
    rewrite IH by (intros t Ht; apply H; now right).
    now rewrite <- app_assoc.
Qed.

Lemma mem_map_rev (tok : str) (l : list str) :
  mem tok (map (@rev ascii) l) = mem (rev tok) l.
Proof.
  destruct (mem (rev tok) l) eqn:E.
  - apply mem_In in E. apply mem_In. apply in_map_iff.
    exists (rev tok). split; [apply rev_involutive|exact E].
  - apply mem_not_In in E. apply mem_not_In. intros H.
    apply in_map_iff in H. destruct H as [x [<- Hx]].
    now rewrite rev_involutive in E.
Qed.

(** X7 ([split_conflicting_message_tokens]): splitting keeps the text:
    the tokens returned, joined, are the message tokens joined.  When no
    message token is a password token or the reversal of one, the message
    tokens are returned as they are. *)
Theorem split_conflicting_join (message_tokens password_tokens : list str) :
  join (split_conflicting_message_tokens message_tokens password_tokens)
  = join message_tokens /\
  ((forall tok, In tok message_tokens ->
      ~ In tok password_tokens /\ ~ In (rev tok) password_tokens) ->
   split_conflicting_message_tokens message_tokens password_tokens
   = message_tokens).
Proof.
  unfold split_conflicting_message_tokens. split.
  - now rewrite split_loop_join.
  - intros H. rewrite split_loop_same; [reflexivity|].
    intros tok Hin. destruct (H tok Hin) as [H1 H2].
    apply mem_not_In in H1, H2. now rewrite mem_map_rev, H1, H2.
Qed.

(** X8 ([split_conflicting_message_tokens], [get_text_tokens],
    [get_password_tokens]): applied to the tokens of a text and the
    anchors of a password, the splitting leaves no token that is an
    anchor or the reversal of one, and the tokens still spell the text. *)
Theorem split_conflicting_no_conflict (text password : str) :
  let anchors := get_password_tokens password in
  let tokens :=
    split_conflicting_message_tokens (get_text_tokens text) anchors in
  join tokens = text /\
  forall t, In t tokens -> ~ In t anchors /\ ~ In (rev t) anchors.
Proof.
  intros anchors tokens. split.
  - unfold tokens, split_conflicting_message_tokens.
    rewrite split_loop_join. cbn [join concat app].
    rewrite get_text_tokens_pairs. apply join_pairs.
  - assert (Htwo : forall a, In a anchors -> length a = 2).
    { intros a Ha. apply anchor_two_distinct in Ha.
      destruct a as [|x [|y [|z r]]]; try discriminate. reflexivity. }
    intros t Ht. unfold tokens, split_conflicting_message_tokens in Ht.
    apply split_loop_In in Ht. destruct Ht as [[]|[tok [Hin Ht]]].
    destruct Ht as [[-> [Hc|Hl]]|[a [b [_ Ht]]]].
    + apply orb_false_elim in Hc. destruct Hc as [H1 H2].
      rewrite mem_map_rev in H2. now apply mem_not_In in H1, H2.
    + split; intros Ha; apply Htwo in Ha; [|rewrite length_rev in Ha];
        contradiction.
    + split; intros Ha; apply Htwo in Ha; [|rewrite length_rev in Ha];
        destruct Ht as [-> | ->]; discriminate.
Qed.

(** ** The tight fit is the earliest fit, and it is complete *)

Lemma fits_false (w : nat) (flat : list slot) (pos len : nat) :
  fits w flat pos len = Ok false ->
  ~ (pos mod w + len <= w /\ free_run flat pos len).
Proof.
  intros H [Hrow Hfree].
  assert (Hw : w <> 0).
  { intros ->. unfold fits in H. cbn in H. discriminate. }
  assert (Ht : fits w flat pos len = Ok true) by (apply fits_true; auto).
  congruence.
Qed.

Lemma scan_slot_first (n w : nat) (flat : list slot) (len : nat) :
  forall pos p,
    scan_slot n w flat pos len = Ok (Some p) ->
    forall q, pos <= q < p -> fits w flat q len = Ok false.
Proof.
  induction n as [|n IH]; intros pos p H q Hq; [discriminate|].
  cbn [scan_slot] in H. apply rbind_ok in H. destruct H as [b [Hb H]].
  destruct b.
  - inversion H. lia.
  - destruct (Nat.eq_dec q pos) as [->|Hne]; [exact Hb|].
    apply (IH (S pos) p H). lia.
Qed.

Lemma earliest_paste (w : nat) (flat : list slot) (p : nat) (chunk : list str)
  (chunks : list (list str)) :
  p + length chunk <= length flat ->
  forall lo ps,
    p + length chunk <= lo ->
    earliest w (paste flat p chunk) lo chunks ps ->
    earliest w flat lo chunks ps.
Proof.
  intros Hb. induction chunks as [|c chunks IH]; intros lo ps Hlo H.
  - inversion H. constructor.
  - inversion H as [|lo' c' cs' q qs Hle Hfirst Hrest]. subst.
    constructor; [exact Hle| |apply IH; [lia|exact Hrest]].
    intros q' Hq' [Hrow Hfree]. apply (Hfirst q' Hq'). split; [exact Hrow|].
    apply free_run_paste; [exact Hb | lia | exact Hfree].
Qed.

Lemma tight_loop_earliest (w T : nat) (chunks : list (list str)) :
  forall flat pos flat',
    tight_loop w T chunks flat pos = Ok flat' ->
    exists ps,
      placed w flat pos chunks ps /\
      earliest w flat pos chunks ps /\
      flat' = paste_all flat ps chunks /\
      length ps = length chunks.
Proof.
  induction chunks as [|chunk rest IH]; intros flat pos flat' H.
  - inversion H. subst. exists []. repeat split; constructor.
  - cbn [tight_loop] in H. apply rbind_ok in H. destruct H as [r [Hr H]].
    destruct r as [p|]; [|discriminate].
    pose proof (scan_slot_first _ _ _ _ _ _ Hr) as Hfirst.
    apply scan_slot_ok in Hr. destruct Hr as [Hp Hfit].
    apply fits_true in Hfit. destruct Hfit as [Hw [Hrow Hfree]].
    apply rbind_ok in H. destruct H as [flat1 [Hw1 H]].
    apply write_chunk_paste in Hw1. destruct Hw1 as [-> Hlen1].
    apply IH in H. destruct H as [ps [Hpl [Hea [-> Hps]]]].
    assert (Hb : length chunk <> 0 -> p + length chunk <= length flat)
      by (intros Hn; now apply free_run_bound).
    exists (p :: ps). split; [|split; [|split]].
    + constructor; try assumption; [lia|].
      destruct (Nat.eq_dec (length chunk) 0) as [E|E].
      * destruct chunk; [|discriminate]. now rewrite paste_nil in Hpl.
      * apply (@placed_paste w flat p chunk); [auto | lia | exact Hpl].
    + constructor; [lia| |].
      * intros q Hq. apply fits_false. apply Hfirst. lia.
      * destruct (Nat.eq_dec (length chunk) 0) as [E|E].
        -- destruct chunk; [|discriminate]. now rewrite paste_nil in Hea.
        -- apply (earliest_paste w flat p chunk); [auto | lia | exact Hea].
    + reflexivity.
    + simpl. lia.
Qed.

(** X9 ([tightly_fit_chunks]): the fallback places every chunk in the
    earliest available slot: the grid returned is the grid given with the
    chunks written at positions [ps], and each position is the first one
    after the chunk before it at which the chunk lies within one row on
    empty slots. *)
Theorem tightly_fit_earliest (lines lines' : list (list slot))
  (chunks : list (list str)) :
  grid_shaped lines ->
  tightly_fit_chunks lines chunks = Ok lines' ->
  exists ps,
    placement_of lines lines' chunks ps /\
    earliest (length (hd [] lines)) (concat lines) 0 chunks ps.
Proof.
  intros Hs H. unfold tightly_fit_chunks in H.
  apply rbind_ok in H. destruct H as [first [Hfirst H]].
  apply list_get_0 in Hfirst. destruct Hfirst as [<- _].
  apply rbind_ok in H. destruct H as [flat' [Ht Hwb]].
  apply tight_loop_earliest in Ht.
  destruct Ht as [ps [Hpl [Hea [-> Hps]]]].
  exists ps. split; [now apply write_back_placed|exact Hea].
Qed.

Lemma tightly_fit_earliest_witness :
  let lines : list (list slot) :=
    [[None; Some (tk "zz"); None; None]; repeat None 4] in
  let chunks := [[tk "hi"; tk "he"]; [tk "el"; tk "yo"; tk "ol"]] in
  exists ps,
    placement_of lines
      [[None; Some (tk "zz"); Some (tk "hi"); Some (tk "he")];
       [Some (tk "el"); Some (tk "yo"); Some (tk "ol"); None]]
      chunks ps /\
    earliest 4 (concat lines) 0 chunks ps.
Proof.
  intros lines chunks.
  apply (tightly_fit_earliest lines
           [[None; Some (tk "zz"); Some (tk "hi"); Some (tk "he")];
            [Some (tk "el"); Some (tk "yo"); Some (tk "ol"); None]]
           chunks).
  - apply (rectangular_grid_shaped 4).
    intros row [<-|[<-|[]]]; reflexivity.
  - reflexivity.
Defined.

Lemma fits_empty (w : nat) (flat : list slot) (pos : nat) :
  w <> 0 -> fits w flat pos 0 = Ok true.
Proof.
  intros Hw. apply fits_true. split; [exact Hw|]. split.
  - pose proof (Nat.mod_upper_bound pos w Hw). lia.
  - intros k Hk. lia.
Qed.

Lemma tight_loop_complete (w T : nat) :
  w <> 0 ->
  forall chunks (flat : list slot) pos lo ps,
    length flat = T -> pos <= lo -> pos <= T ->
    placed w flat lo chunks ps ->
    exists flat', tight_loop w T chunks flat pos = Ok flat'.
Proof.
  intros Hw.
  induction chunks as [|chunk rest IH]; intros flat pos lo ps HT Hlo HposT Hpl.
  - now exists flat.
  - inversion Hpl as [|lo' c' cs' p' ps' Hle Hrow Hfree Hrest]. subst.
    cbn [tight_loop].
    assert (Hfound : exists p,
               scan_slot (length flat + 1 - length chunk - pos) w flat pos
                 (length chunk) = Ok (Some p) /\
               pos <= p <= p' /\ p + length chunk <= length flat).
    { destruct (Nat.eq_dec (length chunk) 0) as [E|E].
      - rewrite E.
        destruct (length flat + 1 - 0 - pos) as [|n] eqn:En; [lia|].
        cbn [scan_slot]. rewrite (fits_empty w flat pos Hw). cbn [rbind].
        exists pos. split; [reflexivity|lia].
      - pose proof (free_run_bound flat p' (length chunk) Hfree E) as Hb.
        destruct (scan_slot_finds w flat (length chunk) Hw
                    (length flat + 1 - length chunk - pos) pos p')
          as [p [Hs Hp]].
        + lia.
        + apply fits_true. auto.
        + intros q Hq. lia.
        + exists p. split; [exact Hs|].
          apply scan_slot_ok in Hs. destruct Hs as [Hrange _]. lia. }
    destruct Hfound as [p [Hs [Hp Hb]]]. rewrite Hs. cbn [rbind].
    assert (Hfit : fits w flat p (length chunk) = Ok true)
      by (apply scan_slot_ok in Hs; tauto).
    apply fits_true in Hfit. destruct Hfit as [_ [_ Hfree']].
    rewrite (write_chunk_free chunk flat p Hfree'). cbn [rbind].
    apply (IH (paste flat p chunk) (p + length chunk) (p' + length chunk) ps').
    + now apply paste_length.
    + lia.
    + lia.
    + apply placed_move; [exact Hfree' | lia | exact Hrest].
Qed.

Lemma tightly_fit_finds (w : nat) (lines : list (list slot))
  (chunks : list (list str)) (ps : list nat) :
  rectangular w lines -> lines <> [] -> w <> 0 ->
  placed w (concat lines) 0 chunks ps ->
  exists lines', tightly_fit_chunks lines chunks = Ok lines'.
Proof.
  intros Hrect Hne Hw Hpl. unfold tightly_fit_chunks.
  destruct lines as [|first rest]; [now destruct Hne|].
  cbn [list_get nth_error rbind].
  assert (Hf : length first = w) by (apply Hrect; now left).
  rewrite Hf.
  assert (Hlen : length (concat (first :: rest)) = length (first :: rest) * w)
    by now apply rectangular_concat_length.
  destruct (tight_loop_complete w (length (first :: rest) * w) Hw chunks
              (concat (first :: rest)) 0 0 ps Hlen (le_n 0) (Nat.le_0_l _) Hpl)
    as [flat' Ht].
  rewrite Ht. cbn [rbind].
  apply tight_loop_placed in Ht. destruct Ht as [ps' [_ [_ [Hl _]]]].
  apply write_back_total; [exact Hrect | lia].
Qed.

(** X10 ([tightly_fit_chunks]): on a grid whose rows all have the same
    width the fallback is complete: it returns a grid exactly when the
    chunks can be placed in their order, each within one row on empty
    slots, and it raises its [RuntimeError] exactly when they cannot. *)
Theorem tightly_fit_complete (w : nat) (lines : list (list slot))
  (chunks : list (list str)) :
  rectangular w lines -> lines <> [] -> w <> 0 ->
  ((exists lines', tightly_fit_chunks lines chunks = Ok lines') <->
   (exists ps, placed w (concat lines) 0 chunks ps)) /\
  (tightly_fit_chunks lines chunks = Raise RuntimeError_no_slot <->
   ~ exists ps, placed w (concat lines) 0 chunks ps).
Proof.
  intros Hrect Hne Hw.
  assert (Hsound : forall lines',
             tightly_fit_chunks lines chunks = Ok lines' ->
             exists ps, placed w (concat lines) 0 chunks ps).
  { intros lines' H.
    destruct (tightly_fit_placed lines lines' chunks
                (rectangular_grid_shaped w lines Hrect) H) as [ps Hp].
    exists ps. now apply (placement_of_width w lines lines' chunks ps). }
  split; split.
  - intros [lines' H]. now apply (Hsound lines').
  - intros [ps Hpl]. now apply (tightly_fit_finds w lines chunks ps).
  - intros H [ps Hpl].
    destruct (tightly_fit_finds w lines chunks ps Hrect Hne Hw Hpl) as [l Hl].
    congruence.
  - intros Hno.
    destruct (tightly_fit_outcome w lines chunks Hrect Hne Hw) as [[l Hl]|H];
      [|exact H].
    exfalso. apply Hno. now apply (Hsound l).
Qed.

Lemma tightly_fit_complete_witness :
  let lines : list (list slot) := [repeat None 3; repeat None 3] in
  let chunks := [[tk "hi"; tk "he"]; [tk "el"; tk "yo"]; [tk "lo"; tk "ab"]] in
  ((exists lines', tightly_fit_chunks lines chunks = Ok lines') <->
   (exists ps, placed 3 (concat lines) 0 chunks ps)) /\
  (tightly_fit_chunks lines chunks = Raise RuntimeError_no_slot <->
   ~ exists ps, placed 3 (concat lines) 0 chunks ps).
Proof.
  intros lines chunks. apply (tightly_fit_complete 3 lines chunks).
  - intros row [<-|[<-|[]]]; reflexivity.
  - discriminate.
  - discriminate.
Defined.

(** X11 ([spread_chunks_with_fallback]): on a grid whose rows all have
    the same width, and for every outcome of the random draws, the placer
    returns a grid exactly when the chunks can be placed in their order,
    each within one row on empty slots; otherwise it raises the
    [RuntimeError] of the fallback, and nothing else. *)
Theorem spread_returns_iff (w : nat) (lines : list (list slot))
  (chunks : list (list str)) (g : rng) :
  rectangular w lines -> lines <> [] -> w <> 0 ->
  match spread_chunks_with_fallback lines chunks g with
  | Ret lines' _ =>
      exists ps, placement_of lines lines' chunks ps
  | Exc e =>
      e = RuntimeError_no_slot /\
      ~ exists ps, placed w (concat lines) 0 chunks ps
  | Spin => False
  end.
Proof.
  intros Hrect Hne Hw.
  pose proof (spread_rect_outcome w lines chunks g Hrect Hne Hw) as Hout.
  destruct (spread_chunks_with_fallback lines chunks g)
    as [lines' g'|e|] eqn:E.
  - apply (spread_placed lines lines' chunks g g');
      [now apply (rectangular_grid_shaped w)|exact E].
  - destruct Hout as [-> Ht]. split; [reflexivity|]. intros [ps Hpl].
    destruct (tightly_fit_finds w lines chunks ps Hrect Hne Hw Hpl) as [l Hl].
    congruence.
  - exact Hout.
Qed.

Lemma spread_returns_iff_witness :
  let lines : list (list slot) := [repeat None 3; repeat None 3] in
  let chunks := [[tk "hi"; tk "he"]; [tk "el"; tk "yo"]; [tk "lo"; tk "ab"]] in
  match spread_chunks_with_fallback lines chunks (rng_const 0) with
  | Ret lines' _ =>
      exists ps, placement_of lines lines' chunks ps
  | Exc e =>
      e = RuntimeError_no_slot /\
      ~ exists ps, placed 3 (concat lines) 0 chunks ps
  | Spin => False
  end.
Proof.
  intros lines chunks.
  apply (spread_returns_iff 3 lines chunks (rng_const 0)).
  - intros row [<-|[<-|[]]]; reflexivity.
  - discriminate.
  - discriminate.
Defined.

(** ** Runs that raise *)

Lemma no_spin_ret (A : Type) (a : A) : no_spin (ret a).
Proof. intros g H. discriminate. Qed.

Lemma no_spin_raise (A : Type) (e : exn) : no_spin (@raise A e).
Proof. intros g H. discriminate. Qed.

Lemma no_spin_lift (A : Type) (r : result A) : no_spin (lift r).
Proof. intros g H. unfold lift in H. destruct r; discriminate. Qed.

Lemma no_spin_draw : no_spin draw.
Proof. intros g H. discriminate. Qed.

Lemma no_spin_bind (A B : Type) (m : M A) (f : A -> M B) :
  no_spin m -> (forall a, no_spin (f a)) -> no_spin (bind m f).
Proof.
  intros Hm Hf g H. unfold bind in H.
  destruct (m g) as [a g1|e|] eqn:E; [|discriminate|].
  - now apply (Hf a g1).
  - now apply (Hm g).
Qed.

Ltac no_spin_base :=
  repeat match goal with
    | |- no_spin (ret _) => apply no_spin_ret
    | |- no_spin (raise _) => apply no_spin_raise
    | |- no_spin (lift _) => apply no_spin_lift
    | |- no_spin draw => apply no_spin_draw
    | |- no_spin (bind _ _) => apply no_spin_bind; [|intros ?]
    | |- no_spin (match ?x with _ => _ end) => destruct x
    | H : _ |- _ => exact H
    | H : forall _, _ |- _ => apply H
    end.

Lemma no_spin_choice (A : Type) (l : list A) : no_spin (choice l).
Proof. destruct l; unfold choice; no_spin_base. Qed.

Lemma no_spin_randint0 (n : nat) : no_spin (randint0 n).
Proof. destruct n; unfold randint0; no_spin_base. Qed.

Lemma no_spin_shuffle (A : Type) (x : list A) : no_spin (shuffle x).
Proof.
  unfold shuffle. generalize (length x - 1). intros i. revert x.
  induction i as [|i IH]; intros x; cbn [shuffle_loop]; no_spin_base.
Qed.

Ltac no_spin_step :=
  repeat match goal with
    | |- no_spin (choice _) => apply no_spin_choice
    | |- no_spin (randint0 _) => apply no_spin_randint0
    | |- no_spin (shuffle _) => apply no_spin_shuffle
    | |- no_spin (ret _) => apply no_spin_ret
    | |- no_spin (raise _) => apply no_spin_raise
    | |- no_spin (lift _) => apply no_spin_lift
    | |- no_spin draw => apply no_spin_draw
    | |- no_spin (bind _ _) => apply no_spin_bind; [|intros ?]
    | |- no_spin (match ?x with _ => _ end) => destruct x
    | H : _ |- _ => exact H
    | H : forall _, _ |- _ => apply H
    end.

Lemma no_spin_get_random_chunk (password : str) (d : direction) :
  no_spin (get_random_chunk_for_direction password d).
Proof. unfold get_random_chunk_for_direction. no_spin_step. Qed.

Lemma no_spin_encode_chunk (password : str) (anchors : list str) (m : str) :
  no_spin (encode_chunk password anchors m).
Proof.
  pose proof (no_spin_get_random_chunk password) as Hr.
  unfold encode_chunk. no_spin_step.
Qed.

Lemma no_spin_encode_chunks (password : str) (anchors tokens : list str) :
  no_spin (encode_chunks password anchors tokens).
Proof.
  pose proof (no_spin_encode_chunk password anchors) as Hc.
  induction tokens as [|t ts IH]; cbn [encode_chunks]; no_spin_step.
Qed.

Lemma no_spin_place_padding (password : str) (anchors : list str)
  (lines : list (list slot)) :
  no_spin (place_padding password anchors lines).
Proof. unfold place_padding. no_spin_step. Qed.

Lemma no_spin_try_spread_loop (w T n : nat) (chunks : list (list str)) :
  forall i flat next, no_spin (try_spread_loop w T n i chunks flat next).
Proof.
  induction chunks as [|chunk rest IH]; intros i flat next;
    cbn [try_spread_loop]; no_spin_step.
Qed.

Lemma no_spin_spread (lines : list (list slot)) (chunks : list (list str)) :
  no_spin (spread_chunks_with_fallback lines chunks).
Proof.
  unfold spread_chunks_with_fallback. apply no_spin_bind; [no_spin_step|].
  intros first. generalize max_attempts. intros n.
  induction n as [|n IH]; cbn [spread_attempts].
  - no_spin_step.
  - apply no_spin_bind; [apply no_spin_try_spread_loop|].
    intros [flat|]; no_spin_step.
Qed.

Lemma no_spin_pad_text (text : str) : no_spin (pad_text text).
Proof. unfold pad_text. no_spin_step. Qed.

Lemma no_spin_encode_placed (text password : str) (w c : Z) :
  no_spin (encode_placed text password w c).
Proof.
  unfold encode_placed.
  apply no_spin_bind; [apply no_spin_pad_text|]. intros t.
  apply no_spin_bind; [apply no_spin_encode_chunks|]. intros chunks.
  apply no_spin_bind; [no_spin_step|]. intros lines.
  apply no_spin_bind.
  - destruct (needs_padding text); [apply no_spin_place_padding | no_spin_step].
  - intros lines1.
    apply no_spin_bind; [apply no_spin_spread | intros; no_spin_step].
Qed.

(** When the steps before the noise return no grid, [encode] raises. *)
Lemma encode_placed_raises (fuel : nat) (text password : str) (w c : Z)
  (g : rng) :
  (forall p g', encode_placed text password w c g <> Ret p g') ->
  exists e, encode fuel text password w c g = Exc e.
Proof.
  intros H. unfold encode, bind.
  destruct (encode_placed text password w c g) as [p g'|e|] eqn:E.
  - now destruct (H p g').
  - now exists e.
  - now destruct (no_spin_encode_placed text password w c g).
Qed.

Lemma encode_placed_short_last_row (text password : str) (w c : Z) (g : rng) :
  (1 <= w)%Z -> (w < c)%Z -> (c mod w <> 0)%Z ->
  forall p g', encode_placed text password w c g <> Ret p g'.
Proof.
  intros Hw Hc Hmod p g' Hp.
  unfold encode_placed in Hp.
  apply bind_ret in Hp. destruct Hp as [t [g1 [_ Hp]]].
  apply bind_ret in Hp. destruct Hp as [chunks [g2 [_ Hp]]].
  apply bind_ret in Hp. destruct Hp as [lines [g4 [Hl Hp]]].
  apply lift_ret in Hl. destruct Hl as [Hl _].
  rewrite setup_lines_closed in Hl by lia. inversion Hl. subst lines.
  apply bind_ret in Hp. destruct Hp as [lines1 [g5 [Hpad Hp]]].
  apply bind_ret in Hp. destruct Hp as [placed' [g6 [Hs _]]].
  assert (Hlen : map (@length slot) lines1
                 = map (@length slot) (grid_spec w c)).
  { destruct (needs_padding text).
    - now apply place_padding_lengths in Hpad.
    - unfold ret in Hpad. now inversion Hpad. }
  assert (Hq : (1 <= c / w)%Z) by (apply Z.div_le_lower_bound; lia).
  assert (Hr : (0 <= c mod w < w)%Z) by (apply Z.mod_pos_bound; lia).
  unfold grid_spec in Hlen.
  replace (c mod w =? 0)%Z with false in Hlen
    by (symmetry; now apply Z.eqb_neq).
  destruct (Z.to_nat (c / w)) as [|q] eqn:Eq; [lia|].
  rewrite map_app in Hlen. cbn [repeat map] in Hlen.
  rewrite !repeat_length in Hlen.
  destruct lines1 as [|first rest]; [discriminate|].
  cbn [map] in Hlen. inversion Hlen as [[Hfirst Hrest]].
  assert (Hlast : exists row, In row (first :: rest) /\
                              length row = Z.to_nat (c mod w)).
  { assert (Hin : In (Z.to_nat (c mod w))
                    (map (@length slot) (first :: rest))).
    { cbn [map]. rewrite Hfirst, Hrest. right.
      apply in_or_app. right. now left. }
    apply in_map_iff in Hin. destruct Hin as [row [E Hin]].
    now exists row. }
  destruct Hlast as [row [Hin Hrow]].
  pose proof (spread_rows _ _ _ _ _ Hs) as Hge. cbn [hd] in Hge.
  specialize (Hge ltac:(lia) row Hin). lia.
Qed.

(** X12 ([encode], [spread_chunks_with_fallback], [tightly_fit_chunks]):
    when the capacity is larger than the row width and not a multiple of
    it, the last row of the grid is shorter than the others, the placer
    reads past it, and [encode] raises for every text, password and
    outcome of the random draws: it returns no grid. *)
Theorem encode_short_last_row_raises (fuel : nat) (text password : str)
  (w c : Z) (g : rng) :
  (1 <= w)%Z -> (w < c)%Z -> (c mod w <> 0)%Z ->
  exists e, encode fuel text password w c g = Exc e.
Proof.
  intros Hw Hc Hmod. apply encode_placed_raises.
  now apply encode_placed_short_last_row.
Qed.

Lemma encode_short_last_row_raises_witness :
  exists e, encode 1 (tk "hi") (tk "hello") 4 9 (rng_const 0) = Exc e.
Proof.
  apply (encode_short_last_row_raises 1 (tk "hi") (tk "hello") 4 9
           (rng_const 0)); [lia | lia | discriminate].
Defined.

(** ** Grids without slots *)

Lemma lines_loop_no_slot (n : nat) (w : Z) :
  forall t, (w < 0)%Z \/ (0 < w /\ t <= 0)%Z ->
  forall row, In row (lines_loop n w t) -> row = [].
Proof.
  induction n as [|n IH]; intros t H row Hin; [destruct Hin|].
  cbn [lines_loop] in Hin. destruct Hin as [<-|Hin].
  - destruct (t >? w)%Z eqn:E.
    + assert (Z.to_nat w = 0) as -> by lia. reflexivity.
    + assert (Z.to_nat t = 0) as -> by lia. reflexivity.
  - apply (IH (t - w)%Z); [lia|exact Hin].
Qed.

Lemma shuffle_nil (A : Type) (g : rng) : shuffle (@nil A) g = Ret [] g.
Proof. reflexivity. Qed.

Lemma try_spread_no_slot (n i : nat) (chunk : list str)
  (rest : list (list str)) (flat : list slot) (next : nat) (g : rng) :
  chunk <> [] ->
  try_spread_loop 0 0 n i (chunk :: rest) flat next g = Ret None g.
Proof.
  intros Hc. cbn [try_spread_loop].
  assert (Hlen : length chunk <> 0) by (destruct chunk; [congruence|discriminate]).
  rewrite Nat.mul_0_r. rewrite Nat.mul_0_r.
  assert (Hr1 : forall a, range a (0 / n + 1 - length chunk) = []).
  { intros a. unfold range.
    assert (0 / n = 0) as -> by (destruct n; reflexivity).
    replace (0 + 1 - length chunk - a) with 0 by lia. reflexivity. }
  assert (Hr2 : range next (0 + 1 - length chunk) = []).
  { unfold range. replace (0 + 1 - length chunk - next) with 0 by lia.
    reflexivity. }
  rewrite Hr1, Hr2. reflexivity.
Qed.

Lemma spread_no_slot (lines : list (list slot)) (chunk : list str)
  (rest : list (list str)) (g : rng) :
  (forall row, In row lines -> row = []) -> chunk <> [] ->
  exists e, spread_chunks_with_fallback lines (chunk :: rest) g = Exc e.
Proof.
  intros Hrows Hc. unfold spread_chunks_with_fallback.
  destruct lines as [|first lines']; [now exists IndexError_list|].
  assert (Hf : first = []) by (apply Hrows; now left). subst first.
  unfold bind at 1. cbn [list_get nth_error lift length].
  rewrite Nat.mul_0_r.
  assert (Hlen : length chunk <> 0) by (destruct chunk; [congruence|discriminate]).
  generalize max_attempts. intros k. revert g.
  induction k as [|k IH]; intros g; cbn [spread_attempts].
  - exists RuntimeError_no_slot. unfold lift, tightly_fit_chunks.
    cbn [list_get nth_error rbind length].
    rewrite Nat.mul_0_r. cbn [tight_loop].
    replace (0 + 1 - length chunk - 0) with 0 by lia. reflexivity.
  - unfold try_spread.
    rewrite (bind_ret_eq _ _ _ _ _ _ _
               (try_spread_no_slot (length (chunk :: rest)) 0 chunk rest
                  (concat ([] :: lines')) 0 g Hc)).
    apply IH.
Qed.

Lemma encode_chunks_first (password : str) (msgs : list str) (g g' : rng)
  (chunks : list (list str)) :
  msgs <> [] -> (forall m, In m msgs -> m <> []) ->
  encode_chunks password (get_password_tokens password) msgs g
  = Ret chunks g' ->
  exists chunk rest, chunks = chunk :: rest /\ chunk <> [].
Proof.
  intros Hne Hm H.
  pose proof (encode_chunks_ok password msgs g g' chunks Hm H) as Hok.
  destruct Hok as [|m c ms cs Hc _]; [now destruct Hne|].
  exists c, cs. split; [reflexivity|].
  destruct (chunk_ok_length _ _ _ Hc) as [E|E]; intros ->; discriminate.
Qed.

Lemma encode_placed_no_slot (text password : str) (w c : Z) (g : rng) :
  text <> [] -> (w <= 0)%Z \/ (c <= 0)%Z ->
  forall p g', encode_placed text password w c g <> Ret p g'.
Proof.
  intros Ht Hsize p g' Hp. unfold encode_placed in Hp.
  destruct (pad_text_ret text g) as [g1 [Hpad _]].
  rewrite (bind_ret_eq _ _ _ _ _ _ _ Hpad) in Hp.
  apply bind_ret in Hp. destruct Hp as [chunks [g2 [Hch Hp]]].
  apply bind_ret in Hp. destruct Hp as [lines [g4 [Hl Hp]]].
  apply lift_ret in Hl. destruct Hl as [Hl _].
  apply bind_ret in Hp. destruct Hp as [lines1 [g5 [Hp1 Hp]]].
  apply bind_ret in Hp. destruct Hp as [placed [g6 [Hs _]]].
  unfold setup_lines in Hl.
  destruct (w =? 0)%Z eqn:Ew; [discriminate|]. apply Z.eqb_neq in Ew.
  inversion Hl as [Hlines]. clear Hl.
  assert (Hrows : forall row, In row lines -> row = []).
  { subst lines. apply lines_loop_no_slot. lia. }
  assert (Hlen : map (@length slot) lines1 = map (@length slot) lines).
  { destruct (needs_padding text).
    - now apply place_padding_lengths in Hp1.
    - unfold ret in Hp1. now inversion Hp1. }
  assert (Hrows1 : forall row, In row lines1 -> row = []).
  { intros row Hin.
    assert (Hin' : In (length row) (map (@length slot) lines))
      by (rewrite <- Hlen; now apply in_map).
    apply in_map_iff in Hin'. destruct Hin' as [row' [E Hr]].
    rewrite (Hrows row' Hr) in E. now destruct row. }
  destruct (encode_chunks_first password
              (get_text_tokens (padded_text text g)) g1 g2 chunks)
    as [chunk [rest [-> Hc]]].
  - apply get_text_tokens_nonempty. now apply padded_text_nonempty.
  - intros m Hm. rewrite get_text_tokens_pairs in Hm.
    now apply pairs_nonempty in Hm.
  - exact Hch.
  - destruct (spread_no_slot lines1 chunk rest g5 Hrows1 Hc) as [e He].
    congruence.
Qed.

(** X13 ([encode]): a text that is not empty cannot be encoded into a
    grid without slots: when the row width or the capacity is zero or
    negative, [encode] raises for every password and outcome of the
    random draws. *)
Theorem encode_needs_slots (fuel : nat) (text password : str) (w c : Z)
  (g : rng) :
  text <> [] -> (w <= 0)%Z \/ (c <= 0)%Z ->
  exists e, encode fuel text password w c g = Exc e.
Proof.
  intros Ht Hsize. apply encode_placed_raises.
  now apply encode_placed_no_slot.
Qed.

Lemma encode_needs_slots_witness :
  exists e, encode 1 (tk "hi") (tk "hello") 4 0 (rng_const 0) = Exc e.
Proof.
  apply (encode_needs_slots 1 (tk "hi") (tk "hello") 4 0 (rng_const 0));
    [discriminate | right; lia].
Defined.

(** With a negative row width and capacity the rows built have no slot,
    and the empty text is "encoded" into them. *)
Example encode_empty_rows_example :
  encode 1 [] (tk "hello") (-2) (-5) (rng_const 0)
  = Ret [[]; []; []] (rng_const 0).
Proof. reflexivity. Qed.

(** ** The grid that [encode] returns *)

(** The steps of a run of [encode] that returns. *)
Lemma encode_ret_steps (fuel : nat) (text password : str) (w c : Z)
  (g g' : rng) (grid : list (list str)) :
  encode fuel text password w c g = Ret grid g' ->
  let anchors := get_password_tokens password in
  let msgs := get_text_tokens (padded_text text g) in
  exists g1 chunks g2,
    pad_text text g = Ret (padded_text text g) g1 /\
    encode_chunks password anchors msgs g1 = Ret chunks g2.
Proof.
  intros H anchors msgs. unfold encode in H. apply bind_ret in H.
  destruct H as [p [g3 [Hp _]]]. unfold encode_placed in Hp.
  destruct (pad_text_ret text g) as [g1 [Hpad _]].
  rewrite (bind_ret_eq _ _ _ _ _ _ _ Hpad) in Hp.
  apply bind_ret in Hp. destruct Hp as [chunks [g2 [Hch _]]].
  now exists g1, chunks, g2.
Qed.

Lemma encode_shape (fuel : nat) (text password : str) (w c : Z)
  (g g' : rng) (grid : list (list str)) :
  (1 <= w)%Z -> (1 <= c)%Z ->
  encode fuel text password w c g = Ret grid g' ->
  ((c <= w)%Z \/ (c mod w = 0)%Z) /\
  length grid = grid_rows w c /\
  (forall row, In row grid -> length row = grid_width w c) /\
  Z.of_nat (length (concat grid)) = c.
Proof.
  intros Hw Hc H.
  assert (Hsize : (c <= w)%Z \/ (c mod w = 0)%Z).
  { destruct (Z_le_gt_dec c w) as [Hle|Hgt]; [now left|].
    destruct (Z.eq_dec (c mod w) 0) as [E|E]; [now right|].
    exfalso.
    apply (encode_short_last_row fuel text password w c g Hw ltac:(lia) E
             grid g' H). }
  split; [exact Hsize|].
  destruct (encode_ret_steps fuel text password w c g g' grid H)
    as [g1 [chunks [g2 [Hpad Hch]]]].
  destruct (encode_rect_outcome fuel text password w c g g1 g2 chunks
              Hw Hc Hsize Hpad Hch)
    as [lines1 [g3 [Hrect [Hlen [Hw' [Hn [_ Hout]]]]]]].
  fold (grid_width w c) in Hrect, Hw'. fold (grid_rows w c) in Hlen, Hn.
  assert (Hne : lines1 <> []).
  { intros E. rewrite E in Hlen. cbn [length] in Hlen. lia. }
  destruct (spread_chunks_with_fallback lines1 chunks g3)
    as [placed g4|e|]; [| destruct Hout; congruence | destruct Hout].
  destruct Hout as [[ps Hp] [_ Henc]].
  pose proof (fill_noise_outcome fuel (get_password_tokens password)
                (get_text_tokens (padded_text text g)) placed g4) as HF.
  rewrite <- Henc, H in HF.
  destruct (placement_of_width (grid_width w c) lines1 placed chunks ps
              Hrect Hne Hp) as [_ [_ [Hrect' Hlen']]].
  assert (Hrows : forall row, In row grid -> length row = grid_width w c)
    by (apply (Forall2_rows_length _ _ _ _ placed grid HF); exact Hrect').
  assert (Hgrid : length grid = grid_rows w c)
    by (rewrite <- (Forall2_length HF); lia).
  split; [exact Hgrid|]. split; [exact Hrows|].
  rewrite (Forall2_concat_length _ _ _ placed grid HF).
  rewrite (rectangular_concat_length (grid_width w c) placed Hrect').
  rewrite (Forall2_length HF), Hgrid.
  destruct (grid_spec_rect w c Hw Hc Hsize) as [_ [_ [_ Hmul]]].
  fold (grid_width w c) in Hmul. fold (grid_rows w c) in Hmul. lia.
Qed.

(** X14 ([encode]): a grid that [encode] returns for a row width
    [w >= 1] and a capacity [c >= 1] has exactly [c] tokens in rows of
    one and the same width: one row of [c] tokens when [c < w], and
    [c / w] rows of [w] tokens otherwise, and then [w] divides [c]. *)
Theorem encode_grid_shape (fuel : nat) (text password : str) (w c : Z)
  (g g' : rng) (grid : list (list str)) :
  (1 <= w)%Z -> (1 <= c)%Z ->
  encode fuel text password w c g = Ret grid g' ->
  ((c <= w)%Z \/ (c mod w = 0)%Z) /\
  length grid = grid_rows w c /\
  (forall row, In row grid -> length row = grid_width w c) /\
  Z.of_nat (length (concat grid)) = c.
Proof.
  exact (encode_shape fuel text password w c g g' grid).
Qed.

Lemma encode_grid_shape_witness :
  exists grid g',
    encode 1 (tk "hi") (tk "hello") 4 8 (rng_const 0) = Ret grid g' /\
    ((8 <= 4)%Z \/ (8 mod 4 = 0)%Z) /\
    length grid = grid_rows 4 8 /\
    (forall row, In row grid -> length row = grid_width 4 8) /\
    Z.of_nat (length (concat grid)) = 8%Z.
Proof.
  assert (H : exists grid g',
             encode 1 (tk "hi") (tk "hello") 4 8 (rng_const 0) = Ret grid g')
    by (vm_compute; eexists _, _; reflexivity).
  destruct H as [grid [g' H]]. exists grid, g'. split; [exact H|].
  apply (encode_grid_shape 1 (tk "hi") (tk "hello") 4 8 (rng_const 0) g' grid);
    [lia | lia | exact H].
Defined.

Lemma pairs_even (t : str) :
  length t mod 2 = 0 -> forall m, In m (pairs t) -> length m = 2.
Proof.
  induction t as [| a | a b r IH] using list_ind2; intros He m Hm.
  - destruct Hm.
  - discriminate.
  - cbn [pairs] in Hm. destruct Hm as [<-|Hm]; [reflexivity|].
    apply IH; [|exact Hm]. cbn [length] in He.
    replace (S (S (length r))) with (length r + 1 * 2) in He by lia.
    now rewrite Nat.Div0.mod_add in He.
Qed.

Lemma padded_text_even (text : str) (g : rng) :
  length (padded_text text g) mod 2 = 0.
Proof.
  destruct (pad_text_ret text g) as [g1 [_ [[Hn [-> _]]|[Hn [ch [_ ->]]]]]];
    unfold needs_padding in Hn.
  - apply negb_false_iff in Hn. now apply Nat.eqb_eq in Hn.
  - apply negb_true_iff in Hn. apply Nat.eqb_neq in Hn.
    rewrite length_app. cbn [length].
    pose proof (Nat.mod_upper_bound (length text) 2 ltac:(lia)) as Hb.
    assert (Hm : length text mod 2 = 1) by lia.
    rewrite Nat.Div0.add_mod, Hm. reflexivity.
Qed.

Lemma anchor_length (password a : str) :
  In a (get_password_tokens password) -> length a = 2.
Proof.
  intros Ha. apply anchor_two_distinct in Ha.
  destruct a as [|x [|y [|z r]]]; try discriminate. reflexivity.
Qed.

Lemma chunk_ok_tokens (anchors : list str) (m : str) (c : list str) (x : str) :
  chunk_ok anchors m c -> In x c ->
  x = m \/ x = rev m \/ In x anchors.
Proof.
  intros [_ H] Hx.
  destruct (dir_in anchors m) as [[|]|] eqn:Em.
  - destruct H as [a [Ha ->]]. apply dir_in_Some in Ha.
    destruct Hx as [<-|[<-|[<-|[]]]]; auto.
  - destruct H as [a [Ha ->]]. apply dir_in_Some in Ha.
    destruct Hx as [<-|[<-|[<-|[]]]]; auto.
  - destruct (dir_in anchors (rev m)) as [d|] eqn:Er.
    + destruct H as [[a [Ha [_ ->]]]|[_ [b [Hb ->]]]].
      * apply dir_in_Some in Ha. destruct Hx as [<-|[<-|[]]]; auto.
      * apply dir_in_Some in Hb. destruct Hx as [<-|[<-|[]]]; auto.
    + destruct H as [a [[Ha ->]|[Ha ->]]]; apply dir_in_Some in Ha;
        destruct Hx as [<-|[<-|[]]]; auto.
Qed.

Lemma Forall2_In_l (A B : Type) (R : A -> B -> Prop) (l1 : list A)
  (l2 : list B) (y : B) :
  Forall2 R l1 l2 -> In y l2 -> exists x, In x l1 /\ R x y.
Proof.
  induction 1 as [|a b l1 l2 Hab _ IH]; intros Hy; [destruct Hy|].
  destruct Hy as [<-|Hy].
  - exists a. split; [now left|exact Hab].
  - destruct (IH Hy) as [x [Hx Hr]]. exists x. split; [now right|exact Hr].
Qed.

Lemma encode_tokens_two (fuel : nat) (text password : str) (w c : Z)
  (g g' : rng) (grid : list (list str)) :
  encode fuel text password w c g = Ret grid g' ->
  forall row tok, In row grid -> In tok row -> length tok = 2.
Proof.
  intros H row tok Hrow Htok.
  set (anchors := get_password_tokens password).
  unfold encode in H. apply bind_ret in H.
  destruct H as [[msgs placed] [g3 [Hp Hfill]]]. cbn [fst snd] in Hfill.
  pose proof (fill_noise_outcome fuel anchors msgs placed g3) as HF.
  unfold anchors in HF. rewrite Hfill in HF. fold anchors in HF.
  apply encode_placed_tokens in Hp.
  destruct Hp as [Hmsgs [chunks [[g1 [g2 Hch]] Htoks]]].
  assert (Hm2 : forall m, In m msgs -> length m = 2).
  { intros m Hm. rewrite Hmsgs, get_text_tokens_pairs in Hm.
    apply (pairs_even (padded_text text g)); [|exact Hm].
    apply padded_text_even. }
  assert (Hin : In tok (concat grid))
    by (apply in_concat; now exists row).
  destruct (Forall2_In_l _ _ _ _ _ tok (Forall2_concat _ _ _ _ _ HF) Hin)
    as [s [Hs Hfilled]].
  destruct s as [x|]; cbn [filled] in Hfilled.
  - subst tok. destruct (Htoks x Hs) as [Hx|[_ Hx]];
      [|now apply (anchor_length password)].
    apply in_concat in Hx. destruct Hx as [chunk [Hchunk Hx]].
    assert (Hok : Forall2 (chunk_ok anchors) msgs chunks).
    { apply (encode_chunks_ok password msgs g1 g2 chunks); [|exact Hch].
      intros m Hm. apply Hm2 in Hm. intros ->. discriminate. }
    apply In_nth_error in Hchunk. destruct Hchunk as [i Hi].
    assert (Hex : exists m, In m msgs /\ chunk_ok anchors m chunk).
    { clear - Hok Hi. revert i Hi.
      induction Hok as [|m0 c0 ms cs H0 _ IH]; intros i Hi;
        [destruct i; discriminate|].
      destruct i as [|i]; cbn in Hi.
      - inversion Hi. subst. exists m0. split; [now left|exact H0].
      - destruct (IH i Hi) as [m [Hm Hc]]. exists m. split; [now right|exact Hc]. }
    destruct Hex as [m [Hm Hc]].
    destruct (chunk_ok_tokens anchors m chunk x Hc Hx) as [->|[->|Ha]].
    + now apply Hm2.
    + rewrite length_rev. now apply Hm2.
    + now apply (anchor_length password).
  - destruct Hfilled as [[a [b [_ [_ ->]]]] _]. reflexivity.
Qed.

(** X15 ([encode], [generate_noise_token], [get_text_tokens]): every
    token of a grid that [encode] returns has exactly two characters:
    the message tokens (the text is padded to an even length), their
    reversals, the anchors and the noise. *)
Theorem encode_two_characters (fuel : nat) (text password : str) (w c : Z)
  (g g' : rng) (grid : list (list str)) :
  encode fuel text password w c g = Ret grid g' ->
  forall row tok, In row grid -> In tok row -> length tok = 2.
Proof.
  exact (encode_tokens_two fuel text password w c g g' grid).
Qed.

Lemma encode_two_characters_witness :
  exists grid g',
    encode 1 (tk "hel") (tk "hello") 4 8 (rng_const 0) = Ret grid g' /\
    forall row tok, In row grid -> In tok row -> length tok = 2.
Proof.
  assert (H : exists grid g',
             encode 1 (tk "hel") (tk "hello") 4 8 (rng_const 0) = Ret grid g')
    by (vm_compute; eexists _, _; reflexivity).
  destruct H as [grid [g' H]]. exists grid, g'. split; [exact H|].
  exact (encode_two_characters 1 (tk "hel") (tk "hello") 4 8 (rng_const 0)
           g' grid H).
Defined.

(** ** The exceptions of [encode] *)




(** ** Decoding what was encoded *)

Lemma decode_no_anchor (lines : list (list str)) (password : str) :
  (forall line tok, In line lines -> In tok line ->
                    ~ In tok (get_password_tokens password)) ->
  decode lines password = Ok [].
Proof.
  intros H. rewrite decode_events.
  set (valid := get_password_tokens password) in *.
  assert (Hev : emitted (grid_events valid lines) = [] /\
                has_trim (grid_events valid lines) = false).
  { unfold grid_events. induction lines as [|line lines IH]; [now split|].
    cbn [flat_map]. rewrite emitted_app, has_trim_app.
    destruct (scan_no_anchor valid [] line []) as [He Ht].
    - intros tok Htok. apply (H line tok); [now left | exact Htok].
    - destruct IH as [He' Ht'].
      + intros l t Hl Ht0. apply (H l t); [now right | exact Ht0].
      + rewrite He, Ht, He', Ht'. now split. }
  destruct Hev as [He Ht]. cbv zeta. rewrite He, Ht. reflexivity.
Qed.

Lemma encode_empty_decodes (fuel : nat) (password : str) (w c : Z)
  (g g' : rng) (grid : list (list str)) :
  encode fuel [] password w c g = Ret grid g' ->
  decode grid password = Ok [].
Proof.
  intros H. set (anchors := get_password_tokens password).
  unfold encode in H. apply bind_ret in H.
  destruct H as [[msgs placed] [g3 [Hp Hfill]]]. cbn [fst snd] in Hfill.
  pose proof (fill_noise_outcome fuel anchors msgs placed g3) as HF.
  unfold anchors in HF. rewrite Hfill in HF. fold anchors in HF.
  apply encode_placed_tokens in Hp.
  destruct Hp as [Hmsgs [chunks [[g1 [g2 Hch]] Htoks]]].
  change (get_text_tokens (padded_text [] g)) with (@nil str) in Hmsgs.
  subst msgs. cbn in Hch. inversion Hch. subst chunks.
  assert (Hnone : forall s, In s (concat placed) -> s = None).
  { intros [t|] Hs; [|reflexivity].
    destruct (Htoks t Hs) as [[]|[Hn _]]. discriminate. }
  apply decode_no_anchor. intros line tok Hl Ht.
  assert (Hin : In tok (concat grid)) by (apply in_concat; now exists line).
  destruct (filled_all_none anchors [] (concat placed) (concat grid)
              (Forall2_concat _ _ _ _ _ HF) Hnone tok Hin) as [_ [Hn _]].
  exact Hn.
Qed.

Lemma encode_decodes (fuel : nat) (text password : str) (w c : Z)
  (g g' : rng) (grid : list (list str)) :
  encode fuel text password w c g = Ret grid g' ->
  decode grid password = Ok text.
Proof.
  intros H.
  destruct text as [|ch0 text0] eqn:Et;
    [now apply (encode_empty_decodes fuel password w c g g')|].
  rewrite <- Et in *.
  assert (Ht : text <> []) by (rewrite Et; discriminate).
  clear Et ch0 text0.
  set (anchors := get_password_tokens password).
  set (msgs := get_text_tokens (padded_text text g)).
  assert (Hpos : (1 <= w)%Z /\ (1 <= c)%Z).
  { destruct (Z_le_gt_dec w 0) as [Hw|Hw]; [|destruct (Z_le_gt_dec c 0) as [Hc|Hc]];
      [exfalso | exfalso | lia];
      unfold encode in H; apply bind_ret in H;
      destruct H as [p [g3 [Hp _]]];
      apply (encode_placed_no_slot text password w c g Ht ltac:(lia) p g3 Hp). }
  destruct Hpos as [Hw Hc].
  assert (Hsize : (c <= w)%Z \/ (c mod w = 0)%Z).
  { destruct (Z_le_gt_dec c w) as [Hle|Hgt]; [now left|].
    destruct (Z.eq_dec (c mod w) 0) as [E|E]; [now right|].
    exfalso.
    apply (encode_short_last_row fuel text password w c g Hw ltac:(lia) E
             grid g' H). }
  destruct (encode_ret_steps fuel text password w c g g' grid H)
    as [g1 [chunks [g2 [Hpad Hch]]]].
  fold anchors msgs in Hch.
  assert (Hok : Forall2 (chunk_ok anchors) msgs chunks).
  { apply (encode_chunks_ok password msgs g1 g2); [|exact Hch].
    intros m Hm. unfold msgs in Hm. rewrite get_text_tokens_pairs in Hm.
    now apply pairs_nonempty in Hm. }
  destruct (encode_rect_outcome fuel text password w c g g1 g2 chunks
              Hw Hc Hsize Hpad Hch)
    as [lines1 [g3 [Hrect [Hlen [Hw' [Hn [Hflat Hout]]]]]]].
  fold anchors msgs in Hout, Hflat.
  fold (grid_width w c) in Hrect, Hw', Hflat.
  fold (grid_rows w c) in Hlen, Hn, Hflat.
  assert (Hne : lines1 <> []).
  { intros E. rewrite E in Hlen. cbn [length] in Hlen. lia. }
  rewrite <- Hlen in Hflat.
  destruct (spread_chunks_with_fallback lines1 chunks g3)
    as [placed g4|e|]; [| destruct Hout; congruence | destruct Hout].
  destruct Hout as [[ps Hp] [_ Henc]].
  pose proof (fill_noise_outcome fuel anchors msgs placed g4) as HF.
  rewrite <- Henc, H in HF.
  rewrite (decode_filled password msgs (grid_width w c) (needs_padding text)
             lines1 placed chunks ps grid Hw' Hrect Hne Hflat Hp Hok HF).
  f_equal. apply join_message_tokens.
Qed.

(** X17 ([encode], [decode]): every grid that [encode] returns decodes to
    the text, whatever the text, the password, the row width, the
    capacity and the outcome of the random draws. *)
Theorem encode_then_decode (fuel : nat) (text password : str) (w c : Z)
  (g g' : rng) (grid : list (list str)) :
  encode fuel text password w c g = Ret grid g' ->
  decode grid password = Ok text.
Proof.
  exact (encode_decodes fuel text password w c g g' grid).
Qed.

Lemma encode_then_decode_witness :
  exists grid g',
    encode 1 (tk "hel") (tk "hello") 4 8 (rng_const 0) = Ret grid g' /\
    decode grid (tk "hello") = Ok (tk "hel").
Proof.
  assert (H : exists grid g',
             encode 1 (tk "hel") (tk "hello") 4 8 (rng_const 0) = Ret grid g')
    by (vm_compute; eexists _, _; reflexivity).
  destruct H as [grid [g' H]]. exists grid, g'. split; [exact H|].
  exact (encode_then_decode 1 (tk "hel") (tk "hello") 4 8 (rng_const 0)
           g' grid H).
Defined.

(** ** One row for each chunk *)










(** X19 ([lines_to_strings], [parse_lines_arg], [encode], [decode]): the
    line strings printed for a grid that [encode] returns, cut into
    tokens again, give that grid back; so decoding the printed lines
    gives the text. *)
Theorem encode_strings_parse (fuel : nat) (text password : str) (w c : Z)
  (g g' : rng) (grid : list (list str)) :
  encode fuel text password w c g = Ret grid g' ->
  parse_lines_arg (lines_to_strings grid) = grid /\
  decode (parse_lines_arg (lines_to_strings grid)) password = Ok text.
Proof.
  intros H.
  assert (E : parse_lines_arg (lines_to_strings grid) = grid).
  { apply parse_strings_id.
    apply (encode_tokens_two fuel text password w c g g' grid H). }
  split; [exact E|]. rewrite E.
  apply (encode_decodes fuel text password w c g g' grid H).
Qed.

Lemma encode_strings_parse_witness :
  exists grid g',
    encode 1 (tk "hel") (tk "hello") 4 8 (rng_const 0) = Ret grid g' /\
    parse_lines_arg (lines_to_strings grid) = grid /\
    decode (parse_lines_arg (lines_to_strings grid)) (tk "hello")
    = Ok (tk "hel").
Proof.
  assert (H : exists grid g',
             encode 1 (tk "hel") (tk "hello") 4 8 (rng_const 0) = Ret grid g')
    by (vm_compute; eexists _, _; reflexivity).
  destruct H as [grid [g' H]]. exists grid, g'. split; [exact H|].
  exact (encode_strings_parse 1 (tk "hel") (tk "hello") 4 8 (rng_const 0)
           g' grid H).
Defined.

(** ** Printing a grid *)

Lemma col_width_ok (rows : list (list str)) (i : nat) :
  forall m w,
    col_width rows i m = Ok w ->
    m <= w /\
    (forall row, In row rows ->
       exists s, nth_error row i = Some s /\ length s <= w) /\
    (w = m \/
     exists row s, In row rows /\ nth_error row i = Some s /\ length s = w).
Proof.
  induction rows as [|row rows IH]; intros m w H; cbn [col_width] in H.
  - inversion H. subst. split; [lia|]. split; [intros ? []|now left].
  - apply rbind_ok in H. destruct H as [s [Hs H]].
    apply list_get_ok in Hs. apply IH in H.
    destruct H as [Hle [Hall Hmax]]. split; [lia|]. split.
    + intros r [<-|Hr]; [|now apply Hall].
      exists s. split; [exact Hs|lia].
    + destruct Hmax as [->|[r [s' [Hr [Hs' Hl]]]]].
      * destruct (Nat.max_spec m (length s)) as [[_ E]|[_ E]]; rewrite E.
        -- right. exists row, s. split; [now left|]. now split.
        -- now left.
      * right. exists r, s'. split; [now right|]. now split.
Qed.

Lemma col_width_outcome (rows : list (list str)) (i : nat) :
  forall m,
    match col_width rows i m with
    | Ok _ => forall row, In row rows -> i < length row
    | Raise e =>
        e = IndexError_list /\ exists row, In row rows /\ length row <= i
    end.
Proof.
  induction rows as [|row rows IH]; intros m; cbn [col_width].
  - intros ? [].
  - unfold list_get. destruct (nth_error row i) as [s|] eqn:Es; cbn [rbind].
    + specialize (IH (Nat.max m (length s))).
      destruct (col_width rows i (Nat.max m (length s))) as [w|e].
      * intros r [<-|Hr]; [|now apply IH].
        apply nth_error_Some. congruence.
      * destruct IH as [-> [r [Hr Hl]]]. split; [reflexivity|].
        exists r. split; [now right|exact Hl].
    + split; [reflexivity|]. exists row. split; [now left|].
      now apply nth_error_None.
Qed.

Lemma col_widths_ok (processed : list (list str)) (cols : list nat) :
  forall widths,
    col_widths processed cols = Ok widths ->
    Forall2 (fun i w => col_width processed i 0 = Ok w) cols widths.
Proof.
  induction cols as [|i cols IH]; intros widths H; cbn [col_widths] in H.
  - inversion H. constructor.
  - apply rbind_ok in H. destruct H as [w [Hw H]].
    apply rbind_ok in H. destruct H as [ws [Hws H]].
    inversion H. subst. constructor; [exact Hw|now apply IH].
Qed.

Lemma col_widths_outcome (processed : list (list str)) (cols : list nat) :
  match col_widths processed cols with
  | Ok _ => forall i row, In i cols -> In row processed -> i < length row
  | Raise e =>
      e = IndexError_list /\
      exists i row, In i cols /\ In row processed /\ length row <= i
  end.
Proof.
  induction cols as [|i cols IH]; cbn [col_widths]; [intros ? ? []|].
  pose proof (col_width_outcome processed i 0) as Hi.
  destruct (col_width processed i 0) as [w|e]; cbn [rbind].
  - destruct (col_widths processed cols) as [ws|e]; cbn [rbind].
    + intros j row [<-|Hj] Hrow; [now apply Hi|now apply IH].
    + destruct IH as [-> [j [row [Hj [Hrow Hl]]]]]. split; [reflexivity|].
      exists j, row. split; [now right|]. now split.
  - destruct Hi as [-> [row [Hrow Hl]]]. split; [reflexivity|].
    exists i, row. split; [now left|]. now split.
Qed.

Lemma length_ljust (s : str) (w : nat) :
  length s <= w -> length (ljust s w) = w.
Proof.
  intros H. unfold ljust. rewrite length_app, repeat_length. lia.
Qed.

Lemma length_join_sep (sep : str) (cells : list str) :
  length (join_sep sep cells)
  = list_sum (map (@length ascii) cells) + length sep * (length cells - 1).
Proof.
  induction cells as [|s cells IH]; [cbn; lia|].
  cbn [join_sep]. destruct cells as [|s' cells].
  - cbn. lia.
  - rewrite !length_app, IH. cbn [map list_sum fold_right length].
    rewrite !Nat.sub_succ, !Nat.sub_0_r, Nat.mul_succ_r. lia.
Qed.

Lemma format_cells (widths : list nat) :
  forall prow : list str,
    (forall j w, nth_error widths j = Some w ->
       exists s, nth_error prow j = Some s /\ length s <= w) ->
    let cells := map (fun p => ljust (fst p) (snd p)) (combine prow widths) in
    map (@length ascii) cells = widths /\
    Forall2 (fun s cell => exists k, cell = s ++ repeat " "%char k)
      (firstn (length widths) prow) cells.
Proof.
  induction widths as [|w widths IH]; intros prow H cells.
  - unfold cells. rewrite combine_nil. cbn. split; [reflexivity|constructor].
  - destruct (H 0 w eq_refl) as [s [Hs Hl]].
    destruct prow as [|s0 prow]; [discriminate|]. inversion Hs. subst s0.
    destruct (IH prow) as [Hlen Hcells].
    { intros j w' Hj. apply (H (S j) w' Hj). }
    unfold cells. cbn [combine map fst snd firstn length]. split.
    + rewrite length_ljust by exact Hl. now rewrite Hlen.
    + constructor; [|exact Hcells].
      exists (w - length s). reflexivity.
Qed.

Lemma nth_error_range0 (n j : nat) :
  j < n -> nth_error (range 0 n) j = Some j.
Proof.
  intros H. unfold range. rewrite Nat.sub_0_r.
  rewrite nth_error_nth' with (d := 0) by (now rewrite length_seq).
  now rewrite seq_nth.
Qed.

Lemma print_lines_ok (lines : list (list slot)) (out : list str) :
  print_lines lines = Ok out ->
  exists widths,
    length widths = length (hd [] lines) /\
    col_widths (map (map show_token) lines) (range 0 (length (hd [] lines)))
    = Ok widths /\
    out = map (format_row widths) (map (map show_token) lines).
Proof.
  unfold print_lines. intros H.
  apply rbind_ok in H. destruct H as [first [Hf H]].
  apply rbind_ok in H. destruct H as [widths [Hw H]].
  inversion H. subst out. clear H.
  apply list_get_0 in Hf. destruct Hf as [Hf _].
  assert (Hlen : length first = length (hd [] lines)).
  { rewrite <- Hf. destruct lines as [|row lines]; [reflexivity|].
    cbn [map hd]. apply length_map. }
  rewrite Hlen in Hw. exists widths. split; [|now split].
  apply col_widths_ok in Hw. apply Forall2_length in Hw.
  unfold range in Hw. rewrite length_seq in Hw. lia.
Qed.

(** X20 ([print_lines]): the table is column-aligned.  When
    [print_lines] returns, it has printed one line for each row; there
    are widths, one for each column of the first row, such that every
    line is the join by [" | "] of cells of exactly these widths, each
    cell being the shown token of its slot followed by spaces; each
    width is the length of the longest shown token of its column; so
    all lines have the same length. *)
Theorem print_lines_aligned (lines : list (list slot)) (out : list str) :
  print_lines lines = Ok out ->
  exists widths,
    length widths = length (hd [] lines) /\
    Forall2
      (fun row line =>
         exists cells,
           line = join_sep (tk " | ") cells /\
           map (@length ascii) cells = widths /\
           Forall2 (fun c cell =>
                      exists k, cell = show_token c ++ repeat " "%char k)
             (firstn (length widths) row) cells)
      lines out /\
    (forall j w, nth_error widths j = Some w ->
       exists row c, In row lines /\ nth_error row j = Some c /\
                     length (show_token c) = w) /\
    (forall s1 s2, In s1 out -> In s2 out -> length s1 = length s2).
Proof.
  intros H.
  assert (Hne : lines <> []).
  { intros ->. discriminate. }
  destruct (print_lines_ok lines out H) as [widths [Hlen [Hw ->]]].
  set (processed := map (map show_token) lines) in *.
  pose proof (col_widths_ok _ _ _ Hw) as Hcols.
  assert (Hcol : forall j w, nth_error widths j = Some w ->
                   col_width processed j 0 = Ok w).
  { intros j w Hj.
    assert (Hlt : j < length widths) by (apply nth_error_Some; congruence).
    assert (Hr : nth_error (range 0 (length (hd [] lines))) j = Some j)
      by (apply nth_error_range0; lia).
    destruct (Forall2_nth _ _ _ _ _ j j Hcols Hr) as [w' [Hw' Hc]].
    congruence. }
  assert (Hcell : forall prow, In prow processed ->
            forall j w, nth_error widths j = Some w ->
              exists s, nth_error prow j = Some s /\ length s <= w).
  { intros prow Hp j w Hj. apply Hcol in Hj. apply col_width_ok in Hj.
    now apply (proj1 (proj2 Hj)). }
  assert (Hrows : Forall2
      (fun row line =>
         exists cells,
           line = join_sep (tk " | ") cells /\
           map (@length ascii) cells = widths /\
           Forall2 (fun c cell =>
                      exists k, cell = show_token c ++ repeat " "%char k)
             (firstn (length widths) row) cells)
      lines (map (format_row widths) processed)).
  { unfold processed in *. clear Hw Hcols Hcol H Hlen Hne.
    induction lines as [|row lines IH]; [constructor|].
    cbn [map]. constructor.
    - destruct (format_cells widths (map show_token row)) as [Hl Hc].
      { apply Hcell. now left. }
      eexists. split; [reflexivity|]. split; [exact Hl|].
      rewrite firstn_map in Hc.
      clear - Hc. remember (firstn (length widths) row) as l eqn:El. clear El.
      remember (map (fun p => ljust (fst p) (snd p))
                  (combine (map show_token row) widths)) as cells eqn:Ec.
      clear Ec. revert cells Hc.
      induction l as [|c l IHl]; intros cells Hc; inversion Hc; subst;
        constructor; auto.
    - apply IH. intros prow Hp. apply Hcell. now right. }
  exists widths. split; [exact Hlen|]. split; [exact Hrows|]. split.
  - intros j w Hj. apply Hcol in Hj. apply col_width_ok in Hj.
    destruct Hj as [_ [Hall [->|[prow [s [Hp [Hs Hl]]]]]]].
    + destruct lines as [|row lines]; [now destruct Hne|].
      destruct (Hall (map show_token row) (or_introl eq_refl)) as [s [Hs Hl]].
      rewrite nth_error_map in Hs.
      destruct (nth_error row j) as [c|] eqn:Ec; [|discriminate].
      inversion Hs. subst s. exists row, c.
      split; [now left|]. split; [exact Ec|lia].
    + apply in_map_iff in Hp. destruct Hp as [row [<- Hrow]].
      rewrite nth_error_map in Hs.
      destruct (nth_error row j) as [c|] eqn:Ec; [|discriminate].
      inversion Hs. subst s. now exists row, c.
  - assert (Hsame : forall s, In s (map (format_row widths) processed) ->
              length s = list_sum widths + 3 * (length widths - 1)).
    { intros s Hs.
      destruct (Forall2_In_l _ _ _ _ _ s Hrows Hs)
        as [row [_ [cells [-> [Hl _]]]]].
      assert (Hc : length cells = length widths)
        by (rewrite <- Hl; now rewrite length_map).
      rewrite length_join_sep, Hl, Hc. reflexivity. }
    intros s1 s2 H1 H2. now rewrite (Hsame s1 H1), (Hsame s2 H2).
Qed.

Lemma print_lines_aligned_witness :
  let lines : list (list slot) :=
    [[Some (tk "ab"); None; Some (tk "c d")];
     [Some (tk "x"); Some (tk "yyyy"); Some (tk "z")]] in
  let out := [tk "ab |      | c(spc)d"; tk "x  | yyyy | z      "] in
  exists widths,
    length widths = length (hd [] lines) /\
    Forall2
      (fun row line =>
         exists cells,
           line = join_sep (tk " | ") cells /\
           map (@length ascii) cells = widths /\
           Forall2 (fun c cell =>
                      exists k, cell = show_token c ++ repeat " "%char k)
             (firstn (length widths) row) cells)
      lines out /\
    (forall j w, nth_error widths j = Some w ->
       exists row c, In row lines /\ nth_error row j = Some c /\
                     length (show_token c) = w) /\
    (forall s1 s2, In s1 out -> In s2 out -> length s1 = length s2).
Proof.
  intros lines out. apply (print_lines_aligned lines out). reflexivity.
Defined.

Lemma print_lines_cases (lines : list (list slot)) :
  match print_lines lines with
  | Ok out =>
      lines <> [] /\
      (forall row, In row lines -> length (hd [] lines) <= length row) /\
      length out = length lines
  | Raise e =>
      e = IndexError_list /\
      (lines = [] \/
       exists row, In row lines /\ length row < length (hd [] lines))
  end.
Proof.
  unfold print_lines. destruct lines as [|first rest].
  - cbn. split; [reflexivity|now left].
  - cbn [map list_get nth_error rbind hd]. rewrite length_map.
    pose proof (col_widths_outcome
                  (map (map show_token) (first :: rest))
                  (range 0 (length first))) as Hout.
    cbn [map] in Hout.
    destruct (col_widths (map show_token first :: map (map show_token) rest)
                (range 0 (length first))) as [widths|e]; cbn [rbind].
    + split; [discriminate|]. split; [|cbn [length]; now rewrite !length_map].
      intros row Hrow.
      destruct (length first) as [|n] eqn:En; [lia|].
      assert (Hn : n < length (map show_token row)).
      { apply Hout.
        - apply in_range. lia.
        - change (In (map show_token row)
                    (map (map show_token) (first :: rest))).
          now apply in_map. }
      rewrite length_map in Hn. lia.
    + destruct Hout as [-> [i [prow [Hi [Hp Hl]]]]]. split; [reflexivity|].
      right. apply in_range in Hi.
      change (In prow (map (map show_token) (first :: rest))) in Hp.
      apply in_map_iff in Hp. destruct Hp as [row [<- Hrow]].
      rewrite length_map in Hl. exists row. split; [exact Hrow|lia].
Qed.

(** X21 ([print_lines]): [print_lines] prints one line for each row when
    the grid has a row and no row is shorter than the first one (the slots
    of a longer row beyond the width of the first are not printed);
    otherwise, for the empty grid or a grid with a row shorter than the
    first, it raises [IndexError] and prints nothing. *)
Theorem print_lines_outcome (lines : list (list slot)) :
  match print_lines lines with
  | Ok out =>
      lines <> [] /\
      (forall row, In row lines -> length (hd [] lines) <= length row) /\
      length out = length lines
  | Raise e =>
      e = IndexError_list /\
      (lines = [] \/
       exists row, In row lines /\ length row < length (hd [] lines))
  end.
Proof.
  exact (print_lines_cases lines).
Qed.

(** ** The command line *)

Lemma print_lines_grid (w : nat) (grid : list (list str)) :
  grid <> [] -> (forall row, In row grid -> length row = w) ->
  exists table,
    print_lines (map (map (@Some str)) grid) = Ok table /\
    length table = length grid.
Proof.
  intros Hne Hrows.
  pose proof (print_lines_cases (map (map (@Some str)) grid)) as H.
  destruct (print_lines (map (map (@Some str)) grid)) as [table|e].
  - exists table. split; [reflexivity|].
    destruct H as [_ [_ ->]]. apply length_map.
  - exfalso. destruct H as [_ [E|[row [Hrow Hl]]]].
    + apply map_eq_nil in E. contradiction.
    + destruct grid as [|first rest]; [contradiction|].
      cbn [map hd] in Hl. apply in_map_iff in Hrow.
      destruct Hrow as [r [<- Hr]]. rewrite !length_map in Hl.
      rewrite (Hrows r Hr), (Hrows first (or_introl eq_refl)) in Hl. lia.
Qed.

(** X22 ([main], [encode], [print_lines], [lines_to_strings],
    [parse_lines_arg], [decode]): the round trip through the command
    line.  When [main] in encode mode returns for a text that is not
    empty, it has printed the table if asked to (one line for each row of
    the grid) and then the rows of the grid as line strings, nothing to
    the standard error, and it has not exited; and [main] in decode mode,
    given these line strings and the password, prints the text. *)
Theorem main_round_trip (fuel : nat) (text password : str) (w c : Z)
  (pr : bool) (g g' : rng) (o : output) :
  text <> [] ->
  main fuel (mkArgs (Some text) false password w c None pr) g = Ret o g' ->
  exists grid table,
    encode fuel text password w c g = Ret grid g' /\
    o = mkOutput (table ++ [join_sep newline (lines_to_strings grid)])
          [] None /\
    length table = (if pr then length grid else 0) /\
    forall fuel0 w0 c0 pr0 g0,
      main fuel0
        (mkArgs None true password w0 c0 (Some (lines_to_strings grid)) pr0)
        g0
      = Ret (mkOutput [text] [] None) g0.
Proof.
  intros Ht Hmain. unfold main in Hmain.
  cbn [args_encode args_password args_line_max args_total_max args_print]
    in Hmain.
  destruct text as [|ch text0] eqn:Et; [now destruct Ht|].
  rewrite <- Et in *. clear Et ch text0.
  apply bind_ret in Hmain. destruct Hmain as [grid [g1 [Henc Hmain]]].
  assert (Hpos : (1 <= w)%Z /\ (1 <= c)%Z).
  { destruct (Z_le_gt_dec w 0) as [Hw|Hw]; [|destruct (Z_le_gt_dec c 0) as [Hc|Hc]];
      [exfalso | exfalso | lia];
      destruct (encode_placed_raises fuel text password w c g
                  (encode_placed_no_slot text password w c g Ht ltac:(lia)))
        as [e He]; congruence. }
  destruct Hpos as [Hw Hc].
  destruct (encode_shape fuel text password w c g g1 grid Hw Hc Henc)
    as [Hsize [Hrows [Hwidth _]]].
  assert (Hne : grid <> []).
  { intros ->. cbn [length] in Hrows. unfold grid_rows in Hrows.
    destruct (c <? w)%Z eqn:E; [discriminate|]. apply Z.ltb_ge in E.
    assert (Hq : (1 <= c / w)%Z) by (apply Z.div_le_lower_bound; lia).
    lia. }
  destruct (print_lines_grid (grid_width w c) grid Hne Hwidth)
    as [table [Hpr Hlen]].
  apply bind_ret in Hmain. destruct Hmain as [table' [g2 [Htab Hmain]]].
  unfold ret in Hmain. inversion Hmain. subst o g2. clear Hmain.
  assert (Hg : g1 = g' /\ table' = if pr then table else []).
  { destruct pr.
    - rewrite Hpr in Htab. cbn [lift] in Htab. inversion Htab. now split.
    - unfold ret in Htab. inversion Htab. now split. }
  destruct Hg as [-> ->].
  exists grid, (if pr then table else []).
  split; [exact Henc|]. split; [reflexivity|]. split.
  - destruct pr; [exact Hlen|reflexivity].
  - intros fuel0 w0 c0 pr0 g0. unfold main.
    cbn [args_encode args_decode args_lines args_password].
    destruct (lines_to_strings grid) as [|l ls] eqn:El.
    { destruct grid; [now destruct Hne|discriminate]. }
    rewrite <- El.
    rewrite (parse_strings_id grid
               (encode_tokens_two fuel text password w c g g' grid Henc)).
    now rewrite (encode_decodes fuel text password w c g g' grid Henc).
Qed.

Lemma main_round_trip_witness :
  exists o g',
    main 1 (mkArgs (Some (tk "hel")) false (tk "hello") 4 16 None true)
      (rng_const 1) = Ret o g' /\
    exists grid table,
      encode 1 (tk "hel") (tk "hello") 4 16 (rng_const 1) = Ret grid g' /\
      o = mkOutput (table ++ [join_sep newline (lines_to_strings grid)])
            [] None /\
      length table = length grid /\
      forall fuel0 w0 c0 pr0 g0,
        main fuel0
          (mkArgs None true (tk "hello") w0 c0
             (Some (lines_to_strings grid)) pr0) g0
        = Ret (mkOutput [tk "hel"] [] None) g0.
Proof.
  assert (H : exists o g',
             main 1 (mkArgs (Some (tk "hel")) false (tk "hello") 4 16 None
                       true) (rng_const 1) = Ret o g')
    by (vm_compute; eexists _, _; reflexivity).
  destruct H as [o [g' H]]. exists o, g'. split; [exact H|].
  apply (main_round_trip 1 (tk "hel") (tk "hello") 4 16 true (rng_const 1)
           g' o); [discriminate | exact H].
Defined.

(** X23 ([main], [parse_lines_arg], [decode]): without a text to encode
    [main] never raises and draws no random number.  An empty text given
    to [--encode] is not encoded: nothing is printed.  In decode mode
    [main] prints the decoded text for any line strings, whatever their
    lengths, and without line strings it writes an error message and
    exits with status 1. *)
Theorem main_no_text (fuel : nat) (a : args) (g : rng) :
  args_encode a = None \/ args_encode a = Some [] ->
  exists o,
    main fuel a g = Ret o g /\
    (args_decode a = false -> o = mkOutput [] [] None) /\
    (args_decode a = true ->
     match args_lines a with
     | Some (l :: ls) =>
         exists s,
           decode (parse_lines_arg (l :: ls)) (args_password a) = Ok s /\
           o = mkOutput [s] [] None
     | _ =>
         o = mkOutput [] [tk "Error: --lines must be provided for decode"]
               (Some 1%Z)
     end).
Proof.
  intros Ht. unfold main.
  assert (E : match args_encode a with
              | Some (_ :: _) => False
              | _ => True
              end) by (destruct Ht as [-> | ->]; exact I).
  destruct (args_encode a) as [[|ch text]|]; try contradiction;
    clear E Ht;
    (destruct (args_decode a);
     [|eexists; split; [reflexivity|]; split; [reflexivity|discriminate]]);
    (destruct (args_lines a) as [[|l ls]|];
     [eexists; split; [reflexivity|]; split; [discriminate|reflexivity]
     | | eexists; split; [reflexivity|]; split; [discriminate|reflexivity]]);
    rewrite (decode_events (parse_lines_arg (l :: ls)) (args_password a));
    (eexists; split; [reflexivity|]; split; [discriminate|]);
    intros _; eexists; split; reflexivity.
Qed.

Lemma main_no_text_witness :
  exists o,
    main 1 (mkArgs (Some []) true (tk "hello") 4 8
              (Some [tk "oqhehixx"; tk "abc"]) false) (rng_const 0)
    = Ret o (rng_const 0) /\
    exists s,
      decode (parse_lines_arg [tk "oqhehixx"; tk "abc"]) (tk "hello") = Ok s /\
      o = mkOutput [s] [] None.
Proof.
  destruct (main_no_text 1
              (mkArgs (Some []) true (tk "hello") 4 8
                 (Some [tk "oqhehixx"; tk "abc"]) false)
              (rng_const 0) (or_intror eq_refl)) as [o [Hm [_ Hd]]].
  exists o. split; [exact Hm|]. exact (Hd eq_refl).
Defined.
